(** * Flash UI (spark-ui-designer): the stream extractor, the session store
      and its undo/redo log, embedded from [src/index.tsx] and the utilities
      module ([wrapHtml]).

    Conventions of the embedding.
    - A JavaScript string is the list of its UTF-16 code units, each a
      number in [N]; [u "..."] turns an ASCII literal into such a list.
    - [-1] as "not found" ([indexOf], the scanner's [end]) is [None].
    - React state is passed explicitly: an event handler is a function from
      the state it was rendered with to the state after its setters ran.
    - An updater given to a setter that raises has no state to return: it
      is a function into [option], and [None] stays [None] under the
      updaters queued after it.
    - [JSON.parse] is a builtin of the platform, not code of the repository:
      the extractor takes it as a parameter [parse] returning [None] where
      the builtin throws; [Json.JSON_parse] is a parser of the JSON grammar
      used to run the examples and the style-name extraction.
    - The other services of the platform are parameters too where a handler
      relies on them: [JSON.stringify] and the page splitting of
      [extractHtmlCssJs] (which reads the page with [DOMParser]) in the
      session archive, the truth of [variation.name && variation.html] in
      the variations, the outcome of the random sort of the placeholders.
      A JSZip archive is the list of its files by path, a file written
      again replacing the one of that path. *)

From Stdlib Require Import ZArith NArith Lia Ascii String.
From stdpp Require Import base numbers list.

Local Open Scope nat_scope.

(** ** JavaScript strings *)

Module JsString.

Abbreviation jsstring := (list N).

(** An ASCII literal as a list of code units. *)
Definition u (s : string) : jsstring := N_of_ascii <$> list_ascii_of_string s.

Definition LBRACE : N := 123.   (* '{' *)
Definition RBRACE : N := 125.   (* '}' *)
Definition LBRACKET : N := 91.  (* '[' *)
Definition RBRACKET : N := 93.  (* ']' *)
Definition DQUOTE : N := 34.    (* the double quote *)
Definition NEWLINE : N := 10.

(** A literal in which an apostrophe stands for the double quote. *)
Definition uq (s : string) : jsstring :=
  (λ c, if N.eqb c 39 then DQUOTE else c) <$> u s.

(** The lines joined by line feeds, as a template literal spans them. *)
Fixpoint unlines (ls : list jsstring) : jsstring :=
  match ls with
  | [] => []
  | [l] => l
  | l :: ls' => l ++ NEWLINE :: unlines ls'
  end.

(** [s.indexOf(c, from)] for a one-character needle [c]. *)
Fixpoint indexOf (c : N) (s : jsstring) (from : nat) {struct s} : option nat :=
  match s with
  | [] => None
  | x :: s' =>
      match from with
      | O => if N.eqb x c then Some O else S <$> indexOf c s' O
      | S from' => S <$> indexOf c s' from'
      end
  end.

(** [s.lastIndexOf(c)]. *)
Definition lastIndexOf (c : N) (s : jsstring) : option nat :=
  (λ k, length s - 1 - k) <$> indexOf c (rev s) 0.

(** [s.substring(a, b)] for [a <= b], and [s.substring(a)]. *)
Definition substring (s : jsstring) (a b : nat) : jsstring := take (b - a) (drop a s).
Definition substringFrom (s : jsstring) (a : nat) : jsstring := drop a s.

(** [s.startsWith(p)], [s.endsWith(p)], [s.includes(p)]. *)
Fixpoint startsWith (s p : jsstring) : bool :=
  match p, s with
  | [], _ => true
  | _ :: _, [] => false
  | y :: p', x :: s' => N.eqb x y && startsWith s' p'
  end.

Definition endsWith (s p : jsstring) : bool := startsWith (rev s) (rev p).

Fixpoint includes (s p : jsstring) : bool :=
  startsWith s p ||
  match s with
  | [] => false
  | _ :: s' => includes s' p
  end.

(** WhiteSpace and LineTerminator code units, the ones [trim] removes. *)
Definition isWhiteSpace (c : N) : bool :=
  bool_decide (c ∈ [9; 10; 11; 12; 13; 32; 160; 5760; 8232; 8233; 8239; 8287; 12288; 65279]%N)
  || (N.leb 8192 c && N.leb c 8202).

Fixpoint trimStart (s : jsstring) : jsstring :=
  match s with
  | c :: s' => if isWhiteSpace c then trimStart s' else s
  | [] => []
  end.

Definition trimEnd (s : jsstring) : jsstring := rev (trimStart (rev s)).
Definition trim (s : jsstring) : jsstring := trimEnd (trimStart s).

(** [s.replace(/[^a-z0-9]/gi, '-')]: every code unit that is not an ASCII
    letter or digit becomes a hyphen. *)
Definition isAsciiAlnum (c : N) : bool :=
  (N.leb 48 c && N.leb c 57) || (N.leb 97 c && N.leb c 122) || (N.leb 65 c && N.leb c 90).

Definition replaceNonAlnum (s : jsstring) : jsstring :=
  (λ c, if isAsciiAlnum c then c else 45%N) <$> s.

(** [toLowerCase] on text of ASCII letters, digits and hyphens. *)
Definition toLowerCase (s : jsstring) : jsstring :=
  (λ c, if N.leb 65 c && N.leb c 90 then (c + 32)%N else c) <$> s.

End JsString.
Export JsString.

(** ** JSON values and [JSON.parse]

    The builtin is modelled by a parser of the JSON grammar (ECMA-404, as
    ECMAScript's [JSON.parse] reads it). A number is kept as its lexeme and
    an object as its members in source order: floating-point valuation and
    the merging of repeated keys are not modelled. *)

Module Json.

#[warnings="-register-all"]
Inductive JValue : Type :=
| JNull
| JBool (b : bool)
| JNumber (lexeme : jsstring)
| JString (s : jsstring)
| JArray (items : list JValue)
| JObject (members : list (jsstring * JValue)).

(** JSON whitespace: tab, line feed, carriage return, space. *)
Definition isJsonWs (c : N) : bool :=
  N.eqb c 9 || N.eqb c 10 || N.eqb c 13 || N.eqb c 32.

Fixpoint skipWs (s : jsstring) : jsstring :=
  match s with
  | c :: s' => if isJsonWs c then skipWs s' else s
  | [] => []
  end.

Definition isDigit (c : N) : bool := N.leb 48 c && N.leb c 57.

Definition hexValue (c : N) : option N :=
  if isDigit c then Some (c - 48)%N
  else if N.leb 97 c && N.leb c 102 then Some (c - 87)%N
  else if N.leb 65 c && N.leb c 70 then Some (c - 55)%N
  else None.

(** The longest run of digits at the head of [s], and what follows it. *)
Fixpoint spanDigits (s : jsstring) : jsstring * jsstring :=
  match s with
  | c :: s' =>
      if isDigit c then let '(ds, r) := spanDigits s' in (c :: ds, r) else ([], s)
  | [] => ([], [])
  end.

(** One or more digits. *)
Definition digits1 (s : jsstring) : option (jsstring * jsstring) :=
  match spanDigits s with
  | ([], _) => None
  | (ds, r) => Some (ds, r)
  end.

(** A number: an optional minus sign; a zero, or a nonzero digit and then
    any digits; optionally a point and one or more digits; optionally an
    [e] or [E], a sign and one or more digits. The result is the lexeme and
    the rest of the text. *)
Definition parseNumber (s : jsstring) : option (jsstring * jsstring) :=
  let '(sign, s1) :=
    match s with
    | c :: r => if N.eqb c 45 then ([c], r) else ([], s)
    | [] => ([], s)
    end in
  '(int, s2) ←
    match s1 with
    | c :: r =>
        if N.eqb c 48 then Some ([c], r)
        else if isDigit c then let '(ds, r') := spanDigits r in Some (c :: ds, r')
        else None
    | [] => None
    end;
  '(frac, s3) ←
    match s2 with
    | c :: r =>
        if N.eqb c 46 then '(ds, r') ← digits1 r; Some (c :: ds, r')
        else Some ([], s2)
    | [] => Some ([], s2)
    end;
  '(exp, s4) ←
    match s3 with
    | c :: r =>
        if N.eqb c 101 || N.eqb c 69 then
          let '(sg, r1) :=
            match r with
            | d :: r' => if N.eqb d 43 || N.eqb d 45 then ([d], r') else ([], r)
            | [] => ([], r)
            end in
          '(ds, r2) ← digits1 r1; Some (c :: sg ++ ds, r2)
        else Some ([], s3)
    | [] => Some ([], s3)
    end;
  Some (sign ++ int ++ frac ++ exp, s4).

(** The characters after an opening quote, up to the closing one, with the
    escapes decoded; [None] on a control character, a bad escape or a string
    that does not close. *)
Fixpoint parseStringBody (s : jsstring) : option (jsstring * jsstring) :=
  match s with
  | [] => None
  | c :: rest =>
      if N.eqb c 34 then Some ([], rest)
      else if N.ltb c 32 then None
      else if N.eqb c 92 then
        match rest with
        | e :: rest1 =>
            if N.eqb e 117 then
              match rest1 with
              | h1 :: h2 :: h3 :: h4 :: rest2 =>
                  a ← hexValue h1; b ← hexValue h2; c ← hexValue h3; d ← hexValue h4;
                  '(str, r) ← parseStringBody rest2;
                  Some ((((a * 16 + b) * 16 + c) * 16 + d)%N :: str, r)
              | _ => None
              end
            else
              x ← (if N.eqb e 34 || N.eqb e 92 || N.eqb e 47 then Some e
                   else if N.eqb e 98 then Some 8%N
                   else if N.eqb e 102 then Some 12%N
                   else if N.eqb e 110 then Some 10%N
                   else if N.eqb e 114 then Some 13%N
                   else if N.eqb e 116 then Some 9%N
                   else None);
              '(str, r) ← parseStringBody rest1;
              Some (x :: str, r)
        | [] => None
        end
      else
        '(str, r) ← parseStringBody rest;
        Some (c :: str, r)
  end.

(** A literal name ([null], [true], [false]) at the head of the text. *)
Definition parseLiteral (s : jsstring) : option (JValue * jsstring) :=
  if startsWith s (u "null") then Some (JNull, drop 4 s)
  else if startsWith s (u "true") then Some (JBool true, drop 4 s)
  else if startsWith s (u "false") then Some (JBool false, drop 5 s)
  else None.

(** Values, the elements of an array after its bracket and the members of
    an object after its brace. [fuel] bounds the nesting; a call takes one
    unit and reads at least one character before the next of its kind. *)
Fixpoint parseValue (fuel : nat) (s : jsstring) : option (JValue * jsstring) :=
  match fuel with
  | O => None
  | S fuel =>
      match skipWs s with
      | [] => None
      | c :: rest =>
          if N.eqb c 34 then
            '(str, r) ← parseStringBody rest; Some (JString str, r)
          else if N.eqb c LBRACKET then
            match skipWs rest with
            | d :: r => if N.eqb d RBRACKET then Some (JArray [], r)
                        else '(vs, r') ← parseElements fuel rest; Some (JArray vs, r')
            | [] => None
            end
          else if N.eqb c LBRACE then
            match skipWs rest with
            | d :: r => if N.eqb d RBRACE then Some (JObject [], r)
                        else '(ms, r') ← parseMembers fuel rest; Some (JObject ms, r')
            | [] => None
            end
          else if N.eqb c 45 || isDigit c then
            '(lex, r) ← parseNumber (c :: rest); Some (JNumber lex, r)
          else parseLiteral (c :: rest)
      end
  end
with parseElements (fuel : nat) (s : jsstring) : option (list JValue * jsstring) :=
  match fuel with
  | O => None
  | S fuel =>
      '(v, r) ← parseValue fuel s;
      match skipWs r with
      | c :: r' =>
          if N.eqb c 44 then '(vs, r'') ← parseElements fuel r'; Some (v :: vs, r'')
          else if N.eqb c RBRACKET then Some ([v], r')
          else None
      | [] => None
      end
  end
with parseMembers (fuel : nat) (s : jsstring) : option (list (jsstring * JValue) * jsstring) :=
  match fuel with
  | O => None
  | S fuel =>
      match skipWs s with
      | q :: r0 =>
          if N.eqb q 34 then
            '(key, r1) ← parseStringBody r0;
            match skipWs r1 with
            | colon :: r2 =>
                if N.eqb colon 58 then
                  '(v, r3) ← parseValue fuel r2;
                  match skipWs r3 with
                  | c :: r4 =>
                      if N.eqb c 44 then
                        '(ms, r5) ← parseMembers fuel r4; Some ((key, v) :: ms, r5)
                      else if N.eqb c RBRACE then Some ([(key, v)], r4)
                      else None
                  | [] => None
                  end
                else None
            | [] => None
            end
          else None
      | [] => None
      end
  end.

(** [JSON.parse(text)]: one value, with nothing but whitespace around it;
    [None] where the builtin throws a SyntaxError. *)
Definition JSON_parse (text : jsstring) : option JValue :=
  '(v, r) ← parseValue (2 * length text + 2) text;
  match skipWs r with
  | [] => Some v
  | _ :: _ => None
  end.

(** A successful parse reads at least one character, and succeeds with the
    same result on any fuel of at least twice the characters it read. *)
Definition Enough {A} (p : nat → jsstring → option (A * jsstring)) (n : nat) : Prop :=
  ∀ s a r, p n s = Some (a, r) →
    length r < length s ∧
    ∀ m, 2 * (length s - length r) ≤ m → p m s = Some (a, r).

End Json.
Export Json.

(** ** The JSON-stream extractor ([parseJsonStream], index.tsx 196-229) *)

Module Extractor.

(** A chunk of the response stream; [text] is [None] when [chunk.text] is
    not a string. *)
Record Chunk := { text : option jsstring }.

Section Extractor.
Context {J : Type}.
(** [JSON.parse]: [None] where it throws. *)
Variable parse : jsstring → option J.

(** The two [if]s on [buffer[i]] in the body of the [for] loop. *)
Definition countBrace (c : N) (braceCount : Z) : Z :=
  if N.eqb c LBRACE then (braceCount + 1)%Z
  else if N.eqb c RBRACE then (braceCount - 1)%Z
  else braceCount.

(** The [for (let i = start; i < buffer.length; i++)] loop, on the part of
    the buffer from [i] on. *)
Fixpoint scanEnd (rest : jsstring) (i start : nat) (braceCount : Z) : option nat :=
  match rest with
  | [] => None
  | c :: rest' =>
      let braceCount := countBrace c braceCount in
      if Z.eqb braceCount 0 && Nat.ltb start i then Some i
      else scanEnd rest' (S i) start braceCount
  end.

Definition findEnd (buffer : jsstring) (start : nat) : option nat :=
  scanEnd (drop start buffer) start start 0%Z.

(** The [while (start !== -1)] loop: the buffer it leaves and the values it
    yields, in order. [None] only when [fuel] runs out. *)
Fixpoint scanLoop (fuel : nat) (buffer : jsstring) (start : option nat)
  : option (jsstring * list J) :=
  match fuel with
  | O => None
  | S fuel =>
      match start with
      | None => Some (buffer, [])
      | Some st =>
          match findEnd buffer st with
          | None => Some (buffer, [])
          | Some e =>
              match parse (substring buffer st (e + 1)) with
              | Some v =>
                  let buffer' := substringFrom buffer (e + 1) in
                  '(b, vs) ← scanLoop fuel buffer' (indexOf LBRACE buffer' 0);
                  Some (b, v :: vs)
              | None => scanLoop fuel buffer (indexOf LBRACE buffer (st + 1))
              end
          end
      end
  end.

(** The body of [for await (const chunk of responseStream)]. *)
Definition onChunk (buffer : jsstring) (chunk : Chunk) : option (jsstring * list J) :=
  match text chunk with
  | None => Some (buffer, [])
  | Some t =>
      let buffer := buffer ++ t in
      scanLoop (S (length buffer)) buffer (indexOf LBRACE buffer 0)
  end.

(** The generator run on a finite stream: what it yields while each chunk
    is being processed. *)
Fixpoint runStream (buffer : jsstring) (stream : list Chunk) : option (list (list J)) :=
  match stream with
  | [] => Some []
  | chunk :: stream' =>
      '(buffer', vs) ← onChunk buffer chunk;
      rest ← runStream buffer' stream';
      Some (vs :: rest)
  end.

Definition parseJsonStream (stream : list Chunk) : option (list J) :=
  @concat J <$> runStream [] stream.

(** The [while] loop as a relation: [Loop b start r o] when the loop entered
    with buffer [b] and [start] leaves buffer [r] having yielded [o]. *)
Inductive Loop : jsstring → option nat → jsstring → list J → Prop :=
| Loop_done b : Loop b None b []
| Loop_break b st :
    findEnd b st = None → Loop b (Some st) b []
| Loop_emit b st e v r o :
    findEnd b st = Some e →
    parse (substring b st (e + 1)) = Some v →
    Loop (drop (e + 1) b) (indexOf LBRACE (drop (e + 1) b) 0) r o →
    Loop b (Some st) r (v :: o)
| Loop_skip b st e r o :
    findEnd b st = Some e →
    parse (substring b st (e + 1)) = None →
    Loop b (indexOf LBRACE b (st + 1)) r o →
    Loop b (Some st) r o.

(** What the loop still has to look at. *)
Definition measure (b : jsstring) (st : option nat) : nat :=
  match st with None => 0 | Some s => length b - s end.

(** Every opening brace of [b] before [from] closes inside [b] and fails to
    parse: the loop steps over it whatever follows [b]. *)
Definition Failed (b : jsstring) (from : nat) : Prop :=
  ∀ p, p < from → b !! p = Some LBRACE →
    ∃ e, findEnd b p = Some e ∧ parse (substring b p (e + 1)) = None.

(** [Emits T r o]: read as one chunk, the text [T] yields [o] and leaves the
    buffer [r]. *)
Definition Emits (T r : jsstring) (o : list J) : Prop :=
  Loop T (indexOf LBRACE T 0) r o.

End Extractor.

(** The text a stream carries. *)
Definition streamText (stream : list Chunk) : jsstring :=
  concat ((λ c, default [] (text c)) <$> stream).

(** A stream of string chunks. *)
Definition chunks (ts : list jsstring) : list Chunk := (λ t, {| text := Some t |}) <$> ts.

End Extractor.
Export Extractor.

(** ** Sessions, artifacts and the application state (index.tsx 36-66) *)

Module Store.

Inductive Status := streaming | complete | error.

(** [styleName] holds whatever the naming call's array held at the
    artifact's index: any JSON value, or [None] for [undefined]. *)
Module Artifact.
Record t := mk { id : jsstring; styleName : option JValue; html : jsstring; status : Status }.
End Artifact.

Module Session.
Record t := mk { id : jsstring; prompt : jsstring; timestamp : Z; artifacts : list Artifact.t }.
End Session.

(** [interface AppState]: the unit of undo and redo. *)
Module AppState.
Record t := mk { sessions : list Session.t; currentSessionIndex : Z }.
End AppState.

Record History := { past : list AppState.t; future : list AppState.t }.

(** The component's state: the [useState] cells the handlers below read and
    set. *)
Record App := {
  sessions : list Session.t;
  currentSessionIndex : Z;
  history : History;
  focusedArtifactIndex : option nat;
  inputValue : jsstring;
  isLoading : bool
}.

(** [arr[i]] for a number [i] that may be [-1]. *)
Definition nthZ {A} (l : list A) (i : Z) : option A :=
  if (i <? 0)%Z then None else l !! Z.to_nat i.

Definition setSessions (f : list Session.t → list Session.t) (st : App) : App :=
  {| sessions := f (sessions st); currentSessionIndex := currentSessionIndex st;
     history := history st; focusedArtifactIndex := focusedArtifactIndex st;
     inputValue := inputValue st; isLoading := isLoading st |}.

Definition setCurrentSessionIndex (f : Z → Z) (st : App) : App :=
  {| sessions := sessions st; currentSessionIndex := f (currentSessionIndex st);
     history := history st; focusedArtifactIndex := focusedArtifactIndex st;
     inputValue := inputValue st; isLoading := isLoading st |}.

Definition setHistory (f : History → History) (st : App) : App :=
  {| sessions := sessions st; currentSessionIndex := currentSessionIndex st;
     history := f (history st); focusedArtifactIndex := focusedArtifactIndex st;
     inputValue := inputValue st; isLoading := isLoading st |}.

Definition setFocusedArtifactIndex (x : option nat) (st : App) : App :=
  {| sessions := sessions st; currentSessionIndex := currentSessionIndex st;
     history := history st; focusedArtifactIndex := x;
     inputValue := inputValue st; isLoading := isLoading st |}.

Definition setInputValue (x : jsstring) (st : App) : App :=
  {| sessions := sessions st; currentSessionIndex := currentSessionIndex st;
     history := history st; focusedArtifactIndex := focusedArtifactIndex st;
     inputValue := x; isLoading := isLoading st |}.

Definition setIsLoading (x : bool) (st : App) : App :=
  {| sessions := sessions st; currentSessionIndex := currentSessionIndex st;
     history := history st; focusedArtifactIndex := focusedArtifactIndex st;
     inputValue := inputValue st; isLoading := x |}.

(** [{ sessions, currentSessionIndex }] of the current render. *)
Definition snapshot (st : App) : AppState.t :=
  AppState.mk (sessions st) (currentSessionIndex st).

(** *** The history log (index.tsx 162-193) *)

Definition pushToHistory (st : App) : App :=
  setHistory (λ prev, {| past := past prev ++ [snapshot st]; future := [] |}) st.

Definition handleUndo (st : App) : App :=
  match list.last (past (history st)) with
  | None => st                                   (* history.past.length === 0 *)
  | Some previous =>
      let newPast := take (length (past (history st)) - 1) (past (history st)) in
      setCurrentSessionIndex (λ _, AppState.currentSessionIndex previous)
        (setSessions (λ _, AppState.sessions previous)
           (setHistory (λ _, {| past := newPast;
                                future := snapshot st :: future (history st) |}) st))
  end.

Definition handleRedo (st : App) : App :=
  match future (history st) with
  | [] => st                                     (* history.future.length === 0 *)
  | next :: newFuture =>
      setCurrentSessionIndex (λ _, AppState.currentSessionIndex next)
        (setSessions (λ _, AppState.sessions next)
           (setHistory (λ _, {| past := past (history st) ++ [snapshot st];
                                future := newFuture |}) st))
  end.

(** *** Updates of the session list *)

Definition withArtifacts (sess : Session.t) (arts : list Artifact.t) : Session.t :=
  Session.mk (Session.id sess) (Session.prompt sess) (Session.timestamp sess) arts.

Definition withHtml (art : Artifact.t) (html : jsstring) : Artifact.t :=
  Artifact.mk (Artifact.id art) (Artifact.styleName art) html (Artifact.status art).

Definition withHtmlStatus (art : Artifact.t) (html : jsstring) (s : Status) : Artifact.t :=
  Artifact.mk (Artifact.id art) (Artifact.styleName art) html s.

Definition withStyleName (art : Artifact.t) (name : option JValue) : Artifact.t :=
  Artifact.mk (Artifact.id art) name (Artifact.html art) (Artifact.status art).

(** [prev.map(sess => sess.id === sessionId ? {...sess, artifacts:
    sess.artifacts.map(art => art.id === artifactId ? f(art) : art)} : sess)]
    (index.tsx 564-571, 580-587, 591-598). *)
Definition updateArtifact (sessionId artifactId : jsstring)
    (f : Artifact.t → Artifact.t) (prev : list Session.t) : list Session.t :=
  (λ sess,
     if decide (Session.id sess = sessionId) then
       withArtifacts sess
         ((λ art, if decide (Artifact.id art = artifactId) then f art else art)
            <$> Session.artifacts sess)
     else sess) <$> prev.

(** [prev.map((sess, i) => i === currentSessionIndex ? {...sess, artifacts:
    sess.artifacts.map((art, j) => j === focusedArtifactIndex ? f(art) : art)}
    : sess)] (index.tsx 289-296, 429-436). *)
Definition updateFocused (currentSessionIndex : Z) (focusedArtifactIndex : nat)
    (f : Artifact.t → Artifact.t) (prev : list Session.t) : list Session.t :=
  imap (λ i sess,
     if decide (Z.of_nat i = currentSessionIndex) then
       withArtifacts sess
         (imap (λ j art, if decide (j = focusedArtifactIndex) then f art else art)
            (Session.artifacts sess))
     else sess) prev.

(** The style names written into the session's artifacts (index.tsx
    525-534). *)
Definition setStyleNames (sessionId : jsstring) (generatedStyles : list JValue)
    (prev : list Session.t) : list Session.t :=
  (λ s,
     if decide (Session.id s ≠ sessionId) then s
     else withArtifacts s
            (imap (λ i art, withStyleName art (generatedStyles !! i))
               (Session.artifacts s))) <$> prev.

(** *** Submitting a prompt (index.tsx 446-475) *)

(** The decimal digit [i] of [`${sessionId}_${i}`], for [i < 10]. *)
Definition digit (i : nat) : jsstring := [(48 + N.of_nat i)%N].

Definition placeholderArtifacts (sessionId : jsstring) : list Artifact.t :=
  imap (λ i (_ : unit),
          Artifact.mk (sessionId ++ u "_" ++ digit i)
                      (Some (JString (u "Analyzing request...")))
                      [] streaming)
       (replicate 3 tt).

Definition newSession (sessionId trimmedInput : jsstring) (baseTime : Z) : Session.t :=
  Session.mk sessionId trimmedInput baseTime (placeholderArtifacts sessionId).

(** [manualPrompt || inputValue]. *)
Definition promptToUse (manualPrompt : option jsstring) (st : App) : jsstring :=
  match manualPrompt with
  | Some (c :: p) => c :: p
  | _ => inputValue st
  end.

(** The handler up to its first [await]; [baseTime] is [Date.now()] and
    [sessionId] is [generateId()]. *)
Definition handleSendMessage (manualPrompt : option jsstring)
    (baseTime : Z) (sessionId : jsstring) (st : App) : App :=
  let trimmedInput := trim (promptToUse manualPrompt st) in
  if bool_decide (trimmedInput = []) || isLoading st then st
  else
    let st1 := match manualPrompt with
               | Some (_ :: _) => st
               | _ => setInputValue [] st
               end in
    let st2 := setIsLoading true (pushToHistory st1) in
    setFocusedArtifactIndex None
      (setCurrentSessionIndex (λ prev, (prev + 1)%Z)
         (setSessions (λ prev, prev ++ [newSession sessionId trimmedInput baseTime]) st2)).

(** *** Variations, images, navigation (index.tsx 286-298, 372-444, 628-648) *)

Definition applyVariation (html : jsstring) (st : App) : App :=
  let st1 := pushToHistory st in
  match focusedArtifactIndex st with
  | None => st1
  | Some focused =>
      setSessions
        (updateFocused (currentSessionIndex st) focused
           (λ art, withHtmlStatus art html complete)) st1
  end.

(** [handleGenerateImages] up to its first [await]. *)
Definition handleGenerateImages (st : App) : App :=
  match nthZ (sessions st) (currentSessionIndex st), focusedArtifactIndex st with
  | Some _, Some _ => setIsLoading true (pushToHistory st)
  | _, _ => st
  end.

(** The update after the images arrived; the two indices are the ones of
    the render in which the handler started. *)
Definition imagesGenerated (currentSessionIndex : Z) (focusedArtifactIndex : nat)
    (newHtml : jsstring) (st : App) : App :=
  setSessions
    (updateFocused currentSessionIndex focusedArtifactIndex (λ art, withHtml art newHtml)) st.

Definition nextItem (st : App) : App :=
  match focusedArtifactIndex st with
  | Some focused =>
      if focused <? 2 then setFocusedArtifactIndex (Some (focused + 1)) st else st
  | None =>
      if (currentSessionIndex st <? Z.of_nat (length (sessions st)) - 1)%Z then
        setCurrentSessionIndex (λ _, (currentSessionIndex st + 1)%Z) (pushToHistory st)
      else st
  end.

Definition prevItem (st : App) : App :=
  match focusedArtifactIndex st with
  | Some focused =>
      if 0 <? focused then setFocusedArtifactIndex (Some (focused - 1)) st else st
  | None =>
      if (0 <? currentSessionIndex st)%Z then
        setCurrentSessionIndex (λ _, (currentSessionIndex st - 1)%Z) (pushToHistory st)
      else st
  end.

End Store.
Export Store.

(** ** Style names from the naming response (index.tsx 503-523) *)

Module Styles.

(** [styleText.match(/\[[\s\S]*\]/)]: from the first opening bracket to the
    last closing bracket after it ([*] is greedy and [[\s\S]] matches every
    code unit); [None] when there is no such pair. *)
Definition matchBracketed (styleText : jsstring) : option jsstring :=
  i ← indexOf LBRACKET styleText 0;
  j ← lastIndexOf RBRACKET styleText;
  if i <? j then Some (substring styleText i (j + 1)) else None.

Definition fallbackStyles : list JValue :=
  [ JString (u "Primary Pigment Gridwork");
    JString (u "Tactile Risograph Layering");
    JString (u "Kinetic Silhouette Balance") ].

(** [styleResponse.text || '[]']: [responseText] is [None] when the response
    has no text. *)
Definition styleText (responseText : option jsstring) : jsstring :=
  match responseText with
  | Some (c :: t) => c :: t
  | _ => u "[]"
  end.

(** [generatedStyles] after the [try]: what [JSON.parse] returned, or the
    initial [[]] when nothing matched or the parse threw. The matched text
    starts with a bracket, so a value parsed from it is an array (lemma
    [matchBracketed_parses_array]); the last case is never taken. *)
Definition parsedStyles (responseText : option jsstring) : list JValue :=
  match matchBracketed (styleText responseText) with
  | Some jsonMatch =>
      match JSON_parse jsonMatch with
      | Some (JArray generatedStyles) => generatedStyles
      | None => []
      | Some _ => []
      end
  | None => []
  end.

(** [generatedStyles] as the artifacts receive it. *)
Definition extractStyles (responseText : option jsstring) : list JValue :=
  let generatedStyles := parsedStyles responseText in
  let generatedStyles :=
    if length generatedStyles <? 3 then fallbackStyles else generatedStyles in
  take 3 generatedStyles.

End Styles.
Export Styles.

(** ** One artifact's generation ([generateArtifact], index.tsx 536-600) *)

Module Pipeline.

(** The three fence-stripping steps after the stream ended (575-578). *)
Definition finalizeHtml (accumulatedHtml : jsstring) : jsstring :=
  let finalHtml := trim accumulatedHtml in
  let finalHtml :=
    if startsWith finalHtml (u "```html") then trimStart (substringFrom finalHtml 7)
    else finalHtml in
  let finalHtml :=
    if startsWith finalHtml (u "```") then trimStart (substringFrom finalHtml 3)
    else finalHtml in
  let finalHtml :=
    if endsWith finalHtml (u "```") then trimEnd (substring finalHtml 0 (length finalHtml - 3))
    else finalHtml in
  finalHtml.

(** [finalHtml ? 'complete' : 'error']. *)
Definition finalStatus (finalHtml : jsstring) : Status :=
  match finalHtml with [] => error | _ :: _ => complete end.

(** The inline message of the [catch]; [message] is [e.message] as the
    template literal prints it. *)
Definition errorHtml (message : jsstring) : jsstring :=
  uq "<div style='color: #ff6b6b; padding: 20px;'>Error: " ++ message ++ u "</div>".

(** How one body stream goes: its chunks, and then it ends or throws.
    [message] is [e.message] as the template literal of the [catch] prints
    it; it is [None] when reading or printing it raises, as reading it from
    a thrown [null] or [undefined] does (a TypeError). *)
Inductive Ending := Ends | Throws (message : option jsstring).
Record TaskRun := { received : list Chunk; ending : Ending }.

(** A [setSessions] call of [generateArtifact] whose updater returns, as
    data. *)
Inductive Write :=
| WriteHtml (sessionId artifactId accumulatedHtml : jsstring)
| WriteFinal (sessionId artifactId finalHtml : jsstring)
| WriteError (sessionId artifactId message : jsstring).

Definition applyWrite (w : Write) (prev : list Session.t) : list Session.t :=
  match w with
  | WriteHtml sessionId artifactId accumulatedHtml =>
      updateArtifact sessionId artifactId (λ art, withHtml art accumulatedHtml) prev
  | WriteFinal sessionId artifactId finalHtml =>
      updateArtifact sessionId artifactId
        (λ art, withHtmlStatus art finalHtml (finalStatus finalHtml)) prev
  | WriteError sessionId artifactId message =>
      updateArtifact sessionId artifactId
        (λ art, withHtmlStatus art (errorHtml message) error) prev
  end.

(** The update of [updateArtifact] with a callback that may raise: the
    updater raises when the callback does on an artifact it reaches, and
    there is then no state to render ([None]). *)
Definition updateArtifactE (sessionId artifactId : jsstring)
    (f : Artifact.t → option Artifact.t) (prev : list Session.t)
  : option (list Session.t) :=
  mapM (λ sess,
          if decide (Session.id sess = sessionId) then
            arts ← mapM (λ art, if decide (Artifact.id art = artifactId) then f art
                                else Some art)
                        (Session.artifacts sess);
            Some (withArtifacts sess arts)
          else Some sess) prev.

(** What a [setSessions] call of [generateArtifact] does: its updater
    returns, or it is the updater of the [catch] (591-598) and the thrown
    value has no message to read, so that the template literal raises on
    the artifact named. *)
Inductive Effect :=
| Lands (w : Write)
| Raises (sessionId artifactId : jsstring).

Definition applyEffect (e : Effect) (prev : list Session.t) : option (list Session.t) :=
  match e with
  | Lands w => Some (applyWrite w prev)
  | Raises sessionId artifactId => updateArtifactE sessionId artifactId (λ _, None) prev
  end.

(** The effects of a trace, applied in order as long as none raises. *)
Definition applyEffects (trace : list Effect) (prev : list Session.t)
  : option (list Session.t) :=
  foldl (λ acc e, acc ≫= applyEffect e) (Some prev) trace.

(** The [for await] loop: a write per chunk whose text is a string, with the
    text accumulated so far; the result is the writes and the final
    accumulation. *)
Fixpoint streamWrites (sessionId artifactId accumulatedHtml : jsstring)
    (received : list Chunk) : list Write * jsstring :=
  match received with
  | [] => ([], accumulatedHtml)
  | chunk :: received' =>
      match text chunk with
      | Some t =>
          let accumulatedHtml := accumulatedHtml ++ t in
          let '(ws, final) := streamWrites sessionId artifactId accumulatedHtml received' in
          (WriteHtml sessionId artifactId accumulatedHtml :: ws, final)
      | None => streamWrites sessionId artifactId accumulatedHtml received'
      end
  end.

(** All the [setSessions] calls of one call of [generateArtifact], in
    order. *)
Definition taskEffects (sessionId artifactId : jsstring) (run : TaskRun) : list Effect :=
  let '(ws, accumulatedHtml) := streamWrites sessionId artifactId [] (received run) in
  (Lands <$> ws)
  ++ [match ending run with
      | Ends => Lands (WriteFinal sessionId artifactId (finalizeHtml accumulatedHtml))
      | Throws (Some message) => Lands (WriteError sessionId artifactId message)
      | Throws None => Raises sessionId artifactId
      end].

(** [Promise.all(placeholderArtifacts.map((art, i) => generateArtifact(art,
    generatedStyles[i])))] (602): the effects of each of the tasks started
    together, [runs] telling how the stream of each goes. *)
Definition generationEffects (sessionId : jsstring) (runs : list TaskRun)
  : list (list Effect) :=
  zip_with (λ art run, taskEffects sessionId (Artifact.id art) run)
           (placeholderArtifacts sessionId) runs.

(** The writes among them. *)
Definition landed (e : Effect) : option Write :=
  match e with
  | Lands w => Some w
  | Raises _ _ => None
  end.

Definition taskWrites (sessionId artifactId : jsstring) (run : TaskRun) : list Write :=
  omap landed (taskEffects sessionId artifactId run).

Definition generationWrites (sessionId : jsstring) (runs : list TaskRun) : list (list Write) :=
  zip_with (λ art run, taskWrites sessionId (Artifact.id art) run)
           (placeholderArtifacts sessionId) runs.

(** The writes of a trace, applied in order. *)
Definition applyWrites (trace : list Write) (prev : list Session.t) : list Session.t :=
  foldl (λ ss w, applyWrite w ss) prev trace.

(** The session, the artifact and the change a write names. *)
Definition wSession (w : Write) : jsstring :=
  match w with WriteHtml s _ _ | WriteFinal s _ _ | WriteError s _ _ => s end.

Definition wArtifact (w : Write) : jsstring :=
  match w with WriteHtml _ a _ | WriteFinal _ a _ | WriteError _ a _ => a end.

Definition wPatch (w : Write) (art : Artifact.t) : Artifact.t :=
  match w with
  | WriteHtml _ _ accumulatedHtml => withHtml art accumulatedHtml
  | WriteFinal _ _ finalHtml => withHtmlStatus art finalHtml (finalStatus finalHtml)
  | WriteError _ _ message => withHtmlStatus art (errorHtml message) error
  end.

(** What a run leaves in its artifact, the html and the status; nothing
    when the updater of its [catch] raises. *)
Definition outcome (run : TaskRun) : option (jsstring * Status) :=
  match ending run with
  | Ends =>
      let finalHtml := finalizeHtml (streamText (received run)) in
      Some (finalHtml, finalStatus finalHtml)
  | Throws (Some message) => Some (errorHtml message, error)
  | Throws None => None
  end.

Definition finish (art : Artifact.t) (run : TaskRun) : option Artifact.t :=
  '(html, status) ← outcome run;
  Some (Artifact.mk (Artifact.id art) (Artifact.styleName art) html status).

(** The artifacts of a session after the tasks, one run for each. *)
Definition finishAll (arts : list Artifact.t) (runs : list TaskRun)
  : option (list Artifact.t) :=
  mapM (λ p, finish p.1 p.2) (zip arts runs).

(** One artifact, and one session, after the writes of a trace. *)
Definition artifactAfter (trace : list Write) (sessionId : jsstring) (art : Artifact.t)
  : Artifact.t :=
  foldl (λ art w,
           if decide (sessionId = wSession w) then
             if decide (Artifact.id art = wArtifact w) then wPatch w art else art
           else art)
        art trace.

Definition sessionAfter (trace : list Write) (sess : Session.t) : Session.t :=
  withArtifacts sess (artifactAfter trace (Session.id sess) <$> Session.artifacts sess).

(** The interleavings of concurrent tasks: [Merge queues trace] when [trace]
    takes, at each step, the next write of some task that has one left, until
    none has. *)
Inductive Merge {A : Type} : list (list A) → list A → Prop :=
| Merge_done queues : Forall (λ q, q = []) queues → Merge queues []
| Merge_step i x q queues trace :
    queues !! i = Some (x :: q) →
    Merge (<[i := q]> queues) trace →
    Merge queues (x :: trace).

End Pipeline.
Export Pipeline.

(** ** The transitions of the application *)

Module Transitions.

Inductive Action :=
| ASend (manualPrompt : option jsstring) (baseTime : Z) (sessionId : jsstring)
| AStyleNames (sessionId : jsstring) (generatedStyles : list JValue)
| AWrite (w : Write)
| AGenerationDone
| AApplyVariation (html : jsstring)
| AGenerateImages
| AImagesGenerated (currentSessionIndex : Z) (focusedArtifactIndex : nat) (newHtml : jsstring)
| AFocus (i : option nat)
| ANext
| APrev
| AUndo
| ARedo.

Definition step (a : Action) (st : App) : App :=
  match a with
  | ASend manualPrompt baseTime sessionId => handleSendMessage manualPrompt baseTime sessionId st
  | AStyleNames sessionId generatedStyles => setSessions (setStyleNames sessionId generatedStyles) st
  | AWrite w => setSessions (applyWrite w) st
  | AGenerationDone => setIsLoading false st
  | AApplyVariation html => applyVariation html st
  | AGenerateImages => handleGenerateImages st
  | AImagesGenerated i j newHtml => imagesGenerated i j newHtml st
  | AFocus i => setFocusedArtifactIndex i st
  | ANext => nextItem st
  | APrev => prevItem st
  | AUndo => handleUndo st
  | ARedo => handleRedo st
  end.

Definition run (actions : list Action) (st : App) : App :=
  foldl (λ st a, step a st) st actions.

(** The state of a fresh page with nothing stored. *)
Definition initialApp : App :=
  {| sessions := []; currentSessionIndex := -1;
     history := {| past := []; future := [] |};
     focusedArtifactIndex := None; inputValue := []; isLoading := false |}.

(** [P] holds of the live state and of every snapshot of the log. *)
Definition Everywhere (P : AppState.t → Prop) (st : App) : Prop :=
  P (snapshot st) ∧ Forall P (past (history st)) ∧ Forall P (future (history st)).

(** Every session has exactly three artifacts. *)
Definition ThreeArtifacts (a : AppState.t) : Prop :=
  Forall (λ s, length (Session.artifacts s) = 3) (AppState.sessions a).

(** [currentSessionIndex] is [-1] or an index into [sessions]. *)
Definition ValidIndex (a : AppState.t) : Prop :=
  (-1 ≤ AppState.currentSessionIndex a < Z.of_nat (length (AppState.sessions a)))%Z.

(** The undo/redo log read as one sequence of states with a cursor: the
    past, the live state, the future. *)
Definition timeline (st : App) : list AppState.t :=
  past (history st) ++ snapshot st :: future (history st).

(** The live state replaced by [a]: what an action does after it recorded. *)
Definition setLive (a : AppState.t) (st : App) : App :=
  setCurrentSessionIndex (λ _, AppState.currentSessionIndex a)
    (setSessions (λ _, AppState.sessions a) st).

(** A sequence of actions, each recording the state it starts from. *)
Definition recordAll (actions : list AppState.t) (st : App) : App :=
  foldl (λ st a, setLive a (pushToHistory st)) st actions.

(** A sequence of clicks on the undo and redo buttons. *)
Inductive HistoryOp := OpUndo | OpRedo.

Definition replay (ops : list HistoryOp) (st : App) : App :=
  foldl (λ st op, match op with OpUndo => handleUndo st | OpRedo => handleRedo st end)
        st ops.

(** The number of artifacts of each session. *)
Definition artifactCounts (ss : list Session.t) : list nat :=
  (λ s, length (Session.artifacts s)) <$> ss.

End Transitions.
Export Transitions.

(** ** Export ([wrapHtml] of the utilities module, [handleDownloadArtifact],
       index.tsx 308-328) *)

Module ExportService.

Definition DOCTYPE : jsstring := u "<!DOCTYPE html>".

(** The template of [wrapHtml] before [${title}], between [${title}] and
    [${html}], and after [${html}]. *)
Definition templateHead : jsstring :=
  unlines [
    u "<!DOCTYPE html>";
    uq "<html lang='en'>";
    u "<head>";
    uq "    <meta charset='UTF-8'>";
    uq "    <meta name='viewport' content='width=device-width, initial-scale=1.0'>";
    u "    <title>" ].

Definition templateMiddle : jsstring :=
  unlines [
    u "</title>";
    u "    <style>";
    uq "        body { margin: 0; padding: 0; box-sizing: border-box; font-family: -apple-system, BlinkMacSystemFont, 'Segoe UI', Roboto, Helvetica, Arial, sans-serif; background: #09090b; color: #fff; min-height: 100vh; display: flex; align-items: center; justify-content: center; }";
    u "        * { box-sizing: inherit; }";
    u "        /* Reset for the container to ensure it takes space if needed */";
    u "        body > div { width: 100%; height: 100%; display: flex; align-items: center; justify-content: center; }";
    u "    </style>";
    u "</head>";
    u "<body>";
    u "    " ].

Definition templateTail : jsstring :=
  unlines [ []; u "</body>"; u "</html>" ].

Definition wrapHtml (html title : jsstring) : jsstring :=
  if includes html DOCTYPE then html
  else templateHead ++ title ++ templateMiddle ++ html ++ templateTail.

(** What a click on the download button does. *)
Inductive Download :=
| NoDownload                                   (* the early [return] *)
| TypeError                                    (* [styleName.replace] of a non-string *)
| Saved (filename content : jsstring).

Definition handleDownloadArtifact (st : App) : Download :=
  match nthZ (sessions st) (currentSessionIndex st), focusedArtifactIndex st with
  | Some currentSession, Some focused =>
      match Session.artifacts currentSession !! focused with
      | Some artifact =>
          match Artifact.styleName artifact with
          | Some (JString styleName) =>
              let safePrompt :=
                substring (toLowerCase (replaceNonAlnum (Session.prompt currentSession))) 0 30 in
              let safeStyle := toLowerCase (replaceNonAlnum styleName) in
              let fullHtml := wrapHtml (Artifact.html artifact) (safePrompt ++ u " - " ++ safeStyle) in
              Saved (u "flash-" ++ safePrompt ++ u "-" ++ safeStyle ++ u ".html") fullHtml
          | _ => TypeError
          end
      | None => TypeError                      (* [artifact] is [undefined] *)
      end
  | _, _ => NoDownload
  end.

End ExportService.
Export ExportService.

(** ** Texts of framed objects (for [parseJsonStream], index.tsx 196-229) *)

Module Framing.

(** The text made of pieces, each a separator and then an object text, and
    of what follows the last piece. *)
Fixpoint framed (items : list (jsstring * jsstring)) (tail : jsstring) : jsstring :=
  match items with
  | [] => tail
  | (sep, o) :: items' => sep ++ o ++ framed items' tail
  end.

(** [o] opens with a brace, and the scanner's count, started on it, is back
    at zero at the last code unit of [o] and not before. *)
Definition closesAtEnd (o : jsstring) : bool :=
  bool_decide (o !! 0 = Some LBRACE) && bool_decide (findEnd o 0 = Some (length o - 1)).

(** [o] opens with a brace and ends with a closing one. *)
Definition braced (o : jsstring) : bool :=
  bool_decide (o !! 0 = Some LBRACE) && bool_decide (list.last o = Some RBRACE).

End Framing.
Export Framing.
(** ** Whitespace at the ends of a text (for [trim] and the fences of
       [generateArtifact], index.tsx 575-578) *)

Module Fences.

(** All of [w] is whitespace. *)
Definition Blank (w : jsstring) : Prop := Forall (λ c, isWhiteSpace c = true) w.

(** [s] does not start with whitespace; [s] does not end with whitespace. *)
Definition NoLead (s : jsstring) : Prop := ∀ c, s !! 0 = Some c → isWhiteSpace c = false.
Definition NoTrail (s : jsstring) : Prop := ∀ c, list.last s = Some c → isWhiteSpace c = false.

(** [r] is a run of consecutive code units of [s]. *)
Definition Piece (r s : jsstring) : Prop := ∃ a b : jsstring, s = a ++ r ++ b.

End Fences.
Export Fences.
(** ** File names of the downloads (index.tsx 313-314, 323) *)

Module FileNames.

(** A digit, a lower-case ASCII letter or a hyphen. *)
Definition isSlug (c : N) : bool :=
  (N.leb 48 c && N.leb c 57) || (N.leb 97 c && N.leb c 122) || N.eqb c 45.

End FileNames.
Export FileNames.
(** ** What the render derives from the state (index.tsx 650-666, 676-679,
       738-742, 825) *)

Module View.

(** [sessions.length > 0 || isLoading]. *)
Definition hasStarted (st : App) : bool :=
  (0 <? length (sessions st)) || isLoading st.

(** [sessions[currentSessionIndex]]. *)
Definition currentSession (st : App) : option Session.t :=
  nthZ (sessions st) (currentSessionIndex st).

(** [currentSession?.artifacts.length || 0]. *)
Definition artifactsLength (currentSession : option Session.t) : nat :=
  match currentSession with
  | Some s => length (Session.artifacts s)
  | None => 0
  end.

(** Whether the two navigation handles are rendered. *)
Definition canGoBack (st : App) : bool :=
  if hasStarted st then
    match focusedArtifactIndex st with
    | Some focused => 0 <? focused
    | None => (0 <? currentSessionIndex st)%Z
    end
  else false.

Definition canGoForward (st : App) : bool :=
  if hasStarted st then
    match focusedArtifactIndex st with
    | Some focused =>
        (Z.of_nat focused <? Z.of_nat (artifactsLength (currentSession st)) - 1)%Z
    | None => (currentSessionIndex st <? Z.of_nat (length (sessions st)) - 1)%Z
    end
  else false.

(** The [disabled] attributes of the undo, redo and send buttons. *)
Definition undoDisabled (st : App) : bool := bool_decide (past (history st) = []).
Definition redoDisabled (st : App) : bool := bool_decide (future (history st) = []).
Definition sendDisabled (st : App) : bool :=
  isLoading st || bool_decide (trim (inputValue st) = []).

(** The class of the session group at [sIndex]. *)
Inductive PositionClass := hidden | active_session | past_session | future_session.

Definition positionClass (sIndex : nat) (currentSessionIndex : Z) : PositionClass :=
  if (Z.of_nat sIndex =? currentSessionIndex)%Z then active_session
  else if (Z.of_nat sIndex <? currentSessionIndex)%Z then past_session
  else if (currentSessionIndex <? Z.of_nat sIndex)%Z then future_session
  else hidden.

End View.
Export View.

(** ** What stays of a session, and properties of the states reached *)

Module Shape.

(** What no update of a session changes: its id, prompt and timestamp and
    the ids of its artifacts. *)
Definition skeleton (s : Session.t) : jsstring * jsstring * Z * list jsstring :=
  (Session.id s, Session.prompt s, Session.timestamp s,
   Artifact.id <$> Session.artifacts s).

Definition shape (a : AppState.t) : list (jsstring * jsstring * Z * list jsstring) * Z :=
  (skeleton <$> AppState.sessions a, AppState.currentSessionIndex a).

(** There is no session and the index is [-1], or the index is the one of a
    session. *)
Definition Current (a : AppState.t) : Prop :=
  (AppState.sessions a = [] ∧ AppState.currentSessionIndex a = (-1)%Z)
  ∨ (0 ≤ AppState.currentSessionIndex a < Z.of_nat (length (AppState.sessions a)))%Z.

(** Every prompt is a text with no whitespace at its ends, and not empty. *)
Definition TrimmedPrompts (a : AppState.t) : Prop :=
  Forall (λ s, Session.prompt s ≠ [] ∧ trim (Session.prompt s) = Session.prompt s)
         (AppState.sessions a).

(** The artifacts of every session are named after the session: its id, an
    underscore and 0, 1, 2. *)
Definition PlaceholderIds (a : AppState.t) : Prop :=
  Forall (λ s, Artifact.id <$> Session.artifacts s
               = Artifact.id <$> placeholderArtifacts (Session.id s))
         (AppState.sessions a).

(** The transitions that record nothing in the history: what arrives from
    the model, the end of a generation, and the choice of the artifact in
    focus. *)
Definition quiet (a : Action) : bool :=
  match a with
  | AStyleNames _ _ | AWrite _ | AGenerationDone | AImagesGenerated _ _ _ | AFocus _ => true
  | _ => false
  end.

End Shape.
Export Shape.

(** ** What arrives for one generation *)

Module Arrivals.

(** The transitions of the generation started for [sessionId]: its style
    names, the writes of its three tasks, its end. *)
Definition forSession (sessionId : jsstring) (a : Action) : bool :=
  match a with
  | AStyleNames s _ => bool_decide (s = sessionId)
  | AWrite w => bool_decide (wSession w = sessionId)
  | AGenerationDone => true
  | _ => false
  end.

End Arrivals.
Export Arrivals.
(** ** The placeholder prompts (index.tsx 70-71, 118-156) *)

Module Placeholders.

(** The two cells: [placeholders] holds strings at first and then whatever
    the model's array held; [placeholderIndex] is [None] when it is [NaN]. *)
Record State := { placeholders : list JValue; placeholderIndex : option nat }.

(** [useState(INITIAL_PLACEHOLDERS)] and [useState(0)]; the constant is
    defined outside this file. *)
Definition initialState (INITIAL_PLACEHOLDERS : list jsstring) : State :=
  {| placeholders := JString <$> INITIAL_PLACEHOLDERS; placeholderIndex := Some 0 |}.

(** [setPlaceholderIndex(prev => (prev + 1) % placeholders.length)]: the
    remainder by zero is [NaN], and so is everything computed from it. *)
Definition tick (st : State) : State :=
  {| placeholders := placeholders st;
     placeholderIndex :=
       match placeholderIndex st with
       | Some prev =>
           if length (placeholders st) =? 0 then None
           else Some ((prev + 1) mod length (placeholders st))
       | None => None
       end |}.

(** How the request for more placeholders goes. *)
Inductive Reply :=
| NoApiKey                              (* the early [return] *)
| RequestFails                          (* [generateContent] throws *)
| ReplyText (text : option jsstring).   (* [response.text] *)

(** The array for which [setPlaceholders] is called: [None] when it is not
    called (no bracket match, a [JSON.parse] that throws, a value that is
    not a non-empty array). *)
Definition fetched (reply : Reply) : option (list JValue) :=
  match reply with
  | ReplyText text =>
      match matchBracketed (styleText text) with
      | Some jsonMatch =>
          match JSON_parse jsonMatch with
          | Some (JArray (x :: newPlaceholders)) => Some (x :: newPlaceholders)
          | _ => None
          end
      | None => None
      end
  | _ => None
  end.

(** [fetchDynamicPlaceholders]; [shuffle] is what
    [sort(() => 0.5 - Math.random())] does to the array this time. *)
Definition fetchDynamicPlaceholders (reply : Reply)
    (shuffle : list JValue → list JValue) (st : State) : State :=
  match fetched reply with
  | Some newPlaceholders =>
      {| placeholders := placeholders st ++ take 10 (shuffle newPlaceholders);
         placeholderIndex := placeholderIndex st |}
  | None => st
  end.

(** The timer and the one request, as events. *)
Inductive Event :=
| Tick
| Fetched (reply : Reply) (shuffle : list JValue → list JValue).

Definition handle (e : Event) (st : State) : State :=
  match e with
  | Tick => tick st
  | Fetched reply shuffle => fetchDynamicPlaceholders reply shuffle st
  end.

Definition runEvents (events : list Event) (st : State) : State :=
  foldl (λ st e, handle e st) st events.

(** [placeholders[placeholderIndex]]. *)
Definition currentPlaceholder (st : State) : option JValue :=
  placeholderIndex st ≫= λ i, placeholders st !! i.

End Placeholders.
Export Placeholders.
(** ** Variations of the artifact in focus ([handleGenerateVariations],
       index.tsx 231-284) *)

Module Variations.

Section Variations.
Context {J : Type}.
(** [JSON.parse], and the condition [variation.name && variation.html] on
    what it returned. *)
Variable parse : jsstring → option J.
Variable hasNameAndHtml : J → bool.

(** The handler run to its end, on the cells [isLoading] (in the state) and
    [componentVariations]; the drawer is not modelled. [apiKey] tells
    whether the key is configured and [run] how the response stream goes.
    With an artifact position beyond the artifacts the title of the drawer
    throws before the [try], after [isLoading] was set. *)
Definition handleGenerateVariations (apiKey : bool) (run : TaskRun) (st : App)
    (componentVariations : list J) : option (App * list J) :=
  match nthZ (sessions st) (currentSessionIndex st), focusedArtifactIndex st with
  | Some currentSession, Some focused =>
      match Session.artifacts currentSession !! focused with
      | Some currentArtifact =>
          if apiKey then
            variations ← parseJsonStream parse (received run);
            Some (setIsLoading false st, filter (λ v, hasNameAndHtml v = true) variations)
          else Some (setIsLoading false st, [])
      | None => Some (setIsLoading true st, [])
      end
  | _, _ => Some (st, componentVariations)
  end.

End Variations.

End Variations.
Export Variations.
(** ** The session archive ([handleExportSession], index.tsx 330-370) *)

Module Archive.

(** The files of a JSZip archive, by their paths, in the order in which the
    paths were first written; the directory entries are not modelled. *)
Definition Zip := list (jsstring * jsstring).

(** [zip.file(name, content)]: the file is added, or its content replaced. *)
Fixpoint file (name content : jsstring) (zip : Zip) : Zip :=
  match zip with
  | [] => [(name, content)]
  | (n, c) :: zip' =>
      if decide (n = name) then (n, content) :: zip'
      else (n, c) :: file name content zip'
  end.

(** The content of the file at a path. *)
Fixpoint entry (name : jsstring) (zip : Zip) : option jsstring :=
  match zip with
  | [] => None
  | (n, c) :: zip' => if decide (n = name) then Some c else entry name zip'
  end.

(** A number as a template literal prints it. *)
Fixpoint decimalDigits (d : Decimal.uint) : jsstring :=
  match d with
  | Decimal.Nil => []
  | Decimal.D0 d => 48%N :: decimalDigits d
  | Decimal.D1 d => 49%N :: decimalDigits d
  | Decimal.D2 d => 50%N :: decimalDigits d
  | Decimal.D3 d => 51%N :: decimalDigits d
  | Decimal.D4 d => 52%N :: decimalDigits d
  | Decimal.D5 d => 53%N :: decimalDigits d
  | Decimal.D6 d => 54%N :: decimalDigits d
  | Decimal.D7 d => 55%N :: decimalDigits d
  | Decimal.D8 d => 56%N :: decimalDigits d
  | Decimal.D9 d => 57%N :: decimalDigits d
  end.

Definition decimal (n : nat) : jsstring := decimalDigits (Nat.to_uint n).

(** [styleName.replace(/[^a-z0-9]/gi, '-').toLowerCase() ||
    `artifact-${index}`]. *)
Definition safeStyleOf (styleName : jsstring) (index : nat) : jsstring :=
  match toLowerCase (replaceNonAlnum styleName) with
  | [] => u "artifact-" ++ decimal index
  | c :: s => c :: s
  end.

(** The page written as [index.html]. *)
Definition indexHtml (html : jsstring) : jsstring :=
  uq "<!DOCTYPE html><html><head><link rel='stylesheet' href='style.css'></head><body>"
  ++ html ++ uq "<script src='script.js'></script></body></html>".

(** The path of a file of the folder of an artifact. *)
Definition inFolder (safeStyle name : jsstring) : jsstring :=
  u "artifacts/" ++ safeStyle ++ u "/" ++ name.

(** What a click on the archive button does. *)
Inductive ExportResult :=
| NoExport                                     (* the early [return] *)
| ExportTypeError                              (* a style name that is not a string *)
| Exported (filename : jsstring) (zip : Zip).

Section Archive.
(** [JSON.stringify(currentSession, null, 2)], and [extractHtmlCssJs] of the
    utilities module, which reads the page with the platform's parser:
    what it returns as [html], [css] and [js]. *)
Variable stringify : Session.t → jsstring.
Variable extractHtmlCssJs : jsstring → jsstring * jsstring * jsstring.

(** The body of the [forEach]; [None] is the TypeError of [replace] on a
    style name that is not a string. *)
Definition addArtifact (index : nat) (artifact : Artifact.t) (zip : Zip) : option Zip :=
  match Artifact.styleName artifact with
  | Some (JString styleName) =>
      let safeStyle := safeStyleOf styleName index in
      let '(html, css, js) := extractHtmlCssJs (Artifact.html artifact) in
      Some (file (inFolder safeStyle (u "standalone.html"))
                 (wrapHtml (Artifact.html artifact) safeStyle)
              (file (inFolder safeStyle (u "script.js")) js
                 (file (inFolder safeStyle (u "style.css")) css
                    (file (inFolder safeStyle (u "index.html")) (indexHtml html) zip))))
  | _ => None
  end.

(** The [forEach] over the artifacts from position [index] on. *)
Fixpoint addArtifacts (index : nat) (artifacts : list Artifact.t) (zip : Zip)
  : option Zip :=
  match artifacts with
  | [] => Some zip
  | artifact :: artifacts' =>
      zip' ← addArtifact index artifact zip;
      addArtifacts (S index) artifacts' zip'
  end.

Definition handleExportSession (st : App) : ExportResult :=
  match nthZ (sessions st) (currentSessionIndex st) with
  | Some currentSession =>
      let safePrompt :=
        substring (toLowerCase (replaceNonAlnum (Session.prompt currentSession))) 0 30 in
      let zip := file (u "session.json") (stringify currentSession) [] in
      match addArtifacts 0 (Session.artifacts currentSession) zip with
      | Some zip => Exported (u "session-" ++ safePrompt ++ u ".zip") zip
      | None => ExportTypeError
      end
  | None => NoExport
  end.

End Archive.

End Archive.
Export Archive.
(** ** The same handlers with JavaScript's references

    Arrays and objects live in a heap and are named by their address. The
    snapshot [{ sessions, currentSessionIndex }] that [pushToHistory] stores
    holds the address of the live [sessions] array, not a copy of it. Every
    update in index.tsx builds new arrays and objects ([map], spread) and
    assigns to no field or element of an existing one, so the heap only
    grows: [alloc] is the only operation that changes it. *)

Module Refs.

Abbreviation loc := nat.

Inductive Obj :=
| ArtifactObj (art : Artifact.t)                 (* its fields are strings *)
| SessionObj (id prompt : jsstring) (timestamp : Z) (artifacts : loc)
| ArrayObj (items : list loc).

Abbreviation Heap := (list Obj).

(** Computations that read the heap and allocate in it; [None] when an
    address does not hold what is read from it. *)
Definition M (A : Type) : Type := Heap → option (A * Heap).

#[global] Instance M_ret : MRet M := λ A x h, Some (x, h).

#[global] Instance M_bind : MBind M :=
  λ A B k m h, match m h with Some (x, h') => k x h' | None => None end.

Definition alloc (o : Obj) : M loc := λ h, Some (length h, h ++ [o]).

Definition readArtifact (l : loc) : M Artifact.t :=
  λ h, match h !! l with Some (ArtifactObj a) => Some (a, h) | _ => None end.

Definition readSession (l : loc) : M (jsstring * jsstring * Z * loc) :=
  λ h, match h !! l with
       | Some (SessionObj id prompt ts arts) => Some ((id, prompt, ts, arts), h)
       | _ => None
       end.

Definition readArray (l : loc) : M (list loc) :=
  λ h, match h !! l with Some (ArrayObj ls) => Some (ls, h) | _ => None end.

(** [arr.map((x, i) => f(i, x))]: a new array of what [f] returns. *)
Fixpoint mapFrom (f : nat → loc → M loc) (i : nat) (ls : list loc) : M (list loc) :=
  match ls with
  | [] => mret []
  | l :: ls' => y ← f i l; ys ← mapFrom f (S i) ls'; mret (y :: ys)
  end.

Definition jsMap (f : nat → loc → M loc) (arr : loc) : M loc :=
  ls ← readArray arr; ls' ← mapFrom f 0 ls; alloc (ArrayObj ls').

(** [[...prev, x]]. *)
Definition jsAppend (prev x : loc) : M loc :=
  ls ← readArray prev; alloc (ArrayObj (ls ++ [x])).

(** The shape shared by the three updates of [sessions]: a session chosen by
    [selS] is replaced by a new object with a new [artifacts] array, in which
    an artifact chosen by [selA] is replaced by a new object; everything
    else is shared with the old array. *)
Definition mapSessionsR (selS : nat → jsstring → bool) (selA : nat → Artifact.t → bool)
    (patch : nat → Artifact.t → Artifact.t) (prev : loc) : M loc :=
  jsMap (λ i sl,
           '(id, prompt, ts, arts) ← readSession sl;
           if selS i id then
             arts' ← jsMap (λ j al,
                              a ← readArtifact al;
                              if selA j a then alloc (ArtifactObj (patch j a))
                              else mret al) arts;
             alloc (SessionObj id prompt ts arts')
           else mret sl) prev.

Definition updateArtifactR (sessionId artifactId : jsstring)
    (f : Artifact.t → Artifact.t) : loc → M loc :=
  mapSessionsR (λ _ id, bool_decide (id = sessionId))
               (λ _ a, bool_decide (Artifact.id a = artifactId)) (λ _, f).

Definition updateFocusedR (currentSessionIndex : Z) (focusedArtifactIndex : nat)
    (f : Artifact.t → Artifact.t) : loc → M loc :=
  mapSessionsR (λ i _, bool_decide (Z.of_nat i = currentSessionIndex))
               (λ j _, bool_decide (j = focusedArtifactIndex)) (λ _, f).

Definition setStyleNamesR (sessionId : jsstring) (generatedStyles : list JValue)
    : loc → M loc :=
  mapSessionsR (λ _ id, negb (bool_decide (id ≠ sessionId)))
               (λ _ _, true) (λ i a, withStyleName a (generatedStyles !! i)).

Definition applyWriteR (w : Write) : loc → M loc :=
  updateArtifactR (wSession w) (wArtifact w) (wPatch w).

(** The new session of a submission, allocated with its three artifacts. *)
Fixpoint allocArtifacts (arts : list Artifact.t) : M (list loc) :=
  match arts with
  | [] => mret []
  | a :: arts' => l ← alloc (ArtifactObj a); ls ← allocArtifacts arts'; mret (l :: ls)
  end.

Definition allocSession (s : Session.t) : M loc :=
  arts ← allocArtifacts (Session.artifacts s);
  arr ← alloc (ArrayObj arts);
  alloc (SessionObj (Session.id s) (Session.prompt s) (Session.timestamp s) arr).

(** *** Reading values back *)

Definition readArtifactV (h : Heap) (l : loc) : option Artifact.t :=
  match h !! l with Some (ArtifactObj a) => Some a | _ => None end.

Definition readArrayV {T} (rd : Heap → loc → option T) (h : Heap) (l : loc) : option (list T) :=
  match h !! l with Some (ArrayObj ls) => mapM (rd h) ls | _ => None end.

Definition readSessionV (h : Heap) (l : loc) : option Session.t :=
  match h !! l with
  | Some (SessionObj id prompt ts arts) =>
      arts' ← readArrayV readArtifactV h arts; Some (Session.mk id prompt ts arts')
  | _ => None
  end.

Definition readSessionsV (h : Heap) (l : loc) : option (list Session.t) :=
  readArrayV readSessionV h l.

(** [m] run in [h] succeeds, leaves a heap that extends [h], and [Q] holds
    of its result. *)
Definition Runs {A} (m : M A) (h : Heap) (Q : A → Heap → Prop) : Prop :=
  ∃ x h', m h = Some (x, h') ∧ h `prefix_of` h' ∧ Q x h'.

(** A read that an extension of the heap does not change. *)
Definition Stable {T} (rd : Heap → loc → option T) : Prop :=
  ∀ h h' l v, h `prefix_of` h' → rd h l = Some v → rd h' l = Some v.

(** The update of [mapSessionsR] on values. *)
Definition mapSessions (selS : nat → jsstring → bool) (selA : nat → Artifact.t → bool)
    (patch : nat → Artifact.t → Artifact.t) (prev : list Session.t) : list Session.t :=
  imap (λ i s,
          if selS i (Session.id s) then
            withArtifacts s
              (imap (λ j a, if selA j a then patch j a else a) (Session.artifacts s))
          else s) prev.

(** *** The state, with addresses *)

(** A history entry: the address of a [sessions] array and an index. *)
Record SnapRef := { snapSessions : loc; snapIndex : Z }.

Record AppRef := {
  heap : Heap;
  sessionsRef : loc;
  indexRef : Z;
  pastRef : list SnapRef;
  futureRef : list SnapRef;
  focusedRef : option nat;
  inputRef : jsstring;
  loadingRef : bool
}.

Definition readSnap (h : Heap) (e : SnapRef) : option AppState.t :=
  ss ← readSessionsV h (snapSessions e); Some (AppState.mk ss (snapIndex e)).

(** [r] represents the state [st]. *)
Definition Represents (r : AppRef) (st : App) : Prop :=
  readSessionsV (heap r) (sessionsRef r) = Some (sessions st)
  ∧ indexRef r = currentSessionIndex st
  ∧ Forall2 (λ e a, readSnap (heap r) e = Some a) (pastRef r) (past (history st))
  ∧ Forall2 (λ e a, readSnap (heap r) e = Some a) (futureRef r) (future (history st))
  ∧ focusedRef r = focusedArtifactIndex st
  ∧ inputRef r = inputValue st
  ∧ loadingRef r = isLoading st.

Definition snapshotR (r : AppRef) : SnapRef :=
  {| snapSessions := sessionsRef r; snapIndex := indexRef r |}.

Definition pushToHistoryR (r : AppRef) : AppRef :=
  {| heap := heap r; sessionsRef := sessionsRef r; indexRef := indexRef r;
     pastRef := pastRef r ++ [snapshotR r]; futureRef := [];
     focusedRef := focusedRef r; inputRef := inputRef r; loadingRef := loadingRef r |}.

Definition setSessionsR (m : loc → M loc) (r : AppRef) : option AppRef :=
  '(l, h) ← m (sessionsRef r) (heap r);
  Some {| heap := h; sessionsRef := l; indexRef := indexRef r;
          pastRef := pastRef r; futureRef := futureRef r;
          focusedRef := focusedRef r; inputRef := inputRef r; loadingRef := loadingRef r |}.

Definition setIndexR (i : Z) (r : AppRef) : AppRef :=
  {| heap := heap r; sessionsRef := sessionsRef r; indexRef := i;
     pastRef := pastRef r; futureRef := futureRef r;
     focusedRef := focusedRef r; inputRef := inputRef r; loadingRef := loadingRef r |}.

Definition setFocusedR (x : option nat) (r : AppRef) : AppRef :=
  {| heap := heap r; sessionsRef := sessionsRef r; indexRef := indexRef r;
     pastRef := pastRef r; futureRef := futureRef r;
     focusedRef := x; inputRef := inputRef r; loadingRef := loadingRef r |}.

Definition setInputR (x : jsstring) (r : AppRef) : AppRef :=
  {| heap := heap r; sessionsRef := sessionsRef r; indexRef := indexRef r;
     pastRef := pastRef r; futureRef := futureRef r;
     focusedRef := focusedRef r; inputRef := x; loadingRef := loadingRef r |}.

Definition setLoadingR (x : bool) (r : AppRef) : AppRef :=
  {| heap := heap r; sessionsRef := sessionsRef r; indexRef := indexRef r;
     pastRef := pastRef r; futureRef := futureRef r;
     focusedRef := focusedRef r; inputRef := inputRef r; loadingRef := x |}.

Definition handleUndoR (r : AppRef) : AppRef :=
  match last (pastRef r) with
  | None => r
  | Some previous =>
      {| heap := heap r;
         sessionsRef := snapSessions previous; indexRef := snapIndex previous;
         pastRef := take (length (pastRef r) - 1) (pastRef r);
         futureRef := snapshotR r :: futureRef r;
         focusedRef := focusedRef r; inputRef := inputRef r; loadingRef := loadingRef r |}
  end.

Definition handleRedoR (r : AppRef) : AppRef :=
  match futureRef r with
  | [] => r
  | next :: newFuture =>
      {| heap := heap r;
         sessionsRef := snapSessions next; indexRef := snapIndex next;
         pastRef := pastRef r ++ [snapshotR r];
         futureRef := newFuture;
         focusedRef := focusedRef r; inputRef := inputRef r; loadingRef := loadingRef r |}
  end.

Definition promptToUseR (manualPrompt : option jsstring) (r : AppRef) : jsstring :=
  match manualPrompt with
  | Some (c :: p) => c :: p
  | _ => inputRef r
  end.

Definition handleSendMessageR (manualPrompt : option jsstring) (baseTime : Z)
    (sessionId : jsstring) (r : AppRef) : option AppRef :=
  let trimmedInput := trim (promptToUseR manualPrompt r) in
  if bool_decide (trimmedInput = []) || loadingRef r then Some r
  else
    let r1 := match manualPrompt with
              | Some (_ :: _) => r
              | _ => setInputR [] r
              end in
    let r2 := setLoadingR true (pushToHistoryR r1) in
    r3 ← setSessionsR
           (λ prev, s ← allocSession (newSession sessionId trimmedInput baseTime);
                    jsAppend prev s) r2;
    Some (setFocusedR None (setIndexR (indexRef r3 + 1) r3)).

(** [sessions.length] and [sessions[i]] on the live array. *)
Definition sessionsLength (r : AppRef) : option nat :=
  match heap r !! sessionsRef r with Some (ArrayObj ls) => Some (length ls) | _ => None end.

Definition stepR (a : Action) (r : AppRef) : option AppRef :=
  match a with
  | ASend manualPrompt baseTime sessionId => handleSendMessageR manualPrompt baseTime sessionId r
  | AStyleNames sessionId generatedStyles =>
      setSessionsR (setStyleNamesR sessionId generatedStyles) r
  | AWrite w => setSessionsR (applyWriteR w) r
  | AGenerationDone => Some (setLoadingR false r)
  | AApplyVariation html =>
      let r1 := pushToHistoryR r in
      match focusedRef r with
      | None => Some r1
      | Some focused =>
          setSessionsR (updateFocusedR (indexRef r) focused
                          (λ art, withHtmlStatus art html complete)) r1
      end
  | AGenerateImages =>
      n ← sessionsLength r;
      match focusedRef r with
      | Some _ =>
          if bool_decide (0 ≤ indexRef r < Z.of_nat n)%Z
          then Some (setLoadingR true (pushToHistoryR r)) else Some r
      | None => Some r
      end
  | AImagesGenerated i j newHtml =>
      setSessionsR (updateFocusedR i j (λ art, withHtml art newHtml)) r
  | AFocus i => Some (setFocusedR i r)
  | ANext =>
      n ← sessionsLength r;
      match focusedRef r with
      | Some focused =>
          Some (if focused <? 2 then setFocusedR (Some (focused + 1)) r else r)
      | None =>
          Some (if (indexRef r <? Z.of_nat n - 1)%Z
                then setIndexR (indexRef r + 1) (pushToHistoryR r) else r)
      end
  | APrev =>
      match focusedRef r with
      | Some focused =>
          Some (if 0 <? focused then setFocusedR (Some (focused - 1)) r else r)
      | None =>
          Some (if (0 <? indexRef r)%Z
                then setIndexR (indexRef r - 1) (pushToHistoryR r) else r)
      end
  | AUndo => Some (handleUndoR r)
  | ARedo => Some (handleRedoR r)
  end.

Fixpoint runR (actions : list Action) (r : AppRef) : option AppRef :=
  match actions with
  | [] => Some r
  | a :: actions' => r' ← stepR a r; runR actions' r'
  end.

(** A fresh page: the heap holds the empty [sessions] array. *)
Definition initialRef : AppRef :=
  {| heap := [ArrayObj []]; sessionsRef := 0; indexRef := -1;
     pastRef := []; futureRef := [];
     focusedRef := None; inputRef := []; loadingRef := false |}.

End Refs.
Export Refs.

(** ** Data of the worked examples *)

Module Examples.

(** The two chunks [{"a":1,"b":{"c":2}}{"x":] and [5}]. *)
Definition twoChunks : list Chunk :=
  chunks [uq "{'a':1,'b':{'c':2}}{'x':"; u "5}"].

Definition oneChunk : list Chunk :=
  chunks [uq "{'a':1,'b':{'c':2}}{'x':5}"].

(** A stream that ends inside its second object. *)
Definition cutStream : list Chunk := chunks [uq "{'a':1}{'x"; uq "':"].

(** A stream that ends inside the object [{"a":"} {} "]: the braces in the
    string value close nothing in JSON. *)
Definition braceInString : jsstring := uq "{'a':'} {} '".

(** Three body streams: the first throws, the third ends after a code fence
    with nothing in it. *)
Definition fenceOnlyRuns : list TaskRun :=
  [ {| received := []; ending := Throws (Some (u "quota")) |};
    {| received := chunks [u "<p>a</p>"]; ending := Ends |};
    {| received := chunks [u "```html"; u "```"]; ending := Ends |} ].

Definition fenceOnlyTrace : list Write :=
  [ WriteError (u "s1") (u "s1_0") (u "quota");
    WriteHtml (u "s1") (u "s1_1") (u "<p>a</p>");
    WriteHtml (u "s1") (u "s1_2") (u "```html");
    WriteFinal (u "s1") (u "s1_1") (u "<p>a</p>");
    WriteHtml (u "s1") (u "s1_2") (u "```html```");
    WriteFinal (u "s1") (u "s1_2") [] ].

(** A full document whose doctype is written in lower case, and a fragment
    that mentions the doctype. *)
Definition lowerCaseDocument : jsstring :=
  uq "<!doctype html><html lang='en'><head><title>t</title></head><body><p>hi</p></body></html>".

Definition fragmentWithDoctype : jsstring := u "<p>Start a page with <!DOCTYPE html></p>".

(** A page on which the prompt [clock] was submitted at time 0, the session
    being given the id [s1]. *)
Definition clockApp : App := handleSendMessage (Some (u "clock")) 0 (u "s1") initialApp.

(** Three body streams: the second throws after one chunk. *)
Definition threeRuns : list TaskRun :=
  [ {| received := chunks [u "<p>a"; u "</p>"]; ending := Ends |};
    {| received := chunks [u "<i>"]; ending := Throws (Some (u "quota")) |};
    {| received := chunks [u "```html <b>c</b>```"]; ending := Ends |} ].

(** One way their writes interleave. *)
Definition threeRunsTrace : list Write :=
  [ WriteHtml (u "s1") (u "s1_0") (u "<p>a");
    WriteHtml (u "s1") (u "s1_1") (u "<i>");
    WriteHtml (u "s1") (u "s1_2") (u "```html <b>c</b>```");
    WriteError (u "s1") (u "s1_1") (u "quota");
    WriteHtml (u "s1") (u "s1_0") (u "<p>a</p>");
    WriteFinal (u "s1") (u "s1_2") (u "<b>c</b>");
    WriteFinal (u "s1") (u "s1_0") (u "<p>a</p>") ].

(** Three body streams: the second throws [null], which has no message to
    read. *)
Definition unreadableRuns : list TaskRun :=
  [ {| received := chunks [u "<p>a</p>"]; ending := Ends |};
    {| received := []; ending := Throws None |};
    {| received := chunks [u "<b>c</b>"]; ending := Ends |} ].

(** One way their updates interleave. *)
Definition unreadableTrace : list Effect :=
  [ Lands (WriteHtml (u "s1") (u "s1_0") (u "<p>a</p>"));
    Lands (WriteFinal (u "s1") (u "s1_0") (u "<p>a</p>"));
    Raises (u "s1") (u "s1_1");
    Lands (WriteHtml (u "s1") (u "s1_2") (u "<b>c</b>"));
    Lands (WriteFinal (u "s1") (u "s1_2") (u "<b>c</b>")) ].

(** A page on which [clock] was submitted, the first artifact received its
    html, was put in focus and had a variation applied. *)
Definition variedActions : list Action :=
  [ ASend (Some (u "clock")) 0 (u "s1");
    AStyleNames (u "s1") fallbackStyles;
    AWrite (WriteFinal (u "s1") (u "s1_0") (u "<p>a</p>"));
    AFocus (Some 0);
    AApplyVariation (u "<b>v</b>") ].

Definition variedApp : App := run variedActions initialApp.

Definition variedRef : AppRef := default initialRef (runR variedActions initialRef).

(** What happens next on that page. *)
Definition laterActions : list Action :=
  [ AWrite (WriteHtml (u "s1") (u "s1_1") (u "<i>"));
    AImagesGenerated 0 0 (u "<img>");
    AUndo;
    AWrite (WriteError (u "s1") (u "s1_2") (u "quota"));
    ARedo ].

End Examples.
Export Examples.

(** ** Data of the further examples *)

Module FramingExamples.

(** Two objects on two lines, cut inside the second one. *)
Definition twoLines : list (jsstring * jsstring) :=
  [ ([], uq "{'name':'A','html':'<p>a</p>'}");
    ([NEWLINE], uq "{'name':'B','html':{'nested':[1,2]}}") ].

Definition twoLinesStream : list Chunk :=
  chunks [ uq "{'name':'A','html':'<p>a</p>'}" ++ [NEWLINE] ++ uq "{'name':'B','ht";
           uq "ml':{'nested':[1,2]}}" ++ [NEWLINE] ].

Definition twoLinesValues : list JValue :=
  [ JObject [(u "name", JString (u "A")); (u "html", JString (u "<p>a</p>"))];
    JObject [(u "name", JString (u "B"));
             (u "html", JObject [(u "nested", JArray [JNumber (u "1"); JNumber (u "2")])])] ].

End FramingExamples.

Module MoreExamples.

(** A page on which [clock] was generated to its end and nothing is
    loading. *)
Definition idleActions : list Action :=
  [ ASend (Some (u "clock")) 0 (u "s1");
    AStyleNames (u "s1") fallbackStyles;
    AWrite (WriteFinal (u "s1") (u "s1_0") (u "<p>a</p>"));
    AGenerationDone ].

Definition idleApp : App := run idleActions initialApp.

(** What arrives for a second prompt before, and after, an undo. *)
Definition arrivedBefore : list Action :=
  [ AStyleNames (u "s2") fallbackStyles;
    AWrite (WriteHtml (u "s2") (u "s2_0") (u "<p>")) ].

Definition arrivedAfter : list Action :=
  [ AWrite (WriteFinal (u "s2") (u "s2_0") (u "<p>b</p>"));
    AWrite (WriteError (u "s2") (u "s2_1") (u "quota"));
    AGenerationDone ].

(** Two placeholders, and a reply with three more. *)
Definition twoPlaceholders : list jsstring := [u "a clock"; u "a calendar"].

Definition moreReply : Reply := ReplyText (Some (uq "Sure: ['x','y','z']")).

Definition placeholderEvents : list Event :=
  [ Tick; Fetched moreReply (@rev JValue); Tick; Tick ].

(** A way of splitting a page, for the archive: the page as the html, no
    css and no script. *)
Definition wholePage (fullHtml : jsstring) : jsstring * jsstring * jsstring :=
  (fullHtml, [], []).

Definition variedArchive : Zip :=
  match handleExportSession Session.id wholePage variedApp with
  | Exported _ zip => zip
  | _ => []
  end.

End MoreExamples.
Export MoreExamples.
(** * Properties

    ** Facts about [indexOf] *)

Lemma indexOf_Some c s from k :
  indexOf c s from = Some k → from ≤ k ∧ s !! k = Some c.
Proof.
  revert from k. induction s as [|x s IH]; intros from k; simpl; [done|].
  destruct from as [|from].
  - destruct (N.eqb_spec x c) as [->|_].
    + intros [= <-]. split; [lia|done].
    + destruct (indexOf c s 0) as [j|] eqn:E; simpl; [|done].
      intros [= <-]. destruct (IH _ _ E) as [_ ?]. split; [lia|done].
  - destruct (indexOf c s from) as [j|] eqn:E; simpl; [|done].
    intros [= <-]. destruct (IH _ _ E) as [? ?]. split; [lia|done].
Qed.

Lemma indexOf_lt c s from k : indexOf c s from = Some k → k < length s.
Proof. intros H. apply indexOf_Some in H as [_ H]. by eapply lookup_lt_Some. Qed.

(** Appending text does not move an occurrence that was found. *)
Lemma indexOf_app_Some c s t from k :
  indexOf c s from = Some k → indexOf c (s ++ t) from = Some k.
Proof.
  revert from k. induction s as [|x s IH]; intros from k; simpl; [done|].
  destruct from as [|from].
  - destruct (N.eqb x c); [done|].
    destruct (indexOf c s 0) as [j|] eqn:E; simpl; [|done].
    intros [= <-]. by rewrite (IH _ _ E).
  - destruct (indexOf c s from) as [j|] eqn:E; simpl; [|done].
    intros [= <-]. by rewrite (IH _ _ E).
Qed.

(** With no occurrence in [s] from [from] on, the search continues in the
    appended text. *)
Lemma indexOf_app_None c s t from :
  indexOf c s from = None → from ≤ length s →
  indexOf c (s ++ t) from = (λ k, length s + k) <$> indexOf c t 0.
Proof.
  revert from. induction s as [|x s IH]; intros from; simpl.
  - intros _ Hle. assert (from = 0) as -> by lia.
    destruct (indexOf c t 0); simpl; [|done].
    destruct t; done.
  - destruct from as [|from].
    + destruct (N.eqb x c); [done|].
      destruct (indexOf c s 0) eqn:E; simpl; [done|].
      intros _ _. rewrite (IH 0 E); [|lia]. by destruct (indexOf c t 0).
    + destruct (indexOf c s from) eqn:E; simpl; [done|].
      intros _ Hle. rewrite (IH from E); [|lia]. by destruct (indexOf c t 0).
Qed.

(** Starting the search later, but not beyond the occurrence found, finds
    the same occurrence. *)
Lemma indexOf_Some_later c s k from p :
  indexOf c s k = Some p → k ≤ from → from ≤ p → indexOf c s from = Some p.
Proof.
  revert k from p. induction s as [|x s IH]; intros k from p; simpl; [done|].
  destruct k as [|k], from as [|from]; try lia; try done.
  - destruct (N.eqb x c) eqn:Hx.
    + intros [= <-] _ Hle. lia.
    + destruct (indexOf c s 0) as [j|] eqn:E; simpl; [|done].
      intros [= <-] _ Hle. rewrite (IH 0 from j E); [done|lia|lia].
  - destruct (indexOf c s k) as [j|] eqn:E; simpl; [|done].
    intros [= <-] Hk Hle. rewrite (IH k from j E); [done|lia|lia].
Qed.

Lemma indexOf_None_later c s k from :
  indexOf c s k = None → k ≤ from → indexOf c s from = None.
Proof.
  revert k from. induction s as [|x s IH]; intros k from; simpl; [done|].
  destruct k as [|k], from as [|from]; try lia; try done.
  - destruct (N.eqb x c); [done|].
    destruct (indexOf c s 0) eqn:E; simpl; [done|].
    intros _ _. rewrite (IH 0 from E); [done|lia].
  - destruct (indexOf c s k) eqn:E; simpl; [done|].
    intros _ Hle. rewrite (IH k from E); [done|lia].
Qed.

(** The occurrence found is the first one from [from] on. *)
Lemma indexOf_first c s from k p :
  indexOf c s from = Some k → from ≤ p → p < k → s !! p ≠ Some c.
Proof.
  revert from k p. induction s as [|x s IH]; intros from k p; simpl; [done|].
  destruct from as [|from].
  - destruct (N.eqb_spec x c) as [->|Hne].
    + intros [= <-]. lia.
    + destruct (indexOf c s 0) as [j|] eqn:E; simpl; [|done].
      intros [= <-] _ Hp. destruct p as [|p]; simpl; [congruence|].
      eapply (IH 0 j p); [done|lia|lia].
  - destruct (indexOf c s from) as [j|] eqn:E; simpl; [|done].
    intros [= <-] Hf Hp. destruct p as [|p]; [lia|]. simpl.
    eapply (IH from j p); [done|lia|lia].
Qed.

(** ** The JSON parser *)

Example JSON_parse_nested :
  JSON_parse (uq "{'a':1, 'b': [true, null, -2.5e3]}")
  = Some (JObject [(u "a", JNumber (u "1"));
                   (u "b", JArray [JBool true; JNull; JNumber (u "-2.5e3")])]).
Proof. vm_compute. reflexivity. Qed.

Example JSON_parse_rejects :
  JSON_parse (u "{x}") = None ∧ JSON_parse (u "[1,]") = None ∧
  JSON_parse (u "[01]") = None ∧ JSON_parse (u "[1] 2") = None ∧
  JSON_parse (u "{") = None.
Proof. vm_compute. auto. Qed.

Section JsonFacts.
Implicit Types (s r : jsstring).
Lemma skipWs_length s : length (skipWs s) ≤ length s.
Proof.
  induction s as [|c s IH]; simpl; [done|].
  destruct (isJsonWs c); simpl; lia.
Qed.

Lemma spanDigits_length s : length (spanDigits s).2 ≤ length s.
Proof.
  induction s as [|c s IH]; simpl; [done|].
  destruct (isDigit c); simpl; [|lia].
  destruct (spanDigits s) as [ds r]. simpl in *. lia.
Qed.

Lemma digits1_length s ds r : digits1 s = Some (ds, r) → length r ≤ length s.
Proof.
  unfold digits1. pose proof (spanDigits_length s) as H.
  destruct (spanDigits s) as [[|d ds'] r']; [done|].
  intros [= <- <-]. done.
Qed.

Lemma parseStringBody_length s : ∀ str r,
  parseStringBody s = Some (str, r) → length r < length s.
Proof.
  induction s as [s IH] using (induction_ltof1 _ (@length N)). unfold ltof in IH.
  intros str r. destruct s as [|c rest]; simpl; [done|].
  destruct (N.eqb c 34); [intros [= <- <-]; lia|].
  destruct (N.ltb c 32); [done|].
  destruct (N.eqb c 92).
  - destruct rest as [|e rest1]; [done|].
    destruct (N.eqb e 117).
    + destruct rest1 as [|h1 [|h2 [|h3 [|h4 rest2]]]]; try done.
      destruct (hexValue h1), (hexValue h2), (hexValue h3), (hexValue h4); simpl; try done.
      destruct (parseStringBody rest2) as [[str' r']|] eqn:E; simpl; [|done].
      intros [= <- <-]. apply IH in E; simpl in *; lia.
    + match goal with |- context [mbind _ ?x] => destruct x end; simpl; [|done].
      destruct (parseStringBody rest1) as [[str' r']|] eqn:E; simpl; [|done].
      intros [= <- <-]. apply IH in E; simpl in *; lia.
  - destruct (parseStringBody rest) as [[str' r']|] eqn:E; simpl; [|done].
    intros [= <- <-]. apply IH in E; simpl in *; lia.
Qed.

Lemma spanDigits_length' s ds r : spanDigits s = (ds, r) → length r ≤ length s.
Proof. intros H. pose proof (spanDigits_length s) as H'. by rewrite H in H'. Qed.

Ltac lengths :=
  repeat match goal with
  | H : digits1 _ = Some _ |- _ => apply digits1_length in H
  | H : spanDigits _ = (_, _) |- _ => apply spanDigits_length' in H
  end.

Lemma parseNumber_length s lex r :
  parseNumber s = Some (lex, r) → length r < length s.
Proof.
  unfold parseNumber. intros H.
  repeat (case_match; simplify_option_eq; try done); lengths; simpl in *; lia.
Qed.

Lemma startsWith_length s : ∀ p, startsWith s p = true → length p ≤ length s.
Proof.
  induction s as [|x s IH]; intros [|y p]; simpl; try done; [lia|].
  intros [_ H]%andb_prop. apply IH in H. lia.
Qed.

Lemma parseLiteral_length s v r : parseLiteral s = Some (v, r) → length r < length s.
Proof.
  unfold parseLiteral. intros H.
  repeat (case_match; try done); simplify_eq; rewrite length_drop;
    match goal with E : startsWith _ _ = true |- _ => apply startsWith_length in E end;
    simpl in *; lia.
Qed.

Lemma skipWs_cons_length s c r : skipWs s = c :: r → length r < length s.
Proof. intros H. pose proof (skipWs_length s) as L. rewrite H in L. simpl in L. lia. Qed.

Lemma parse_Enough n :
  Enough parseValue n ∧ Enough parseElements n ∧ Enough parseMembers n.
Proof.
  induction n as [|n (IHv & IHe & IHm)]; [by repeat split|].
  split_and!; intros s a r H; simpl in H.
  - destruct (skipWs s) as [|c rest] eqn:Es; [done|].
    apply skipWs_cons_length in Es as Ls.
    destruct (N.eqb c 34) eqn:E1.
    { destruct (parseStringBody rest) as [[str r1]|] eqn:E; simplify_eq/=.
      apply parseStringBody_length in E as L. split; [lia|].
      intros [|m] Hm; [lia|]. simpl. by rewrite Es, E1, E. }
    destruct (N.eqb c LBRACKET) eqn:E2.
    { destruct (skipWs rest) as [|d r1] eqn:Er; [done|].
      apply skipWs_cons_length in Er as Lr.
      destruct (N.eqb d RBRACKET) eqn:E3.
      - simplify_eq. split; [lia|].
        intros [|m] Hm; [lia|]. simpl. by rewrite Es, E1, E2, Er, E3.
      - destruct (parseElements n rest) as [[vs r2]|] eqn:E; simplify_eq/=.
        apply IHe in E as [L F]. split; [lia|].
        intros [|m] Hm; [lia|]. simpl. rewrite Es, E1, E2, Er, E3, F; [done|lia]. }
    destruct (N.eqb c LBRACE) eqn:E3.
    { destruct (skipWs rest) as [|d r1] eqn:Er; [done|].
      apply skipWs_cons_length in Er as Lr.
      destruct (N.eqb d RBRACE) eqn:E4.
      - simplify_eq. split; [lia|].
        intros [|m] Hm; [lia|]. simpl. by rewrite Es, E1, E2, E3, Er, E4.
      - destruct (parseMembers n rest) as [[ms r2]|] eqn:E; simplify_eq/=.
        apply IHm in E as [L F]. split; [lia|].
        intros [|m] Hm; [lia|]. simpl. rewrite Es, E1, E2, E3, Er, E4, F; [done|lia]. }
    destruct (N.eqb c 45 || isDigit c) eqn:E4.
    { destruct (parseNumber (c :: rest)) as [[lex r1]|] eqn:E; simplify_eq/=.
      apply parseNumber_length in E as L. simpl in L. split; [lia|].
      intros [|m] Hm; [lia|]. simpl. by rewrite Es, E1, E2, E3, E4, E. }
    apply parseLiteral_length in H as L. simpl in L. split; [lia|].
    intros [|m] Hm; [lia|]. simpl. by rewrite Es, E1, E2, E3, E4.
  - destruct (parseValue n s) as [[v r1]|] eqn:Ev; simplify_eq/=.
    apply IHv in Ev as [Lv Fv].
    destruct (skipWs r1) as [|c r2] eqn:Er; [done|].
    apply skipWs_cons_length in Er as Lr.
    destruct (N.eqb c 44) eqn:E1.
    { destruct (parseElements n r2) as [[vs r3]|] eqn:E; simplify_eq/=.
      apply IHe in E as [L F]. split; [lia|].
      intros [|m] Hm; [lia|]. simpl. rewrite Fv by lia. simpl.
      rewrite Er, E1, F; [done|lia]. }
    destruct (N.eqb c RBRACKET) eqn:E2; simplify_eq. split; [lia|].
    intros [|m] Hm; [lia|]. simpl. rewrite Fv by lia. simpl. by rewrite Er, E1, E2.
  - destruct (skipWs s) as [|q r0] eqn:Es; [done|].
    apply skipWs_cons_length in Es as Ls.
    destruct (N.eqb q 34) eqn:E1; [|done].
    destruct (parseStringBody r0) as [[key r1]|] eqn:Ek; simplify_eq/=.
    apply parseStringBody_length in Ek as Lk.
    destruct (skipWs r1) as [|colon r2] eqn:Ec; [done|].
    apply skipWs_cons_length in Ec as Lc.
    destruct (N.eqb colon 58) eqn:E2; [|done].
    destruct (parseValue n r2) as [[v r3]|] eqn:Ev; simplify_eq/=.
    apply IHv in Ev as [Lv Fv].
    destruct (skipWs r3) as [|c r4] eqn:Er; [done|].
    apply skipWs_cons_length in Er as Lr.
    destruct (N.eqb c 44) eqn:E3.
    { destruct (parseMembers n r4) as [[ms r5]|] eqn:E; simplify_eq/=.
      apply IHm in E as [L F]. split; [lia|].
      intros [|m] Hm; [lia|]. simpl. rewrite Es, E1, Ek. simpl. rewrite Ec, E2.
      rewrite Fv by lia. simpl. rewrite Er, E3, F; [done|lia]. }
    destruct (N.eqb c RBRACE) eqn:E4; simplify_eq. split; [lia|].
    intros [|m] Hm; [lia|]. simpl. rewrite Es, E1, Ek. simpl. rewrite Ec, E2.
    rewrite Fv by lia. simpl. by rewrite Er, E3, E4.
Qed.

(** The fuel [JSON_parse] gives is enough: what any fuel parses, it parses. *)
Lemma parseValue_fuel n text v r :
  parseValue n text = Some (v, r) →
  parseValue (2 * length text + 2) text = Some (v, r).
Proof.
  intros H. destruct (parse_Enough n) as (Hv & _).
  apply Hv in H as [L F]. apply F. lia.
Qed.

(** So [JSON_parse] fails only on a text that no fuel parses to one value
    with whitespace around it. *)
Lemma JSON_parse_complete n text v r :
  parseValue n text = Some (v, r) → skipWs r = [] → JSON_parse text = Some v.
Proof.
  intros H Hr. unfold JSON_parse. rewrite (parseValue_fuel _ _ _ _ H). simpl.
  by rewrite Hr.
Qed.

End JsonFacts.

(** ** The extractor *)

Section ExtractorFacts.
Context {J : Type} (parse : jsstring → option J).

Lemma Loop_det b st r o r' o' :
  Loop parse b st r o → Loop parse b st r' o' → r = r' ∧ o = o'.
Proof.
  intros H. revert r' o'.
  induction H as [b|b st Hf|b st e v r o Hf Hp _ IH|b st e r o Hf Hp _ IH];
    intros r' o' H'; inversion H'; simplify_eq; auto.
  destruct (IH _ _ ltac:(eassumption)) as [-> ->]. done.
Qed.

Lemma scanLoop_sound fuel b st r o :
  scanLoop parse fuel b st = Some (r, o) → Loop parse b st r o.
Proof.
  revert b st r o. induction fuel as [|fuel IH]; intros b st r o; simpl; [done|].
  destruct st as [st|]; [|intros [= <- <-]; constructor].
  destruct (findEnd b st) as [e|] eqn:Hf; [|intros [= <- <-]; by constructor].
  destruct (parse _) as [v|] eqn:Hp.
  - unfold substringFrom.
    destruct (scanLoop parse fuel _ _) as [[b' vs]|] eqn:Hl; simpl; [|done].
    intros [= <- <-]. eapply Loop_emit; eauto.
  - intros Hl. eapply Loop_skip; eauto.
Qed.

(** *** The brace scan *)

Lemma scanEnd_bounds rest i start bc e :
  scanEnd rest i start bc = Some e → i ≤ e < i + length rest.
Proof.
  revert i bc. induction rest as [|c rest IH]; intros i bc; simpl; [done|].
  destruct (_ && _).
  - intros [= <-]. lia.
  - intros H. apply IH in H. lia.
Qed.

Lemma findEnd_bounds b st e : findEnd b st = Some e → st ≤ e < length b.
Proof.
  unfold findEnd. intros H. apply scanEnd_bounds in H.
  rewrite length_drop in H. lia.
Qed.

(** The scan reads the buffer only up to the end it finds. *)
Lemma scanEnd_app rest t i start bc e :
  scanEnd rest i start bc = Some e → scanEnd (rest ++ t) i start bc = Some e.
Proof.
  revert i bc. induction rest as [|c rest IH]; intros i bc; simpl; [done|].
  destruct (_ && _); [done|]. apply IH.
Qed.

Lemma findEnd_app b t st e :
  findEnd b st = Some e → findEnd (b ++ t) st = Some e.
Proof.
  unfold findEnd. intros H.
  assert (st ≤ length b) by (apply findEnd_bounds in H; lia).
  rewrite drop_app_le by done. by apply scanEnd_app.
Qed.

Lemma substring_app b t st e :
  e < length b → substring (b ++ t) st (e + 1) = substring b st (e + 1).
Proof.
  intros He. unfold substring.
  destruct (decide (st ≤ length b)) as [Hs|Hs].
  - rewrite drop_app_le by done. apply take_app_le. rewrite length_drop. lia.
  - replace (e + 1 - st) with 0 by lia. done.
Qed.

(** *** Termination: [S (length buffer)] turns of the loop are enough *)

Lemma scanLoop_total fuel b st :
  measure b st < fuel → is_Some (scanLoop parse fuel b st).
Proof.
  revert b st. induction fuel as [|fuel IH]; intros b st Hm; [lia|]. simpl.
  destruct st as [st|]; [|eauto].
  destruct (findEnd b st) as [e|] eqn:Hf; [|eauto].
  apply findEnd_bounds in Hf. simpl in Hm.
  destruct (parse _) as [v|].
  - unfold substringFrom.
    destruct (IH (drop (e + 1) b) (indexOf LBRACE (drop (e + 1) b) 0)) as [[b' vs] ->];
      [|simpl; eauto].
    destruct (indexOf _ _ _) as [k|]; simpl; rewrite ?length_drop; lia.
  - apply IH. destruct (indexOf _ _ _) as [k|] eqn:Hk; simpl; [|lia].
    pose proof (indexOf_Some _ _ _ _ Hk) as [? _].
    apply indexOf_lt in Hk. lia.
Qed.

Lemma Loop_total b st : ∃ r o, Loop parse b st r o.
Proof.
  destruct (scanLoop_total (S (measure b st)) b st) as [[r o] H]; [lia|].
  exists r, o. by eapply scanLoop_sound.
Qed.

Lemma scanLoop_complete fuel b st r o :
  Loop parse b st r o → measure b st < fuel → scanLoop parse fuel b st = Some (r, o).
Proof.
  intros HL Hm. destruct (scanLoop_total fuel b st Hm) as [[r' o'] H].
  rewrite H. apply scanLoop_sound in H.
  destruct (Loop_det _ _ _ _ _ _ HL H) as [-> ->]. done.
Qed.

(** *** Chunk boundaries

    Text appended to the buffer changes no step the loop has already taken:
    an end that was found, and the substring parsed, lie inside the old
    buffer. *)

(** Braces that failed before [from] are stepped over again when the loop
    restarts from an earlier position. *)
Lemma Loop_restart b t from k r o :
  Failed parse b from → from ≤ length b → k ≤ from →
  Loop parse (b ++ t) (indexOf LBRACE (b ++ t) k) r o →
  Loop parse (b ++ t) (indexOf LBRACE (b ++ t) from) r o.
Proof.
  intros HF Hlen. remember (from - k) as n eqn:Hn. revert k Hn.
  induction n as [n IH] using lt_wf_ind. intros k Hn Hk HL.
  destruct (indexOf LBRACE (b ++ t) k) as [p|] eqn:Hi.
  - destruct (decide (from ≤ p)) as [Hfp|Hfp].
    + by rewrite (indexOf_Some_later _ _ _ _ _ Hi Hk Hfp).
    + pose proof (indexOf_Some _ _ _ _ Hi) as [Hkp Hp].
      rewrite lookup_app_l in Hp by lia.
      destruct (HF p) as (e & Hf & Hpar); [lia|done|].
      pose proof (findEnd_bounds _ _ _ Hf) as Hb.
      pose proof (findEnd_app _ t _ _ Hf) as Hf'.
      inversion HL as [|? ? Hf0|? ? e0 v ? ? Hf0 Hp0 HL0|? ? e0 ? ? Hf0 Hp0 HL0];
        simplify_eq.
      * rewrite substring_app in Hp0 by lia. congruence.
      * apply (IH (from - (p + 1))) with (k := p + 1); [lia|done|lia|done].
  - by rewrite (indexOf_None_later _ _ _ _ Hi Hk).
Qed.

(** The loop on a longer buffer: first the steps it takes on [b], then the
    steps it takes on what those left, followed by the new text. *)
Lemma Loop_extend b st r o :
  Loop parse b st r o → ∀ from t r' o',
  st = indexOf LBRACE b from → Failed parse b from → from ≤ length b →
  Loop parse (r ++ t) (indexOf LBRACE (r ++ t) 0) r' o' →
  Loop parse (b ++ t) (indexOf LBRACE (b ++ t) from) r' (o ++ o').
Proof.
  induction 1 as [b|b st Hf|b st e v r o Hf Hp _ IH|b st e r o Hf Hp _ IH];
    intros from t r' o' Hst HF Hlen HL.
  - by apply (Loop_restart b t from 0); [| |lia|].
  - by apply (Loop_restart b t from 0); [| |lia|].
  - symmetry in Hst. rewrite (indexOf_app_Some _ _ t _ _ Hst).
    pose proof (findEnd_bounds _ _ _ Hf) as Hb. simpl.
    eapply Loop_emit.
    + by apply findEnd_app.
    + by rewrite substring_app by lia.
    + rewrite drop_app_le by lia.
      apply (IH 0 t r' o'); [done| |lia|done].
      intros p Hp0. lia.
  - symmetry in Hst. rewrite (indexOf_app_Some _ _ t _ _ Hst).
    pose proof (findEnd_bounds _ _ _ Hf) as Hb.
    eapply Loop_skip.
    + by apply findEnd_app.
    + by rewrite substring_app by lia.
    + apply (IH (st + 1) t r' o'); [done| |lia|done].
      intros p Hlt Hp0.
      destruct (decide (p < from)) as [Hpf|Hpf]; [by apply HF|].
      destruct (decide (p = st)) as [->|Hne]; [eauto|].
      exfalso. eapply (indexOf_first _ _ _ _ p Hst); [lia|lia|done].
Qed.

Lemma onChunk_Some buffer t :
  ∃ r o, onChunk parse buffer {| text := Some t |} = Some (r, o) ∧
         Emits parse (buffer ++ t) r o.
Proof.
  destruct (Loop_total (buffer ++ t) (indexOf LBRACE (buffer ++ t) 0))
    as (r & o & HL).
  exists r, o. split; [|done]. unfold onChunk. cbv beta iota zeta delta [text].
  apply scanLoop_complete; [done|].
  destruct (indexOf _ _ _); simpl; lia.
Qed.

(** The generator never runs out of fuel, and what it yields over a stream
    is what the whole text yields when read as one chunk. *)
Lemma runStream_Emits stream : ∀ T buffer O,
  Emits parse T buffer O →
  ∃ outs r, runStream parse buffer stream = Some outs ∧
            Emits parse (T ++ streamText stream) r (O ++ concat outs).
Proof.
  induction stream as [|[[t|]] stream IH]; intros T buffer O HE.
  - exists [], buffer. simpl. by rewrite !app_nil_r.
  - destruct (onChunk_Some buffer t) as (r1 & o1 & Hc & HE1).
    assert (Emits parse (T ++ t) r1 (O ++ o1)) as HE2.
    { apply (Loop_extend _ _ _ _ HE 0 t r1 o1); [done| |lia|done].
      intros p Hp. lia. }
    destruct (IH _ _ _ HE2) as (outs & r & Hr & HE3).
    exists (o1 :: outs), r. split.
    + simpl runStream. rewrite Hc. simpl. by rewrite Hr.
    + unfold streamText in *. simpl. by rewrite !app_assoc.
  - destruct (IH _ _ _ HE) as (outs & r & Hr & HE3).
    exists ([] :: outs), r. split.
    + simpl. by rewrite Hr.
    + done.
Qed.

Lemma parseJsonStream_Emits stream :
  ∃ r o, parseJsonStream parse stream = Some o ∧ Emits parse (streamText stream) r o.
Proof.
  destruct (runStream_Emits stream [] [] []) as (outs & r & Hr & HE).
  { constructor. }
  exists r, (concat outs). unfold parseJsonStream. rewrite Hr. done.
Qed.

(** C1. Whatever the chunk boundaries, a stream carrying the same text makes
    the extractor yield the same values in the same order (and it does yield
    a result: the scan never runs out of fuel). *)
Theorem parseJsonStream_chunking (s1 s2 : list Chunk) :
  streamText s1 = streamText s2 →
  parseJsonStream parse s1 = parseJsonStream parse s2 ∧
  is_Some (parseJsonStream parse s1).
Proof.
  intros Heq.
  destruct (parseJsonStream_Emits s1) as (r1 & o1 & H1 & E1).
  destruct (parseJsonStream_Emits s2) as (r2 & o2 & H2 & E2).
  rewrite H1, H2. rewrite Heq in E1.
  destruct (Loop_det _ _ _ _ _ _ E1 E2) as [_ ->]. eauto.
Qed.

(** *** A trailing object that never closes *)

Lemma countBrace_add c n d : countBrace c (n + d) = (countBrace c n + d)%Z.
Proof. unfold countBrace. repeat case_match; lia. Qed.

Lemma countBrace_pos c n : (1 ≤ n)%Z → (0 ≤ countBrace c n)%Z.
Proof. unfold countBrace. repeat case_match; lia. Qed.

(** A scan that never gets back to depth 0 does not either from a greater
    depth. *)
Lemma scanEnd_deeper rest i start i' start' n d :
  (1 ≤ n)%Z → start < i → (0 ≤ d)%Z →
  scanEnd rest i start n = None → scanEnd rest i' start' (n + d) = None.
Proof.
  revert i i' n. induction rest as [|c rest IH]; intros i i' n Hn Hi Hd; simpl; [done|].
  pose proof (countBrace_pos c n Hn) as Hc.
  rewrite countBrace_add.
  destruct (Z.eqb_spec (countBrace c n) 0) as [H0|H0]; simpl.
  - destruct (Nat.ltb_spec start i); [done|lia].
  - intros H. destruct (Z.eqb_spec (countBrace c n + d) 0); [lia|]. simpl.
    apply (IH (S i)); [lia|lia|done|done].
Qed.

Lemma scanEnd_app_open rest tl i start n :
  (1 ≤ n)%Z → start < i →
  scanEnd rest i start n = None → scanEnd tl 1 0 1 = None →
  scanEnd (rest ++ LBRACE :: tl) i start n = None.
Proof.
  intros Hn Hi Hr Ht. revert i n Hn Hi Hr.
  induction rest as [|c rest IH]; intros i n Hn Hi; simpl.
  - intros _. unfold countBrace. simpl.
    destruct (Z.eqb_spec (n + 1) 0); [lia|]. simpl.
    replace (n + 1)%Z with (1 + n)%Z by lia.
    apply (scanEnd_deeper tl 1 0 _ _ 1 n); [lia|lia|lia|exact Ht].
  - pose proof (countBrace_pos c n Hn) as Hc.
    destruct (Z.eqb_spec (countBrace c n) 0) as [H0|H0]; simpl.
    + destruct (Nat.ltb_spec start i); [done|lia].
    + intros H. apply IH; [lia|lia|done].
Qed.

(** An opening brace at the head of [tail] whose depth never returns to 0. *)
Lemma findEnd_open_tail pre tl :
  findEnd (pre ++ LBRACE :: tl) (length pre) = None → scanEnd tl 1 0 1 = None.
Proof.
  unfold findEnd. rewrite drop_app_length. simpl.
  intros H.
  apply (scanEnd_deeper tl (S (length pre)) (length pre) 1 0 1 0); [lia|lia|lia|exact H].
Qed.

Lemma findEnd_at_tail b tl :
  scanEnd tl 1 0 1 = None → findEnd (b ++ LBRACE :: tl) (length b) = None.
Proof.
  intros H. unfold findEnd. rewrite drop_app_length. simpl.
  apply (scanEnd_deeper tl 1 0 _ _ 1 0); [lia|lia|lia|exact H].
Qed.

Lemma findEnd_app_open b tl st :
  b !! st = Some LBRACE → findEnd b st = None → scanEnd tl 1 0 1 = None →
  findEnd (b ++ LBRACE :: tl) st = None.
Proof.
  intros Hb Hf Ht. unfold findEnd in *.
  pose proof (lookup_lt_Some _ _ _ Hb) as Hlt.
  rewrite drop_app_le by lia.
  rewrite (drop_S _ _ _ Hb) in *. simpl in *.
  change (countBrace LBRACE 0) with 1%Z in *.
  apply scanEnd_app_open; [lia|lia|done|done].
Qed.

(** The loop on [b] followed by an object that never closes: the steps it
    takes on [b], then a stop at the open brace at the latest. *)
Lemma Loop_open b st r o :
  Loop parse b st r o → ∀ from tl,
  st = indexOf LBRACE b from → from ≤ length b → scanEnd tl 1 0 1 = None →
  Loop parse (b ++ LBRACE :: tl) (indexOf LBRACE (b ++ LBRACE :: tl) from)
    (r ++ LBRACE :: tl) o.
Proof.
  induction 1 as [b|b st Hf|b st e v r o Hf Hp _ IH|b st e r o Hf Hp _ IH];
    intros from tl Hst Hlen Ht.
  - symmetry in Hst. rewrite (indexOf_app_None _ _ _ _ Hst Hlen). simpl.
    rewrite Nat.add_0_r. apply Loop_break. by apply findEnd_at_tail.
  - symmetry in Hst. rewrite (indexOf_app_Some _ _ _ _ _ Hst).
    apply Loop_break. apply findEnd_app_open; [|done|done].
    by apply indexOf_Some in Hst as [_ ?].
  - symmetry in Hst. rewrite (indexOf_app_Some _ _ _ _ _ Hst).
    pose proof (findEnd_bounds _ _ _ Hf) as Hb.
    eapply Loop_emit.
    + by apply findEnd_app.
    + by rewrite substring_app by lia.
    + rewrite drop_app_le by lia. apply (IH 0 tl); [done|lia|done].
  - symmetry in Hst. rewrite (indexOf_app_Some _ _ _ _ _ Hst).
    pose proof (findEnd_bounds _ _ _ Hf) as Hb.
    eapply Loop_skip.
    + by apply findEnd_app.
    + by rewrite substring_app by lia.
    + apply (IH (st + 1) tl); [done|lia|done].
Qed.

(** C5, as amended. When the text of the stream is [pre] followed by an
    opening brace from which the brace count of the scan (one up at every
    opening brace, one down at every closing brace, inside string literals
    too) never comes back to zero, the extractor yields exactly what it
    yields on [pre] alone: nothing from that brace on is emitted, and the run
    ends with a result, not an error. *)
Theorem parseJsonStream_trailing_incomplete (stream : list Chunk) (pre tail : jsstring) :
  streamText stream = pre ++ tail →
  tail !! 0 = Some LBRACE →
  findEnd (pre ++ tail) (length pre) = None →
  parseJsonStream parse stream = parseJsonStream parse (chunks [pre]) ∧
  is_Some (parseJsonStream parse stream).
Proof.
  intros Htext Hhead Hopen.
  destruct tail as [|c tl]; [done|]. simpl in Hhead. injection Hhead as ->.
  apply findEnd_open_tail in Hopen.
  destruct (parseJsonStream_Emits stream) as (r & o & H & E).
  destruct (parseJsonStream_Emits (chunks [pre])) as (r1 & o1 & H1 & E1).
  rewrite H, H1. split; [|eauto]. f_equal.
  rewrite Htext in E. unfold streamText in E1. simpl in E1.
  rewrite app_nil_r in E1.
  pose proof (Loop_open _ _ _ _ E1 0 tl eq_refl ltac:(lia) Hopen) as E2.
  by destruct (Loop_det _ _ _ _ _ _ E E2) as [_ ->].
Qed.

End ExtractorFacts.
(** ** The undo/redo log *)

(** Unfolds the setters of the state's cells. *)
Ltac setters :=
  unfold pushToHistory, setCurrentSessionIndex, setSessions, setHistory,
    setFocusedArtifactIndex, setInputValue, setIsLoading, snapshot in *;
  simpl in *.

Section HistoryFacts.
Implicit Types (st : App) (a : AppState.t).

Lemma snapshot_setLive a st : snapshot (setLive a st) = a.
Proof. by destruct a. Qed.

Lemma last_take_snoc {A} (l : list A) (x : A) :
  list.last l = Some x → take (length l - 1) l ++ [x] = l.
Proof.
  intros H. apply last_Some in H as [l' ->].
  rewrite length_app. simpl.
  replace (length l' + 1 - 1) with (length l') by lia.
  by rewrite take_app_length.
Qed.

Lemma handleUndo_pushed st :
  history (handleUndo (pushToHistory st))
  = {| past := past (history st); future := [snapshot st] |}
  ∧ snapshot (handleUndo (pushToHistory st)) = snapshot st.
Proof.
  unfold handleUndo. simpl. rewrite last_snoc. simpl.
  rewrite length_app. simpl.
  replace (length (past (history st)) + 1 - 1) with (length (past (history st))) by lia.
  by rewrite take_app_length.
Qed.

(** Undo after a recorded action: the state recorded comes back, whatever
    the action did to the live state. *)
Lemma handleUndo_recorded a st :
  snapshot (handleUndo (setLive a (pushToHistory st))) = snapshot st
  ∧ history (handleUndo (setLive a (pushToHistory st)))
    = {| past := past (history st); future := [a] |}.
Proof.
  unfold handleUndo. simpl. rewrite last_snoc. simpl.
  rewrite length_app. simpl.
  replace (length (past (history st)) + 1 - 1) with (length (past (history st))) by lia.
  rewrite take_app_length. by destruct a.
Qed.

Lemma handleRedo_handleUndo st :
  past (history st) ≠ [] → handleRedo (handleUndo st) = st.
Proof.
  intros Hne. unfold handleUndo.
  destruct (list.last (past (history st))) as [[pss pi]|] eqn:Hl.
  - pose proof (last_take_snoc _ _ Hl) as E.
    destruct st as [ss i [p f] ? ? ?]. simpl in *.
    unfold handleRedo, setCurrentSessionIndex, setSessions, setHistory, snapshot.
    simpl. by rewrite E.
  - by apply last_None in Hl.
Qed.

Lemma handleUndo_handleRedo st :
  future (history st) ≠ [] → handleUndo (handleRedo st) = st.
Proof.
  intros Hne. unfold handleRedo.
  destruct (future (history st)) as [|next fut] eqn:Hf; [done|].
  unfold handleUndo. simpl. rewrite last_snoc. simpl.
  rewrite length_app. simpl.
  replace (length (past (history st)) + 1 - 1) with (length (past (history st))) by lia.
  rewrite take_app_length.
  destruct st as [ss i [p f] ? ? ?], next as [nss ni]. setters. by subst.
Qed.

Lemma handleUndo_past st :
  length (past (history (handleUndo st))) = length (past (history st)) - 1.
Proof.
  unfold handleUndo.
  destruct (list.last (past (history st))) as [previous|] eqn:Hl; simpl.
  - rewrite length_take. lia.
  - apply last_None in Hl. by rewrite Hl.
Qed.

Lemma undo_redo_n n : ∀ st,
  n ≤ length (past (history st)) →
  Nat.iter n handleRedo (Nat.iter n handleUndo st) = st.
Proof.
  induction n as [|n IH]; intros st Hn; [done|].
  rewrite (Nat.iter_succ_r _ handleUndo), Nat.iter_succ.
  rewrite IH by (rewrite handleUndo_past; lia).
  apply handleRedo_handleUndo. intros E. rewrite E in Hn. simpl in Hn. lia.
Qed.

Lemma timeline_handleUndo st : timeline (handleUndo st) = timeline st.
Proof.
  unfold handleUndo, timeline.
  destruct (list.last (past (history st))) as [[pss pi]|] eqn:Hl; [|done].
  pose proof (last_take_snoc _ _ Hl) as E.
  destruct st as [ss i [p f] ? ? ?]. setters.
  by rewrite cons_middle, app_assoc, E.
Qed.

Lemma timeline_handleRedo st : timeline (handleRedo st) = timeline st.
Proof.
  unfold handleRedo, timeline.
  destruct (future (history st)) as [|[nss ni] fut] eqn:Hf; [by rewrite Hf|].
  destruct st as [ss i [p f] ? ? ?]. setters.
  by rewrite <- app_assoc.
Qed.

Lemma timeline_replay ops st : timeline (replay ops st) = timeline st.
Proof.
  unfold replay. induction ops as [|[] ops IH] using rev_ind; [done| |];
    rewrite foldl_app; simpl.
  - by rewrite timeline_handleUndo.
  - by rewrite timeline_handleRedo.
Qed.

(** The live state is the entry of the timeline under the cursor. *)
Lemma timeline_cursor st :
  timeline st !! length (past (history st)) = Some (snapshot st).
Proof. unfold timeline. by rewrite list_lookup_middle. Qed.

Lemma recordAll_undo actions : ∀ st,
  snapshot (Nat.iter (length actions) handleUndo (recordAll actions st)) = snapshot st
  ∧ length actions ≤ length (past (history (recordAll actions st))).
Proof.
  induction actions as [|a actions IH] using rev_ind; intros st.
  - simpl. split; [done|lia].
  - unfold recordAll. rewrite foldl_app. simpl. fold (recordAll actions st).
    rewrite length_app. simpl. rewrite Nat.add_1_r. rewrite (Nat.iter_succ_r _ handleUndo).
    destruct (IH st) as [IH1 IH2].
    destruct (handleUndo_recorded a (recordAll actions st)) as [Hs Hh].
    split; [|rewrite length_app; simpl; lia].
    set (st1 := handleUndo (setLive a (pushToHistory (recordAll actions st)))) in *.
    set (st2 := recordAll actions st) in *.
    (* Undo only reads the live state and the past, which [st1] and [st2] share. *)
    assert (∀ n s s', snapshot s = snapshot s' → past (history s) = past (history s') →
                      snapshot (Nat.iter n handleUndo s) = snapshot (Nat.iter n handleUndo s')) as Hsame.
    { clear. induction n as [|n IHn]; intros s s' E1 E2; [done|].
      rewrite !Nat.iter_succ_r. apply IHn.
      - unfold handleUndo. rewrite E2. by destruct (list.last _).
      - unfold handleUndo. rewrite E2. by destruct (list.last _). }
    rewrite (Hsame _ st1 st2); [done|done|]. by rewrite Hh.
Qed.

(** C2. Recording and then undoing gives back the sessions and the index of
    the moment of recording, also after the recorded action changed them;
    redoing then gives back the values after the action. An undo followed by
    a redo (and a redo followed by an undo) is the identity on the whole
    state wherever the stack is not empty, [n] undos are reverted by [n]
    redos at any depth, [n] recorded actions are reverted by [n] undos, and
    no interleaving of undos and redos changes the timeline the cursor
    moves on. *)
Theorem history_roundtrip st :
  snapshot (handleUndo (pushToHistory st)) = snapshot st
  ∧ (∀ a, snapshot (handleUndo (setLive a (pushToHistory st))) = snapshot st)
  ∧ (∀ a, snapshot (handleRedo (handleUndo (setLive a (pushToHistory st)))) = a)
  ∧ (past (history st) ≠ [] → handleRedo (handleUndo st) = st)
  ∧ (future (history st) ≠ [] → handleUndo (handleRedo st) = st)
  ∧ (∀ n, n ≤ length (past (history st)) →
          Nat.iter n handleRedo (Nat.iter n handleUndo st) = st)
  ∧ (∀ actions,
       snapshot (Nat.iter (length actions) handleUndo (recordAll actions st)) = snapshot st
       ∧ Nat.iter (length actions) handleRedo
           (Nat.iter (length actions) handleUndo (recordAll actions st))
         = recordAll actions st)
  ∧ (∀ ops : list HistoryOp,
       timeline (replay ops st) = timeline st
       ∧ timeline st !! length (past (history (replay ops st)))
         = Some (snapshot (replay ops st))).
Proof.
  repeat split.
  - apply handleUndo_pushed.
  - intros a. apply handleUndo_recorded.
  - intros a. rewrite handleRedo_handleUndo; [apply snapshot_setLive|].
    simpl. by destruct (past (history st)).
  - apply handleRedo_handleUndo.
  - apply handleUndo_handleRedo.
  - intros n. apply undo_redo_n.
  - apply recordAll_undo.
  - apply undo_redo_n. apply recordAll_undo.
  - apply timeline_replay.
  - rewrite <- (timeline_replay ops st). apply timeline_cursor.
Qed.

(** C9. With an empty past, undo changes nothing: sessions, index and both
    stacks stay as they are; likewise redo with an empty future. *)
Theorem undo_redo_noop st :
  (past (history st) = [] → handleUndo st = st)
  ∧ (future (history st) = [] → handleRedo st = st).
Proof.
  split; intros H.
  - unfold handleUndo. by rewrite H.
  - unfold handleRedo. by rewrite H.
Qed.

End HistoryFacts.
(** ** Style names *)

Section StyleFacts.

Lemma matchBracketed_head s m :
  matchBracketed s = Some m → ∃ r, m = LBRACKET :: r.
Proof.
  unfold matchBracketed.
  destruct (indexOf LBRACKET s 0) as [i|] eqn:Hi; simpl; [|done].
  destruct (lastIndexOf RBRACKET s) as [j|]; simpl; [|done].
  destruct (Nat.ltb_spec i j) as [Hij|]; [|done].
  intros [= <-]. apply indexOf_Some in Hi as [_ Hi].
  unfold substring. rewrite (drop_S _ _ _ Hi).
  replace (j + 1 - i) with (S (j - i)) by lia. simpl. eauto.
Qed.

(** A text that starts with a bracket parses to an array or not at all. *)
Lemma JSON_parse_bracket r v :
  JSON_parse (LBRACKET :: r) = Some v → ∃ l, v = JArray l.
Proof.
  unfold JSON_parse.
  replace (2 * length (LBRACKET :: r) + 2) with (S (2 * length (LBRACKET :: r) + 1)) by lia.
  generalize (2 * length (LBRACKET :: r) + 1). intros fuel.
  destruct (parseValue (S fuel) (LBRACKET :: r)) as [[v' r']|] eqn:E; simpl; [|done].
  destruct (skipWs r'); [|done]. intros [= <-].
  simpl in E. destruct (skipWs r) as [|d r2]; [done|].
  destruct (N.eqb d RBRACKET).
  - injection E as <- _. eauto.
  - destruct (parseElements fuel r) as [[vs r3]|]; simpl in E; [|done].
    injection E as <- _. eauto.
Qed.

Lemma matchBracketed_parses_array s m v :
  matchBracketed s = Some m → JSON_parse m = Some v → ∃ l, v = JArray l.
Proof.
  intros Hm Hp. apply matchBracketed_head in Hm as [r ->].
  by eapply JSON_parse_bracket.
Qed.

(** C7. The names handed to the artifacts are always exactly three: the
    three fallback names when no bracketed text is found, when it does not
    parse, or when the array parsed has fewer than three entries; the first
    three entries of the array otherwise (a parsed value is always an array).
    The response [Here you go: ["A","B","C","D"]] gives [A], [B], [C]. *)
Theorem extractStyles_three_names (responseText : option jsstring) :
  length (extractStyles responseText) = 3
  ∧ (matchBracketed (styleText responseText) = None →
     extractStyles responseText = fallbackStyles)
  ∧ (∀ m, matchBracketed (styleText responseText) = Some m →
       (JSON_parse m = None → extractStyles responseText = fallbackStyles)
       ∧ (∀ v, JSON_parse m = Some v → ∃ l, v = JArray l)
       ∧ (∀ l, JSON_parse m = Some (JArray l) → length l < 3 →
               extractStyles responseText = fallbackStyles)
       ∧ (∀ l, JSON_parse m = Some (JArray l) → 3 ≤ length l →
               extractStyles responseText = take 3 l))
  ∧ extractStyles (Some (u "Here you go: " ++ uq "['A','B','C','D']"))
    = [JString (u "A"); JString (u "B"); JString (u "C")].
Proof.
  split_and!.
  - unfold extractStyles.
    destruct (Nat.ltb_spec (length (parsedStyles responseText)) 3); [done|].
    rewrite length_take. lia.
  - intros H. unfold extractStyles, parsedStyles. by rewrite H.
  - intros m Hm. unfold extractStyles, parsedStyles. rewrite Hm. split_and!.
    + by intros ->.
    + intros v Hv. by eapply matchBracketed_parses_array.
    + intros l -> Hl. by destruct (Nat.ltb_spec (length l) 3); [|lia].
    + intros l -> Hl. by destruct (Nat.ltb_spec (length l) 3); [lia|].
  - vm_compute. reflexivity.
Qed.

End StyleFacts.

(** ** Sessions under the transitions *)

Section TransitionFacts.
Implicit Types (st : App) (ss : list Session.t) (P : AppState.t → Prop).

(** *** What the updates keep *)

Lemma length_imap_artifacts (f : nat → Artifact.t → Artifact.t) (arts : list Artifact.t) :
  length (imap f arts) = length arts.
Proof. apply length_imap. Qed.

Lemma artifactCounts_updateArtifact sessionId artifactId f ss :
  artifactCounts (updateArtifact sessionId artifactId f ss) = artifactCounts ss.
Proof.
  unfold artifactCounts, updateArtifact. rewrite <- list_fmap_compose.
  apply list_fmap_ext. intros _ s _. simpl.
  case_decide; [|done]. simpl. by rewrite length_fmap.
Qed.

Lemma artifactCounts_updateFocused i j f ss :
  artifactCounts (updateFocused i j f ss) = artifactCounts ss.
Proof.
  unfold artifactCounts, updateFocused. apply list_eq. intros k.
  rewrite !list_lookup_fmap, list_lookup_imap.
  destruct (ss !! k) as [s|]; [|done]. simpl.
  case_decide; [|done]. simpl. by rewrite length_imap.
Qed.

Lemma artifactCounts_setStyleNames sessionId generatedStyles ss :
  artifactCounts (setStyleNames sessionId generatedStyles ss) = artifactCounts ss.
Proof.
  unfold artifactCounts, setStyleNames. rewrite <- list_fmap_compose.
  apply list_fmap_ext. intros _ s _. simpl.
  case_decide; [done|]. simpl. by rewrite length_imap.
Qed.

Lemma artifactCounts_applyWrite w ss :
  artifactCounts (applyWrite w ss) = artifactCounts ss.
Proof. destruct w; apply artifactCounts_updateArtifact. Qed.

Lemma artifactCounts_length ss : length (artifactCounts ss) = length ss.
Proof. apply length_fmap. Qed.

Lemma ThreeArtifacts_counts (a : AppState.t) :
  ThreeArtifacts a ↔ Forall (λ n, n = 3) (artifactCounts (AppState.sessions a)).
Proof. unfold ThreeArtifacts, artifactCounts. by rewrite Forall_fmap. Qed.

(** *** A property of the live state and of every snapshot *)

Lemma Everywhere_pushToHistory P st : Everywhere P st → Everywhere P (pushToHistory st).
Proof.
  intros (Hl & Hp & Hf). split_and!; setters; [done| |done].
  apply Forall_app. split; [done|]. by apply Forall_singleton.
Qed.

Lemma Everywhere_live P st st' :
  history st' = history st → P (snapshot st') → Everywhere P st → Everywhere P st'.
Proof. intros Hh Hs (Hl & Hp & Hf). unfold Everywhere. by rewrite Hh. Qed.

Lemma Everywhere_handleUndo P st : Everywhere P st → Everywhere P (handleUndo st).
Proof.
  intros H. pose proof H as (Hl & Hp & Hf). unfold handleUndo.
  destruct (list.last (past (history st))) as [[pss pi]|] eqn:Hlast; [|done].
  split_and!; setters.
  - apply last_Some_elem_of in Hlast. by apply (proj1 (Forall_forall _ _) Hp) in Hlast.
  - by apply Forall_take.
  - by constructor.
Qed.

Lemma Everywhere_handleRedo P st : Everywhere P st → Everywhere P (handleRedo st).
Proof.
  intros H. pose proof H as (Hl & Hp & Hf). unfold handleRedo.
  destruct (future (history st)) as [|[nss ni] fut] eqn:Hfut; [done|].
  apply Forall_cons in Hf as [Hn Hfut'].
  split_and!; setters; [done| |done].
  apply Forall_app. split; [done|]. by apply Forall_singleton.
Qed.

(** *** Three artifacts per session *)

Lemma length_placeholderArtifacts sessionId : length (placeholderArtifacts sessionId) = 3.
Proof. reflexivity. Qed.

Lemma ThreeArtifacts_update (f : list Session.t → list Session.t) ss i :
  artifactCounts (f ss) = artifactCounts ss →
  ThreeArtifacts (AppState.mk ss i) → ThreeArtifacts (AppState.mk (f ss) i).
Proof. rewrite !ThreeArtifacts_counts. simpl. by intros ->. Qed.

(** The history is untouched: the property is to be shown of the new live
    state only. *)
Ltac live_only H :=
  eapply Everywhere_live; [ | | exact H]; [reflexivity|]; destruct H as (H & _).

Lemma step_ThreeArtifacts a st :
  Everywhere ThreeArtifacts st → Everywhere ThreeArtifacts (step a st).
Proof.
  intros H. destruct a; simpl.
  - (* send *)
    unfold handleSendMessage. case_match; [done|].
    assert (Everywhere ThreeArtifacts
              (pushToHistory match manualPrompt with
                             | Some (_ :: _) => st
                             | _ => setInputValue [] st
                             end)) as (Hl & Hp & Hf).
    { apply Everywhere_pushToHistory. by destruct manualPrompt as [[|]|]. }
    split_and!; [|done|done].
    replace (snapshot _) with
      (AppState.mk (sessions st ++ [newSession sessionId (trim (promptToUse manualPrompt st)) baseTime])
                   (currentSessionIndex st + 1)) by (by destruct manualPrompt as [[|]|]).
    unfold ThreeArtifacts. simpl. apply Forall_app. split.
    + destruct H as (H & _). apply H.
    + by apply Forall_singleton.
  - (* style names *)
    live_only H.
    by apply (ThreeArtifacts_update _ _ _ (artifactCounts_setStyleNames _ _ _)).
  - (* a write of generateArtifact *)
    live_only H.
    by apply (ThreeArtifacts_update _ _ _ (artifactCounts_applyWrite _ _)).
  - by live_only H.
  - (* applyVariation *)
    unfold applyVariation. apply Everywhere_pushToHistory in H.
    destruct (focusedArtifactIndex st) as [focused|]; [|done].
    live_only H.
    by apply (ThreeArtifacts_update _ _ _ (artifactCounts_updateFocused _ _ _ _)).
  - (* handleGenerateImages *)
    unfold handleGenerateImages. repeat case_match; try done.
    apply Everywhere_pushToHistory in H. by live_only H.
  - live_only H.
    by apply (ThreeArtifacts_update _ _ _ (artifactCounts_updateFocused _ _ _ _)).
  - by live_only H.
  - (* nextItem *)
    unfold nextItem. repeat case_match; try done; try (by live_only H).
    apply Everywhere_pushToHistory in H. by live_only H.
  - unfold prevItem. repeat case_match; try done; try (by live_only H).
    apply Everywhere_pushToHistory in H. by live_only H.
  - by apply Everywhere_handleUndo.
  - by apply Everywhere_handleRedo.
Qed.

Lemma run_ThreeArtifacts actions : ∀ st,
  Everywhere ThreeArtifacts st → Everywhere ThreeArtifacts (run actions st).
Proof.
  unfold run. induction actions as [|a actions IH]; intros st H; [done|].
  simpl. apply IH. by apply step_ThreeArtifacts.
Qed.

(** The artifact counts of the sessions are left as they are by every
    transition that is not a submission, an undo or a redo; a submission
    adds one session, of three artifacts. *)
Lemma step_artifactCounts a st :
  match a with
  | ASend manualPrompt baseTime sessionId =>
      artifactCounts (sessions (step a st)) = artifactCounts (sessions st)
      ∨ artifactCounts (sessions (step a st)) = artifactCounts (sessions st) ++ [3]
  | AUndo | ARedo => True
  | _ => artifactCounts (sessions (step a st)) = artifactCounts (sessions st)
  end.
Proof.
  destruct a; simpl; try done.
  - unfold handleSendMessage. case_match; [by left|]. right.
    destruct manualPrompt as [[|]|]; setters; unfold artifactCounts; by rewrite fmap_app.
  - apply artifactCounts_setStyleNames.
  - apply artifactCounts_applyWrite.
  - unfold applyVariation. destruct (focusedArtifactIndex st); [|done].
    apply artifactCounts_updateFocused.
  - unfold handleGenerateImages. by repeat case_match.
  - apply artifactCounts_updateFocused.
  - unfold nextItem. by repeat case_match.
  - unfold prevItem. by repeat case_match.
Qed.

(** C4. A session is created with exactly three artifacts, and from a state
    in which every session (live or in the undo/redo log) has three, every
    sequence of transitions (submissions, style-name updates, streaming
    writes, final and error writes, applied variations, generated images,
    navigation, undo and redo) leads to a state in which every session has
    three: no transition changes a session's artifact count. *)
Theorem sessions_have_three_artifacts (actions : list Action) (st : App) :
  Everywhere ThreeArtifacts st →
  (∀ sessionId trimmedInput baseTime,
     length (Session.artifacts (newSession sessionId trimmedInput baseTime)) = 3)
  ∧ Everywhere ThreeArtifacts (run actions st)
  ∧ (∀ a, match a with
          | ASend _ _ _ =>
              artifactCounts (sessions (step a st)) = artifactCounts (sessions st)
              ∨ artifactCounts (sessions (step a st)) = artifactCounts (sessions st) ++ [3]
          | AUndo | ARedo => True
          | _ => artifactCounts (sessions (step a st)) = artifactCounts (sessions st)
          end).
Proof.
  intros H. split_and!.
  - done.
  - by apply run_ThreeArtifacts.
  - intros a. apply step_artifactCounts.
Qed.

(** *** The current index *)

Lemma length_updateArtifact sessionId artifactId f ss :
  length (updateArtifact sessionId artifactId f ss) = length ss.
Proof. apply length_fmap. Qed.

Lemma length_updateFocused i j f ss : length (updateFocused i j f ss) = length ss.
Proof. apply length_imap. Qed.

Lemma length_setStyleNames sessionId generatedStyles ss :
  length (setStyleNames sessionId generatedStyles ss) = length ss.
Proof. apply length_fmap. Qed.

Lemma length_applyWrite w ss : length (applyWrite w ss) = length ss.
Proof. destruct w; apply length_updateArtifact. Qed.

Lemma ValidIndex_update (f : list Session.t → list Session.t) ss i :
  length (f ss) = length ss →
  ValidIndex (AppState.mk ss i) → ValidIndex (AppState.mk (f ss) i).
Proof. unfold ValidIndex. simpl. by intros ->. Qed.

(** [currentSessionIndex] stays [-1] or a valid index, in the live state and
    in every snapshot, under every transition. *)
Lemma step_ValidIndex a st :
  Everywhere ValidIndex st → Everywhere ValidIndex (step a st).
Proof.
  intros H. destruct a; simpl.
  - unfold handleSendMessage. case_match; [done|].
    assert (Everywhere ValidIndex
              (pushToHistory match manualPrompt with
                             | Some (_ :: _) => st
                             | _ => setInputValue [] st
                             end)) as (Hl & Hp & Hf).
    { apply Everywhere_pushToHistory. by destruct manualPrompt as [[|]|]. }
    split_and!; [|done|done].
    replace (snapshot _) with
      (AppState.mk (sessions st ++ [newSession sessionId (trim (promptToUse manualPrompt st)) baseTime])
                   (currentSessionIndex st + 1)) by (by destruct manualPrompt as [[|]|]).
    destruct H as (H & _). unfold ValidIndex in *. simpl in *.
    rewrite length_app. simpl. lia.
  - live_only H. by apply (ValidIndex_update _ _ _ (length_setStyleNames _ _ _)).
  - live_only H. by apply (ValidIndex_update _ _ _ (length_applyWrite _ _)).
  - by live_only H.
  - unfold applyVariation. apply Everywhere_pushToHistory in H.
    destruct (focusedArtifactIndex st) as [focused|]; [|done].
    live_only H. by apply (ValidIndex_update _ _ _ (length_updateFocused _ _ _ _)).
  - unfold handleGenerateImages. repeat case_match; try done.
    apply Everywhere_pushToHistory in H. by live_only H.
  - live_only H. by apply (ValidIndex_update _ _ _ (length_updateFocused _ _ _ _)).
  - by live_only H.
  - unfold nextItem. repeat case_match; try done; try (by live_only H).
    apply Everywhere_pushToHistory in H. live_only H.
    unfold ValidIndex in *. simpl in *. lia.
  - unfold prevItem. repeat case_match; try done; try (by live_only H).
    apply Everywhere_pushToHistory in H. live_only H.
    unfold ValidIndex in *. simpl in *. lia.
  - by apply Everywhere_handleUndo.
  - by apply Everywhere_handleRedo.
Qed.

Lemma run_ValidIndex actions : ∀ st,
  Everywhere ValidIndex st → Everywhere ValidIndex (run actions st).
Proof.
  unfold run. induction actions as [|a actions IH]; intros st H; [done|].
  simpl. apply IH. by apply step_ValidIndex.
Qed.

(** C10. A submission that goes through appends the new session at the end
    of the list and adds one to [currentSessionIndex]: the new session is
    the one displayed exactly when the index was the last one before; when
    it was lower, the session displayed is the old one that follows; and an
    index that was [-1] or valid becomes a valid index. Being [-1] or valid
    is kept by every transition, so it holds of every state reached from a
    fresh page. *)
Theorem submit_moves_index_by_one (manualPrompt : option jsstring) (baseTime : Z)
    (sessionId : jsstring) (st : App) :
  trim (promptToUse manualPrompt st) ≠ [] → isLoading st = false →
  let fresh := newSession sessionId (trim (promptToUse manualPrompt st)) baseTime in
  let st' := handleSendMessage manualPrompt baseTime sessionId st in
  let last := (Z.of_nat (length (sessions st)) - 1)%Z in
  sessions st' = sessions st ++ [fresh]
  ∧ currentSessionIndex st' = (currentSessionIndex st + 1)%Z
  ∧ (currentSessionIndex st' = Z.of_nat (length (sessions st))
     ↔ currentSessionIndex st = last)
  ∧ (currentSessionIndex st = last →
     nthZ (sessions st') (currentSessionIndex st') = Some fresh)
  ∧ ((-1 ≤ currentSessionIndex st < last)%Z →
     nthZ (sessions st') (currentSessionIndex st')
     = nthZ (sessions st) (currentSessionIndex st + 1)
     ∧ is_Some (nthZ (sessions st) (currentSessionIndex st + 1)))
  ∧ (ValidIndex (snapshot st) →
     (0 ≤ currentSessionIndex st' < Z.of_nat (length (sessions st')))%Z)
  ∧ (∀ actions, Everywhere ValidIndex (run actions initialApp)).
Proof.
  intros Hne Hload. cbv zeta.
  assert (sessions (handleSendMessage manualPrompt baseTime sessionId st)
          = sessions st ++ [newSession sessionId (trim (promptToUse manualPrompt st)) baseTime]
          ∧ currentSessionIndex (handleSendMessage manualPrompt baseTime sessionId st)
            = (currentSessionIndex st + 1)%Z) as [Hs Hi].
  { unfold handleSendMessage. rewrite Hload, orb_false_r.
    rewrite bool_decide_eq_false_2 by done.
    by destruct manualPrompt as [[|]|]. }
  rewrite Hs, Hi. split_and!; try done.
  - lia.
  - intros E. unfold nthZ. case_match; [lia|].
    rewrite lookup_app_r by lia.
    replace (Z.to_nat (currentSessionIndex st + 1) - length (sessions st)) with 0 by lia.
    done.
  - intros Hr. unfold nthZ. case_match; [lia|]. split.
    + apply lookup_app_l. lia.
    + apply lookup_lt_is_Some. lia.
  - unfold ValidIndex. simpl. rewrite length_app. simpl. lia.
  - intros actions. apply run_ValidIndex.
    unfold Everywhere, ValidIndex. simpl. split_and!; try lia; constructor.
Qed.

End TransitionFacts.
(** ** The three generation tasks *)

Section PipelineFacts.
Implicit Types (w : Write) (art : Artifact.t) (sess : Session.t) (run : TaskRun).

Lemma applyWrite_updateArtifact w prev :
  applyWrite w prev = updateArtifact (wSession w) (wArtifact w) (wPatch w) prev.
Proof. by destruct w. Qed.

Lemma wPatch_id w art : Artifact.id (wPatch w art) = Artifact.id art.
Proof. by destruct w. Qed.

Lemma wPatch_styleName w art : Artifact.styleName (wPatch w art) = Artifact.styleName art.
Proof. by destruct w. Qed.

Lemma withArtifacts_same sess : withArtifacts sess (Session.artifacts sess) = sess.
Proof. by destruct sess. Qed.

(** *** A trace acts on each artifact separately *)

Lemma artifactAfter_cons w trace sessionId art :
  artifactAfter (w :: trace) sessionId art
  = artifactAfter trace sessionId
      (if decide (sessionId = wSession w) then
         if decide (Artifact.id art = wArtifact w) then wPatch w art else art
       else art).
Proof. done. Qed.

Lemma applyWrites_pointwise trace : ∀ prev,
  applyWrites trace prev = sessionAfter trace <$> prev.
Proof.
  induction trace as [|w trace IH]; intros prev.
  - unfold sessionAfter. simpl. rewrite <- (list_fmap_id prev) at 1.
    apply list_fmap_ext. intros _ sess _. simpl.
    by rewrite list_fmap_id, withArtifacts_same.
  - unfold applyWrites in *. simpl. rewrite IH, applyWrite_updateArtifact.
    unfold updateArtifact. rewrite <- list_fmap_compose.
    apply list_fmap_ext. intros _ sess _. unfold compose, sessionAfter. cbv beta.
    destruct (decide (Session.id sess = wSession w)) as [E|E].
    + unfold withArtifacts at 1 2 3 4. cbn [Session.id Session.artifacts].
      rewrite <- list_fmap_compose. unfold withArtifacts. f_equal.
      apply list_fmap_ext. intros _ art _. unfold compose.
      rewrite artifactAfter_cons.
      by destruct (decide (Session.id sess = wSession w)).
    + f_equal. apply list_fmap_ext. intros _ art _.
      rewrite artifactAfter_cons.
      by destruct (decide (Session.id sess = wSession w)).
Qed.

Lemma artifactAfter_id trace : ∀ sessionId art,
  Artifact.id (artifactAfter trace sessionId art) = Artifact.id art.
Proof.
  induction trace as [|w trace IH]; intros sessionId art; [done|].
  rewrite artifactAfter_cons, IH. repeat case_decide; try done. apply wPatch_id.
Qed.

(** Only the writes that name the artifact count, in their order. *)
Lemma artifactAfter_filter trace : ∀ sessionId art,
  artifactAfter trace sessionId art
  = foldl (λ art w, wPatch w art) art
      (filter (λ w, sessionId = wSession w ∧ Artifact.id art = wArtifact w) trace).
Proof.
  induction trace as [|w trace IH]; intros sessionId art; [done|].
  rewrite artifactAfter_cons, IH. rewrite filter_cons.
  destruct (decide (sessionId = wSession w)) as [E1|E1];
    [destruct (decide (Artifact.id art = wArtifact w)) as [E2|E2]|].
  - rewrite decide_True by done. simpl.
    f_equal. apply list_filter_iff. intros w'. by rewrite wPatch_id.
  - rewrite decide_False by (intros [? ?]; done). done.
  - rewrite decide_False by (intros [? ?]; done). done.
Qed.

(** *** The writes of one task *)

Lemma streamWrites_spec sessionId artifactId received : ∀ accumulatedHtml,
  (streamWrites sessionId artifactId accumulatedHtml received).2
  = accumulatedHtml ++ streamText received
  ∧ Forall (λ w, ∃ h, w = WriteHtml sessionId artifactId h)
      (streamWrites sessionId artifactId accumulatedHtml received).1.
Proof.
  induction received as [|[[t|]] received IH]; intros acc; simpl.
  - by rewrite app_nil_r.
  - destruct (IH (acc ++ t)) as [IH1 IH2].
    destruct (streamWrites _ _ (acc ++ t) received) as [ws final]. simpl in *.
    split.
    + unfold streamText in *. simpl. by rewrite IH1, app_assoc.
    + constructor; eauto.
  - apply IH.
Qed.

Lemma omap_landed_Lands (ws : list Write) : omap landed (Lands <$> ws) = ws.
Proof. induction ws as [|w ws IH]; [done|]. simpl. by f_equal. Qed.

(** The writes of a task: those of the loop, and the last one unless the
    updater of the [catch] raises. *)
Lemma taskWrites_eq sessionId artifactId run :
  taskWrites sessionId artifactId run
  = (streamWrites sessionId artifactId [] (received run)).1
    ++ match ending run with
       | Ends => [WriteFinal sessionId artifactId
                    (finalizeHtml (streamWrites sessionId artifactId [] (received run)).2)]
       | Throws (Some message) => [WriteError sessionId artifactId message]
       | Throws None => []
       end.
Proof.
  unfold taskWrites, taskEffects.
  destruct (streamWrites _ _ _ _) as [ws final]. cbv beta iota.
  rewrite omap_app, omap_landed_Lands. cbn [fst snd]. by destruct (ending run) as [|[message|]].
Qed.

Lemma taskWrites_target sessionId artifactId run :
  Forall (λ w, wSession w = sessionId ∧ wArtifact w = artifactId)
         (taskWrites sessionId artifactId run).
Proof.
  rewrite taskWrites_eq.
  destruct (streamWrites_spec sessionId artifactId (received run) []) as [_ H].
  destruct (streamWrites _ _ _ _) as [ws final]. simpl in *.
  assert (Forall (λ w, wSession w = sessionId ∧ wArtifact w = artifactId) ws) as Hws.
  { eapply Forall_impl; [exact H|]. by intros w [h ->]. }
  destruct (ending run) as [|[message|]]; apply Forall_app; split; try done;
    by repeat constructor.
Qed.

(** The last write of a task decides the html and the status; none touches
    the id or the style name. *)
Lemma taskWrites_finish sessionId artifactId run art art' :
  finish art run = Some art' →
  foldl (λ art w, wPatch w art) art (taskWrites sessionId artifactId run) = art'.
Proof.
  rewrite taskWrites_eq. unfold finish, outcome.
  destruct (streamWrites_spec sessionId artifactId (received run) []) as [Hacc _].
  destruct (streamWrites _ _ _ _) as [ws final]. simpl in *. subst final.
  assert (∀ ws art, Artifact.id (foldl (λ art w, wPatch w art) art ws) = Artifact.id art
                    ∧ Artifact.styleName (foldl (λ art w, wPatch w art) art ws)
                      = Artifact.styleName art) as Hkeep.
  { clear. induction ws as [|w ws IH]; intros art; [done|]. simpl.
    destruct (IH (wPatch w art)) as [-> ->]. by rewrite wPatch_id, wPatch_styleName. }
  destruct (Hkeep ws art) as [Hid Hname].
  destruct (ending run) as [|[message|]]; simpl; [| |done];
    intros [= <-]; rewrite foldl_app; simpl;
    unfold withHtmlStatus; by rewrite Hid, Hname.
Qed.

(** *** The effects of one task *)

Lemma taskEffects_readable sessionId artifactId run :
  ending run ≠ Throws None →
  taskEffects sessionId artifactId run = Lands <$> taskWrites sessionId artifactId run.
Proof.
  intros Hr. rewrite taskWrites_eq. unfold taskEffects.
  destruct (streamWrites _ _ _ _) as [ws final]. simpl.
  rewrite fmap_app. by destruct (ending run) as [|[message|]].
Qed.

Lemma taskEffects_raises sessionId artifactId run :
  ending run = Throws None →
  Raises sessionId artifactId ∈ taskEffects sessionId artifactId run.
Proof.
  intros E. unfold taskEffects. destruct (streamWrites _ _ _ _) as [ws final].
  rewrite E, elem_of_app, elem_of_cons. auto.
Qed.

Lemma outcome_None run : outcome run = None ↔ ending run = Throws None.
Proof. unfold outcome. by destruct (ending run) as [|[message|]]. Qed.

Lemma readable_or_not (runs : list TaskRun) :
  Forall (λ run, ending run ≠ Throws None) runs
  ∨ ∃ run, run ∈ runs ∧ ending run = Throws None.
Proof.
  induction runs as [|run runs [IH|(run' & Hin & E)]]; [by left| |].
  - destruct (ending run) as [|[message|]] eqn:E.
    + left. constructor; [by rewrite E|done].
    + left. constructor; [by rewrite E|done].
    + right. exists run. split; [apply list_elem_of_here|done].
  - right. exists run'. split; [by apply list_elem_of_further|done].
Qed.

Lemma finish_None art run : finish art run = None ↔ ending run = Throws None.
Proof.
  rewrite <- outcome_None. unfold finish.
  by destruct (outcome run) as [[html status]|].
Qed.

Lemma filter_none {A} (P : A → Prop) `{∀ x, Decision (P x)} (l : list A) :
  Forall (λ x, ¬ P x) l → filter P l = [].
Proof.
  induction 1 as [|x l Hx _ IH]; [done|].
  rewrite filter_cons. by rewrite decide_False.
Qed.

(** *** Interleavings *)

(** The writes of one task, picked out of an interleaving, are the task's
    writes in the task's order. *)
Lemma Merge_filter {A} (P : A → Prop) `{∀ x, Decision (P x)} queues trace :
  Merge queues trace → ∀ k q,
  queues !! k = Some q → Forall P q →
  (∀ j q', j ≠ k → queues !! j = Some q' → Forall (λ x, ¬ P x) q') →
  filter P trace = q.
Proof.
  induction 1 as [queues Hall|i x q0 queues trace Hi _ IH]; intros k q Hk HP Hother.
  - rewrite Forall_lookup in Hall. by rewrite (Hall _ _ Hk).
  - rewrite filter_cons. destruct (decide (i = k)) as [->|Hik].
    + rewrite Hk in Hi. injection Hi as ->.
      apply Forall_cons in HP as [Hx Hq0]. rewrite decide_True by done.
      f_equal. apply (IH k q0).
      * rewrite list_lookup_insert_eq; [done|]. by eapply lookup_lt_Some.
      * done.
      * intros j q' Hj. rewrite list_lookup_insert_ne by done. by apply Hother.
    + pose proof (Hother i _ Hik Hi) as Hnot.
      apply Forall_cons in Hnot as [Hx Hq0]. rewrite decide_False by done.
      apply (IH k q).
      * by rewrite list_lookup_insert_ne.
      * done.
      * intros j q' Hj. destruct (decide (j = i)) as [->|Hji].
        -- rewrite list_lookup_insert_eq by (by eapply lookup_lt_Some).
           by intros [= <-].
        -- rewrite list_lookup_insert_ne by done. by apply Hother.
Qed.

Lemma Merge_Forall {A} (Q : A → Prop) queues trace :
  Merge queues trace → Forall (Forall Q) queues → Forall Q trace.
Proof.
  induction 1 as [queues Hall|i x q0 queues trace Hi _ IH]; intros HQ; [done|].
  pose proof (Forall_lookup_1 _ _ _ _ HQ Hi) as Hxq.
  apply Forall_cons in Hxq as [Hx Hq0].
  constructor; [done|]. apply IH. by apply Forall_insert.
Qed.

(** Every effect of every task occurs in an interleaving. *)
Lemma Merge_elem {A} (queues : list (list A)) trace :
  Merge queues trace → ∀ k q x, queues !! k = Some q → x ∈ q → x ∈ trace.
Proof.
  induction 1 as [queues Hall|i y q0 queues trace Hi _ IH]; intros k q x Hk Hx.
  - rewrite Forall_lookup in Hall. rewrite (Hall _ _ Hk) in Hx. by apply elem_of_nil in Hx.
  - destruct (decide (i = k)) as [->|Hik].
    + rewrite Hk in Hi. injection Hi as ->.
      apply elem_of_cons in Hx as [->|Hx]; [apply list_elem_of_here|].
      apply list_elem_of_further, (IH k q0); [|done].
      rewrite list_lookup_insert_eq; [done|]. by eapply lookup_lt_Some.
    + apply list_elem_of_further, (IH k q); [|done].
      by rewrite list_lookup_insert_ne.
Qed.

(** An interleaving of tasks, with some steps left out of every task, is an
    interleaving of what is left of the tasks. *)
Lemma Merge_omap {A B} (f : A → option B) (queues : list (list A)) trace :
  Merge queues trace → Merge (omap (M := list) f <$> queues) (omap (M := list) f trace).
Proof.
  induction 1 as [queues Hall|i x q0 queues trace Hi _ IH].
  - constructor. apply Forall_fmap. eapply Forall_impl; [exact Hall|]. by intros q ->.
  - rewrite list_fmap_insert in IH. simpl. destruct (f x) as [y|] eqn:Hfx.
    + apply (Merge_step i y (omap f q0)); [|done].
      rewrite list_lookup_fmap, Hi. simpl. by rewrite Hfx.
    + rewrite list_insert_id in IH; [done|].
      rewrite list_lookup_fmap, Hi. simpl. by rewrite Hfx.
Qed.

(** *** Effects in order *)

Lemma applyEffects_cons e trace prev :
  applyEffects (e :: trace) prev
  = match applyEffect e prev with
    | Some next => applyEffects trace next
    | None => None
    end.
Proof.
  unfold applyEffects. simpl. destruct (applyEffect e prev) as [next|]; [done|].
  clear. induction trace as [|e' trace IH]; [done|]. simpl. apply IH.
Qed.

Lemma applyEffects_Lands (trace : list Write) : ∀ prev,
  applyEffects (Lands <$> trace) prev = Some (applyWrites trace prev).
Proof.
  induction trace as [|w trace IH]; intros prev; [done|].
  rewrite fmap_cons, applyEffects_cons. simpl. apply IH.
Qed.

(** The artifact [artifactId] of the session [sessionId] is in the state. *)
Lemma updateArtifactE_raises sessionId artifactId prev sess art :
  sess ∈ prev → Session.id sess = sessionId →
  art ∈ Session.artifacts sess → Artifact.id art = artifactId →
  updateArtifactE sessionId artifactId (λ _, None) prev = None.
Proof.
  intros Hs Hsid Ha Haid. apply mapM_None, Exists_exists. exists sess. split; [done|].
  rewrite decide_True by done.
  replace (mapM _ (Session.artifacts sess)) with (@None (list Artifact.t)); [done|].
  symmetry. apply mapM_None, Exists_exists. exists art. split; [done|].
  by rewrite decide_True.
Qed.

(** When the updater of the [catch] returns, it found no artifact to
    change. *)
Lemma updateArtifactE_returns sessionId artifactId prev next :
  updateArtifactE sessionId artifactId (λ _, None) prev = Some next → next = prev.
Proof.
  intros H. apply mapM_Some in H. symmetry.
  induction H as [|sess sess' prev next Hs _ IH]; [done|]. f_equal; [|done].
  destruct (decide (Session.id sess = sessionId)); [|congruence].
  destruct (mapM _ (Session.artifacts sess)) as [arts|] eqn:Harts; [|done].
  injection Hs as <-. apply mapM_Some in Harts.
  etrans; [symmetry; apply withArtifacts_same|]. f_equal.
  clear -Harts. induction Harts as [|art art' arts arts' Ha _ IH]; [done|].
  f_equal; [|done]. destruct (decide (Artifact.id art = artifactId)); congruence.
Qed.

Lemma applyWrite_keeps_artifact w prev sess art :
  sess ∈ prev → art ∈ Session.artifacts sess →
  ∃ sess' art', sess' ∈ applyWrite w prev ∧ Session.id sess' = Session.id sess
                ∧ art' ∈ Session.artifacts sess' ∧ Artifact.id art' = Artifact.id art.
Proof.
  intros Hs Ha. rewrite applyWrite_updateArtifact. unfold updateArtifact.
  destruct (decide (Session.id sess = wSession w)) as [E|E].
  - eexists _, _. split_and!.
    + apply list_elem_of_fmap. exists sess. split; [reflexivity|done].
    + rewrite decide_True by done. by destruct sess.
    + rewrite decide_True by done. destruct sess; simpl in *.
      apply list_elem_of_fmap. exists art. split; [reflexivity|done].
    + case_decide; [apply wPatch_id|done].
  - exists sess, art. split_and!; try done.
    apply list_elem_of_fmap. exists sess. by rewrite decide_False.
Qed.

(** Once the updater of a [catch] is queued that raises on an artifact of
    the state, no state is left, whatever else is queued. *)
Lemma applyEffects_raises sessionId artifactId trace : ∀ prev sess art,
  Raises sessionId artifactId ∈ trace →
  sess ∈ prev → Session.id sess = sessionId →
  art ∈ Session.artifacts sess → Artifact.id art = artifactId →
  applyEffects trace prev = None.
Proof.
  induction trace as [|e trace IH]; intros prev sess art Hin Hs Hsid Ha Haid.
  { by apply elem_of_nil in Hin. }
  rewrite applyEffects_cons.
  destruct (applyEffect e prev) as [next|] eqn:He; [|done].
  destruct e as [w|sessionId' artifactId']; simpl in He.
  - injection He as <-.
    apply elem_of_cons in Hin as [?|Hin]; [done|].
    destruct (applyWrite_keeps_artifact w prev sess art Hs Ha)
      as (sess' & art' & Hs' & Hsid' & Ha' & Haid').
    apply (IH _ sess' art'); congruence.
  - pose proof (updateArtifactE_returns _ _ _ _ He) as ->.
    apply elem_of_cons in Hin as [[= <- <-]|Hin].
    + by rewrite (updateArtifactE_raises sessionId artifactId prev sess art) in He.
    + by apply (IH _ sess art).
Qed.

(** *** The artifacts after the three tasks *)

Lemma placeholder_ids_NoDup sessionId :
  NoDup (Artifact.id <$> placeholderArtifacts sessionId).
Proof.
  assert (∀ a b : N, a ≠ b → sessionId ++ [95; a]%N ≠ sessionId ++ [95; b]%N) as Hne.
  { intros a b Hab E. apply app_inv_head in E. congruence. }
  cbn. repeat constructor; rewrite ?elem_of_cons, ?elem_of_nil.
  - intros [E|[E|[]]]; by apply Hne in E.
  - intros [E|[]]; by apply Hne in E.
  - intros [].
Qed.

Lemma generationWrites_lookup sessionId runs k run :
  runs !! k = Some run → k < 3 →
  ∃ artifactId, (Artifact.id <$> placeholderArtifacts sessionId) !! k = Some artifactId
                ∧ generationWrites sessionId runs !! k
                  = Some (taskWrites sessionId artifactId run).
Proof.
  intros Hr Hk. unfold generationWrites.
  destruct (lookup_lt_is_Some_2 (placeholderArtifacts sessionId) k) as [art Ha]; [done|].
  exists (Artifact.id art). rewrite list_lookup_fmap, Ha. split; [done|].
  rewrite lookup_zip_with, Ha. simpl. by rewrite Hr.
Qed.

Lemma generationWrites_inv sessionId runs j q :
  generationWrites sessionId runs !! j = Some q →
  ∃ artifactId run, (Artifact.id <$> placeholderArtifacts sessionId) !! j = Some artifactId
                    ∧ q = taskWrites sessionId artifactId run.
Proof.
  unfold generationWrites. rewrite lookup_zip_with, list_lookup_fmap.
  destruct (placeholderArtifacts sessionId !! j) as [art|]; simpl; [|done].
  destruct (runs !! j) as [run|]; simpl; [|done].
  intros [= <-]. eauto.
Qed.

Lemma generationWrites_landed sessionId runs :
  generationWrites sessionId runs
  = omap (M := list) landed <$> generationEffects sessionId runs.
Proof.
  unfold generationWrites, generationEffects, taskWrites.
  generalize (placeholderArtifacts sessionId). intros arts. revert runs.
  induction arts as [|art arts IH]; intros [|run runs]; try done.
  simpl. by rewrite IH.
Qed.

Lemma generationEffects_lookup sessionId runs k run :
  runs !! k = Some run → k < 3 →
  ∃ artifactId, (Artifact.id <$> placeholderArtifacts sessionId) !! k = Some artifactId
                ∧ generationEffects sessionId runs !! k
                  = Some (taskEffects sessionId artifactId run).
Proof.
  intros Hr Hk. unfold generationEffects.
  destruct (lookup_lt_is_Some_2 (placeholderArtifacts sessionId) k) as [art Ha]; [done|].
  exists (Artifact.id art). rewrite list_lookup_fmap, Ha. split; [done|].
  rewrite lookup_zip_with, Ha. simpl. by rewrite Hr.
Qed.

Lemma generationEffects_inv sessionId runs j q :
  generationEffects sessionId runs !! j = Some q →
  ∃ artifactId run, runs !! j = Some run ∧ q = taskEffects sessionId artifactId run.
Proof.
  unfold generationEffects. rewrite lookup_zip_with.
  destruct (placeholderArtifacts sessionId !! j) as [art|]; simpl; [|done].
  destruct (runs !! j) as [run|]; simpl; [|done].
  intros [= <-]. eauto.
Qed.

(** An artifact of the session ends as its own task leaves it, whatever the
    other tasks do and however the writes interleave. *)
Lemma artifactAfter_generation sessionId runs trace k run art art' :
  Merge (generationWrites sessionId runs) trace →
  runs !! k = Some run → k < 3 →
  (Artifact.id <$> placeholderArtifacts sessionId) !! k = Some (Artifact.id art) →
  finish art run = Some art' →
  artifactAfter trace sessionId art = art'.
Proof.
  intros HM Hr Hk Hid Hfin. rewrite artifactAfter_filter.
  destruct (generationWrites_lookup sessionId runs k run Hr Hk) as (aid & Haid & Hq).
  rewrite Hid in Haid. injection Haid as <-.
  rewrite (Merge_filter _ _ _ HM k _ Hq).
  - by apply taskWrites_finish.
  - eapply Forall_impl; [apply taskWrites_target|]. by intros w [-> ->].
  - intros j q' Hj Hq'.
    apply generationWrites_inv in Hq' as (aid' & run' & Haid' & ->).
    eapply Forall_impl; [apply taskWrites_target|].
    intros w [_ Hw] [_ E]. rewrite Hw in E.
    apply Hj. eapply NoDup_lookup; [apply (placeholder_ids_NoDup sessionId)| |];
      [exact Haid'|]. by rewrite <- E.
Qed.

(** When no stream throws a value without a readable message, every updater
    returns, and the state is the one its writes give. *)
Lemma applyEffects_readable sessionId runs trace prev :
  Merge (generationEffects sessionId runs) trace →
  Forall (λ run, ending run ≠ Throws None) runs →
  applyEffects trace prev = Some (applyWrites (omap landed trace) prev).
Proof.
  intros HM Hruns.
  assert (Forall (λ e, ∃ w, e = Lands w) trace) as Hall.
  { eapply (Merge_Forall _ _ _ HM). apply Forall_forall. intros q Hq.
    apply list_elem_of_lookup in Hq as [j Hq].
    apply generationEffects_inv in Hq as (aid & run & Hrun & ->).
    rewrite taskEffects_readable.
    - apply Forall_fmap, Forall_forall. intros w _. by exists w.
    - eapply Forall_lookup_1 in Hruns; [|exact Hrun]. done. }
  rewrite <- applyEffects_Lands. f_equal. clear -Hall.
  induction Hall as [|e trace [w ->] _ IH]; [done|]. simpl. f_equal. exact IH.
Qed.

(** The artifacts of the session, after runs whose updaters all return. *)
Lemma finishAll_Some arts runs final :
  length arts = length runs →
  finishAll arts runs = Some final ↔
  length final = length arts
  ∧ ∀ k art run, arts !! k = Some art → runs !! k = Some run →
      ∃ art', final !! k = Some art' ∧ finish art run = Some art'.
Proof.
  intros Hlen. unfold finishAll. rewrite mapM_Some. split.
  - intros H. split.
    + apply Forall2_length in H. rewrite length_zip in H. lia.
    + intros k art run Ha Hr.
      destruct (Forall2_lookup_l _ _ _ k (art, run) H) as (art' & Hf & Hfin).
      { rewrite lookup_zip_with, Ha. simpl. by rewrite Hr. }
      eauto.
  - intros [Hl H]. apply Forall2_same_length_lookup_2.
    + rewrite length_zip. lia.
    + intros k [art run] art' Hz Hf.
      rewrite lookup_zip_with in Hz.
      destruct (arts !! k) as [art0|] eqn:Ha; [|done]. simpl in Hz.
      destruct (runs !! k) as [run0|] eqn:Hr; [|done]. simpl in Hz.
      injection Hz as -> ->.
      destruct (H k art run Ha Hr) as (art'' & Hf' & Hfin). simpl. congruence.
Qed.

Lemma finishAll_None arts runs :
  length arts = length runs →
  finishAll arts runs = None ↔ ∃ run, run ∈ runs ∧ ending run = Throws None.
Proof.
  intros Hlen. unfold finishAll. rewrite mapM_None, Exists_exists. split.
  - intros ([art run] & Hin & Hfin). exists run.
    apply list_elem_of_lookup in Hin as [k Hk].
    rewrite lookup_zip_with in Hk.
    destruct (arts !! k) as [art0|]; [|done]. simpl in Hk.
    destruct (runs !! k) as [run0|] eqn:Hr; [|done]. injection Hk as -> ->.
    split; [by eapply list_elem_of_lookup_2|]. by apply (finish_None art).
  - intros (run & Hin & E). apply list_elem_of_lookup in Hin as [k Hk].
    destruct (lookup_lt_is_Some_2 arts k) as [art Ha].
    { rewrite Hlen. by eapply lookup_lt_Some. }
    exists (art, run). split.
    + apply (list_elem_of_lookup_2 _ k). rewrite lookup_zip_with, Ha. simpl. by rewrite Hk.
    + by apply finish_None.
Qed.

Lemma sessionAfter_other sessionId trace sess :
  Forall (λ w, wSession w = sessionId) trace → Session.id sess ≠ sessionId →
  sessionAfter trace sess = sess.
Proof.
  intros Hall Hne. unfold sessionAfter.
  etrans; [|apply withArtifacts_same]. f_equal.
  etrans; [|apply list_fmap_id].
  apply list_fmap_ext. intros _ art _. simpl.
  rewrite artifactAfter_filter.
  rewrite filter_none; [done|].
  eapply Forall_impl; [exact Hall|]. intros w Hw [E _]. congruence.
Qed.

(** C6, as amended. The three tasks write into the session the submission
    created, each naming its own artifact; the other sessions have other ids.
    A stream that throws a value whose message can be read and printed leaves
    the inline message and the status [error] in its artifact; a stream that
    ends leaves the finalized html, with the status [complete] when that html
    is not empty after trimming and fence stripping. When every stream ends
    or throws such a value, then, however the updates of the three tasks
    interleave, the session ends with each artifact as its own task leaves
    it; in particular, when one task throws and the two others end with such
    html, one artifact is in error, with the inline message as its html, and
    two are complete. When some stream throws a value whose message cannot be
    read or printed, as [null] and [undefined], the updater of its [catch]
    raises on the artifact and no state is left, for any of the three. No
    write changes an artifact other than the one it names, and an updater of
    a [catch] that returns without a message to print changed nothing. *)
Theorem generation_fault_isolation (sessionId : jsstring) (sess : Session.t)
    (before after : list Session.t) (runs : list TaskRun) (trace : list Effect) :
  Session.id sess = sessionId →
  Artifact.id <$> Session.artifacts sess = Artifact.id <$> placeholderArtifacts sessionId →
  Forall (λ s, Session.id s ≠ sessionId) (before ++ after) →
  length runs = 3 →
  Merge (generationEffects sessionId runs) trace →
  let final := finishAll (Session.artifacts sess) runs in
  applyEffects trace (before ++ sess :: after)
  = (λ arts, before ++ withArtifacts sess arts :: after) <$> final
  ∧ (final = None ↔ ∃ run, run ∈ runs ∧ ending run = Throws None)
  ∧ (∀ arts, final = Some arts →
       Forall2 (λ art' '(art, run),
                  Artifact.id art' = Artifact.id art
                  ∧ Artifact.styleName art' = Artifact.styleName art
                  ∧ outcome run = Some (Artifact.html art', Artifact.status art'))
               arts (zip (Session.artifacts sess) runs))
  ∧ (∀ run message, ending run = Throws (Some message) →
       outcome run = Some (errorHtml message, error))
  ∧ (∀ run, ending run = Ends → finalizeHtml (streamText (received run)) ≠ [] →
       outcome run = Some (finalizeHtml (streamText (received run)), complete))
  ∧ (∀ k run message,
       runs !! k = Some run → ending run = Throws (Some message) →
       (∀ j run', j ≠ k → runs !! j = Some run' →
          ending run' = Ends ∧ finalizeHtml (streamText (received run')) ≠ []) →
       ∃ arts, final = Some arts
               ∧ Artifact.status <$> arts = <[k := error]> [complete; complete; complete]
               ∧ Artifact.html <$> arts !! k = Some (errorHtml message))
  ∧ (∀ w prev,
       Forall2 (λ s s', Forall2 (λ a a', Artifact.id a ≠ wArtifact w → a' = a)
                          (Session.artifacts s) (Session.artifacts s'))
               prev (applyWrite w prev))
  ∧ (∀ sessionId' artifactId prev next,
       applyEffect (Raises sessionId' artifactId) prev = Some next → next = prev).
Proof.
  intros Hid Hids Hothers Hlen HM. cbv zeta.
  assert (∀ run message, ending run = Throws (Some message) →
            outcome run = Some (errorHtml message, error)) as Hthrow.
  { intros run message E. unfold outcome. by rewrite E. }
  assert (∀ run, ending run = Ends → finalizeHtml (streamText (received run)) ≠ [] →
            outcome run = Some (finalizeHtml (streamText (received run)), complete)) as Hend.
  { intros run E Hne. unfold outcome. rewrite E.
    by destruct (finalizeHtml (streamText (received run))). }
  assert (length (Session.artifacts sess) = 3) as Harts.
  { rewrite <- (length_fmap Artifact.id), Hids. by rewrite length_fmap. }
  assert (length (Session.artifacts sess) = length runs) as Hsame by lia.
  split_and!; [|by apply finishAll_None| |done|done| | |].
  - destruct (finishAll (Session.artifacts sess) runs) as [final|] eqn:Hfin.
    + apply finishAll_Some in Hfin as [Hfl Hfin]; [|done].
      assert (Forall (λ run, ending run ≠ Throws None) runs) as Hread.
      { apply Forall_lookup. intros k run Hrun E.
        destruct (lookup_lt_is_Some_2 (Session.artifacts sess) k) as [art Ha].
        { rewrite Hsame. by eapply lookup_lt_Some. }
        destruct (Hfin k art run Ha Hrun) as (art' & _ & Hf).
        apply (finish_None art) in E. congruence. }
      rewrite (applyEffects_readable sessionId runs) by done. simpl. f_equal.
      apply (Merge_omap landed) in HM. rewrite <- generationWrites_landed in HM.
      set (wtrace := omap landed trace) in *.
      rewrite applyWrites_pointwise, fmap_app, fmap_cons.
      assert (Forall (λ w, wSession w = sessionId) wtrace) as Hall.
      { eapply (Merge_Forall _ _ _ HM). apply Forall_forall. intros q Hq.
        apply list_elem_of_lookup in Hq as [j Hq].
        apply generationWrites_inv in Hq as (aid & run & _ & ->).
        eapply Forall_impl; [apply taskWrites_target|]. by intros w [? _]. }
      apply Forall_app in Hothers as [Hb Ha].
      f_equal; [|f_equal].
      * etrans; [|apply list_fmap_id]. apply Forall_fmap_ext_1.
        eapply Forall_impl; [exact Hb|]. intros s Hs.
        by apply (sessionAfter_other sessionId).
      * unfold sessionAfter. f_equal. rewrite Hid.
        apply list_eq. intros k. rewrite list_lookup_fmap.
        destruct (Session.artifacts sess !! k) as [art|] eqn:Hart; simpl.
        -- pose proof (lookup_lt_Some _ _ _ Hart) as Hk. rewrite Harts in Hk.
           destruct (lookup_lt_is_Some_2 runs k) as [run Hrun]; [lia|].
           destruct (Hfin k art run Hart Hrun) as (art' & -> & Hf). f_equal.
           apply (artifactAfter_generation sessionId runs wtrace k run art art' HM Hrun Hk);
             [|done].
           rewrite <- Hids, list_lookup_fmap, Hart. done.
        -- symmetry. apply lookup_ge_None. rewrite Hfl. by apply lookup_ge_None.
      * etrans; [|apply list_fmap_id]. apply Forall_fmap_ext_1.
        eapply Forall_impl; [exact Ha|]. intros s Hs.
        by apply (sessionAfter_other sessionId).
    + simpl. apply finishAll_None in Hfin as (run & Hin & E); [|done].
      apply list_elem_of_lookup in Hin as [k Hrun].
      pose proof (lookup_lt_Some _ _ _ Hrun) as Hk. rewrite Hlen in Hk.
      destruct (generationEffects_lookup sessionId runs k run Hrun Hk)
        as (aid & Haid & Hq).
      rewrite <- Hids, list_lookup_fmap in Haid.
      destruct (Session.artifacts sess !! k) as [art|] eqn:Hart; [|done].
      injection Haid as <-.
      apply (applyEffects_raises sessionId (Artifact.id art) trace _ sess art); try done.
      * eapply (Merge_elem _ _ HM k); [exact Hq|]. by apply taskEffects_raises.
      * rewrite elem_of_app, elem_of_cons. auto.
      * by eapply list_elem_of_lookup_2.
  - intros final Hfin. apply finishAll_Some in Hfin as [Hfl Hfin]; [|done].
    apply Forall2_same_length_lookup_2; [rewrite length_zip; lia|].
    intros k art' [art run] Hf Hz. rewrite lookup_zip_with in Hz.
    destruct (Session.artifacts sess !! k) as [art0|] eqn:Ha; [|done]. simpl in Hz.
    destruct (runs !! k) as [run0|] eqn:Hr; [|done]. injection Hz as -> ->.
    destruct (Hfin k art run Ha Hr) as (art'' & Hf' & Hfinish).
    rewrite Hf in Hf'. injection Hf' as <-. unfold finish in Hfinish.
    destruct (outcome run) as [[html status]|]; [|done].
    by injection Hfinish as <-.
  - intros k run message Hrun Hthr Hrest.
    destruct (Session.artifacts sess) as [|a0 [|a1 [|a2 [|]]]]; try done.
    destruct runs as [|r0 [|r1 [|r2 [|]]]]; try done.
    assert (∀ j run', j ≠ k → [r0; r1; r2] !! j = Some run' →
              ∃ html, outcome run' = Some (html, complete)) as Hok.
    { intros j run' Hj Hr'. destruct (Hrest j run' Hj Hr') as [E Hne].
      rewrite (Hend run' E Hne). eauto. }
    unfold finishAll, finish.
    destruct k as [|[|[|k]]]; simpl in Hrun; try done; injection Hrun as ->;
      simpl; rewrite (Hthrow _ _ Hthr); simpl.
    + destruct (Hok 1 r1) as [h1 ->]; [done..|].
      destruct (Hok 2 r2) as [h2 ->]; [done..|]. simpl. eauto.
    + destruct (Hok 0 r0) as [h0 ->]; [done..|].
      destruct (Hok 2 r2) as [h2 ->]; [done..|]. simpl. eauto.
    + destruct (Hok 0 r0) as [h0 ->]; [done..|].
      destruct (Hok 1 r1) as [h1 ->]; [done..|]. simpl. eauto.
  - intros w prev. rewrite applyWrite_updateArtifact. unfold updateArtifact.
    apply Forall2_fmap_r, Forall_Forall2_diag, Forall_forall. intros s _.
    unfold compose. cbv beta.
    destruct (decide (Session.id s = wSession w)); simpl.
    + apply Forall2_fmap_r, Forall_Forall2_diag, Forall_forall. intros a _.
      unfold compose. cbv beta.
      by destruct (decide (Artifact.id a = wArtifact w)).
    + apply Forall_Forall2_diag, Forall_forall. by intros a _.
  - intros sessionId' artifactId prev next H. by apply updateArtifactE_returns in H.
Qed.

End PipelineFacts.
(** ** Export *)

Section ExportFacts.

Lemma includes_wrapped title html :
  includes (templateHead ++ title ++ templateMiddle ++ html ++ templateTail) DOCTYPE = true.
Proof. reflexivity. Qed.

Lemma includes_wrapHtml html title : includes (wrapHtml html title) DOCTYPE = true.
Proof.
  unfold wrapHtml. destruct (includes html DOCTYPE) eqn:E; [done|].
  apply includes_wrapped.
Qed.

Lemma template_shape :
  startsWith templateHead DOCTYPE = true
  ∧ includes templateHead (u "<head>") = true
  ∧ endsWith templateHead (u "<title>") = true
  ∧ startsWith templateMiddle (u "</title>") = true
  ∧ includes templateMiddle (u "</head>") = true
  ∧ endsWith templateMiddle (unlines [u "<body>"; u "    "]) = true
  ∧ templateTail = unlines [[]; u "</body>"; u "</html>"].
Proof. by vm_compute. Qed.

(** C8, as amended. [wrapHtml] returns its input unchanged exactly when the
    input holds the text [<!DOCTYPE html>], in this spelling, anywhere;
    otherwise the result is the template, from the doctype through head and
    body, with the title in its [title] element and the input in its body.
    Either way the result holds that text, so wrapping again changes nothing.
    A download saves a file exactly when there is a current session and the
    artifact in focus has a style name that is a string; the file then holds
    [wrapHtml] of the html of that artifact, the title being the sanitized
    prompt, [ - ] and the sanitized style name, and so holds the doctype. *)
Theorem wrapHtml_self_contained (html title : jsstring) (st : App) :
  (wrapHtml html title = html ↔ includes html DOCTYPE = true)
  ∧ (includes html DOCTYPE = false →
     wrapHtml html title = templateHead ++ title ++ templateMiddle ++ html ++ templateTail)
  ∧ (startsWith templateHead DOCTYPE = true
     ∧ includes templateHead (u "<head>") = true
     ∧ endsWith templateHead (u "<title>") = true
     ∧ startsWith templateMiddle (u "</title>") = true
     ∧ includes templateMiddle (u "</head>") = true
     ∧ endsWith templateMiddle (unlines [u "<body>"; u "    "]) = true
     ∧ templateTail = unlines [[]; u "</body>"; u "</html>"])
  ∧ includes (wrapHtml html title) DOCTYPE = true
  ∧ (∀ title', wrapHtml (wrapHtml html title) title' = wrapHtml html title)
  ∧ (∀ filename content,
       handleDownloadArtifact st = Saved filename content ↔
       ∃ currentSession focused artifact styleName,
         nthZ (sessions st) (currentSessionIndex st) = Some currentSession
         ∧ focusedArtifactIndex st = Some focused
         ∧ Session.artifacts currentSession !! focused = Some artifact
         ∧ Artifact.styleName artifact = Some (JString styleName)
         ∧ let safePrompt :=
             substring (toLowerCase (replaceNonAlnum (Session.prompt currentSession))) 0 30 in
           let safeStyle := toLowerCase (replaceNonAlnum styleName) in
           filename = u "flash-" ++ safePrompt ++ u "-" ++ safeStyle ++ u ".html"
           ∧ content = wrapHtml (Artifact.html artifact) (safePrompt ++ u " - " ++ safeStyle))
  ∧ (∀ filename content, handleDownloadArtifact st = Saved filename content →
       includes content DOCTYPE = true).
Proof.
  refine (conj _ (conj _ (conj template_shape (conj _ (conj _ (conj _ _)))))).
  - split.
    + intros E. rewrite <- E. apply includes_wrapHtml.
    + intros E. unfold wrapHtml. by rewrite E.
  - intros E. unfold wrapHtml. by rewrite E.
  - apply includes_wrapHtml.
  - intros title'. unfold wrapHtml at 1. by rewrite includes_wrapHtml.
  - intros filename content. unfold handleDownloadArtifact. split.
    + destruct (nthZ _ _) as [currentSession|] eqn:Hc;
        [|by destruct (focusedArtifactIndex st)].
      destruct (focusedArtifactIndex st) as [focused|]; [|done].
      destruct (_ !! focused) as [artifact|] eqn:Ha; [|done].
      destruct (Artifact.styleName artifact) as [[| | |styleName| |]|] eqn:Hn; try done.
      intros [= <- <-]. by exists currentSession, focused, artifact, styleName.
    + intros (currentSession & focused & artifact & styleName
              & -> & -> & -> & -> & -> & ->). done.
  - intros filename content. unfold handleDownloadArtifact.
    repeat case_match; try done. intros [= <- <-]. apply includes_wrapHtml.
Qed.

End ExportFacts.

(** ** History entries under reference semantics *)

Section RefFacts.
Implicit Types (h : Heap) (l : loc) (r : AppRef) (st : App).

(** *** Reads are stable when the heap grows *)

Lemma readArrayV_Some {T} (rd : Heap → loc → option T) h l vs :
  readArrayV rd h l = Some vs ↔
  ∃ ls, h !! l = Some (ArrayObj ls) ∧ Forall2 (λ x v, rd h x = Some v) ls vs.
Proof.
  unfold readArrayV. split.
  - destruct (h !! l) as [[| |ls]|]; try done. intros H. exists ls. split; [done|].
    by apply mapM_Some.
  - intros (ls & -> & H). by apply mapM_Some.
Qed.

Lemma readArtifactV_stable : Stable readArtifactV.
Proof.
  intros h h' l v Hp. unfold readArtifactV.
  destruct (h !! l) as [o|] eqn:E; [|done].
  by rewrite (prefix_lookup_Some _ _ _ _ E Hp).
Qed.

Lemma readArrayV_stable {T} (rd : Heap → loc → option T) :
  Stable rd → Stable (readArrayV rd).
Proof.
  intros Hrd h h' l vs Hp. rewrite !readArrayV_Some. intros (ls & E & H).
  exists ls. split; [by eapply prefix_lookup_Some|].
  eapply Forall2_impl; [exact H|]. intros x v Hx. by eapply Hrd.
Qed.

Lemma readSessionV_stable : Stable readSessionV.
Proof.
  intros h h' l v Hp. unfold readSessionV.
  destruct (h !! l) as [o|] eqn:E; [|done].
  rewrite (prefix_lookup_Some _ _ _ _ E Hp).
  destruct o as [|id prompt ts arts|]; try done.
  destruct (readArrayV readArtifactV h arts) as [arts'|] eqn:Ha; [|done].
  by rewrite (readArrayV_stable _ readArtifactV_stable _ _ _ _ Hp Ha).
Qed.

Lemma readSessionsV_stable : Stable readSessionsV.
Proof. apply readArrayV_stable, readSessionV_stable. Qed.

Lemma readSnap_stable h h' e a :
  h `prefix_of` h' → readSnap h e = Some a → readSnap h' e = Some a.
Proof.
  intros Hp. unfold readSnap.
  destruct (readSessionsV h (snapSessions e)) as [ss|] eqn:E; [|done].
  by rewrite (readSessionsV_stable _ _ _ _ Hp E).
Qed.

(** *** The monad *)

Lemma Runs_ret {A} (x : A) h (Q : A → Heap → Prop) : Q x h → Runs (mret x) h Q.
Proof. intros H. by exists x, h. Qed.

Lemma Runs_bind {A B} (m : M A) (k : A → M B) h (Q : B → Heap → Prop) :
  Runs m h (λ x h1, Runs (k x) h1 Q) → Runs (m ≫= k) h Q.
Proof.
  intros (x & h1 & Hm & Hp1 & y & h2 & Hk & Hp2 & HQ).
  exists y, h2. split_and!; [|by etrans|done].
  unfold mbind, M_bind. by rewrite Hm.
Qed.

Lemma Runs_alloc o h (Q : loc → Heap → Prop) :
  Q (length h) (h ++ [o]) → Runs (alloc o) h Q.
Proof. intros H. exists (length h), (h ++ [o]). split_and!; [done| |done]. by apply prefix_app_r. Qed.

Lemma Runs_weaken {A} (m : M A) h (Q Q' : A → Heap → Prop) :
  (∀ x h', h `prefix_of` h' → Q x h' → Q' x h') → Runs m h Q → Runs m h Q'.
Proof. intros HQ (x & h' & Hm & Hp & H). exists x, h'. eauto. Qed.

Lemma lookup_alloc h o : (h ++ [o]) !! length h = Some o.
Proof. by rewrite lookup_app_r, Nat.sub_diag by lia. Qed.

(** *** [map] on an array of references *)

Lemma mapFrom_spec {T} (rd : Heap → loc → option T) (f : nat → loc → M loc)
    (g : nat → T → T) :
  Stable rd →
  (∀ i x v h, rd h x = Some v → Runs (f i x) h (λ y h', rd h' y = Some (g i v))) →
  ∀ ls vs i h,
    Forall2 (λ x v, rd h x = Some v) ls vs →
    Runs (mapFrom f i ls) h
      (λ ys h', Forall2 (λ y v, rd h' y = Some v) ys (imap (λ k, g (i + k)) vs)).
Proof.
  intros Hrd Hf ls. induction ls as [|x ls IH]; intros vs i h H.
  - apply Forall2_nil_inv_l in H as ->. apply Runs_ret. constructor.
  - apply Forall2_cons_inv_l in H as (v & vs' & Hx & Hrest & ->).
    simpl mapFrom. apply Runs_bind.
    eapply Runs_weaken; [|apply (Hf i x v h Hx)]. intros y h1 Hp1 Hy. simpl in Hy.
    apply Runs_bind. eapply Runs_weaken; [|apply (IH vs' (S i) h1)].
    + intros ys h2 Hp2 Hys. simpl in Hys. apply Runs_ret. simpl. constructor.
      * rewrite Nat.add_0_r. by eapply Hrd.
      * erewrite imap_ext; [exact Hys|]. intros k z _. simpl. f_equal. lia.
    + eapply Forall2_impl; [exact Hrest|]. intros z w Hz. by eapply Hrd.
Qed.

Lemma Runs_readArray l h ls (Q : list loc → Heap → Prop) :
  h !! l = Some (ArrayObj ls) → Q ls h → Runs (readArray l) h Q.
Proof. intros E H. exists ls, h. unfold readArray. by rewrite E. Qed.

Lemma jsMap_spec {T} (rd : Heap → loc → option T) (f : nat → loc → M loc)
    (g : nat → T → T) arr vs h :
  Stable rd →
  (∀ i x v h, rd h x = Some v → Runs (f i x) h (λ y h', rd h' y = Some (g i v))) →
  readArrayV rd h arr = Some vs →
  Runs (jsMap f arr) h (λ arr' h', readArrayV rd h' arr' = Some (imap g vs)).
Proof.
  intros Hrd Hf H. apply readArrayV_Some in H as (ls & E & H).
  unfold jsMap. apply Runs_bind. eapply Runs_readArray; [exact E|].
  apply Runs_bind.
  eapply Runs_weaken; [|apply (mapFrom_spec rd f g Hrd Hf ls vs 0 h H)].
  intros ys h1 Hp1 Hys. simpl in Hys. apply Runs_alloc.
  apply readArrayV_Some. exists ys. split; [apply lookup_alloc|].
  eapply Forall2_impl; [exact Hys|]. intros y v Hy.
  eapply Hrd; [|exact Hy]. by apply prefix_app_r.
Qed.

Lemma jsAppend_spec {T} (rd : Heap → loc → option T) prev x vs v h :
  Stable rd → readArrayV rd h prev = Some vs → rd h x = Some v →
  Runs (jsAppend prev x) h (λ l h', readArrayV rd h' l = Some (vs ++ [v])).
Proof.
  intros Hrd H Hx. apply readArrayV_Some in H as (ls & E & H).
  unfold jsAppend. apply Runs_bind. eapply Runs_readArray; [exact E|].
  apply Runs_alloc. apply readArrayV_Some. exists (ls ++ [x]).
  split; [apply lookup_alloc|].
  apply Forall2_app.
  - eapply Forall2_impl; [exact H|]. intros y w Hy.
    eapply Hrd; [|exact Hy]. by apply prefix_app_r.
  - constructor; [|constructor]. eapply Hrd; [|exact Hx]. by apply prefix_app_r.
Qed.

(** *** The updates of [sessions] *)

Lemma mapSessionsR_spec selS selA patch prev ss h :
  readSessionsV h prev = Some ss →
  Runs (mapSessionsR selS selA patch prev) h
    (λ l h', readSessionsV h' l = Some (mapSessions selS selA patch ss)).
Proof.
  intros H. unfold mapSessionsR, mapSessions.
  apply (jsMap_spec readSessionV); [apply readSessionV_stable| |exact H].
  intros i sl s h0 Hs. unfold readSessionV in Hs.
  destruct (h0 !! sl) as [[|id prompt ts arts|]|] eqn:E; try done.
  destruct (readArrayV readArtifactV h0 arts) as [arts'|] eqn:Ha; [|done].
  injection Hs as <-. simpl.
  apply Runs_bind. exists (id, prompt, ts, arts), h0.
  split_and!; [unfold readSession; by rewrite E|done|].
  destruct (selS i id).
  - apply Runs_bind.
    eapply Runs_weaken;
      [|apply (jsMap_spec readArtifactV _ (λ j a, if selA j a then patch j a else a)
                 arts arts' h0 readArtifactV_stable); [|exact Ha]].
    + intros arr h1 Hp1 Harr. simpl in Harr. apply Runs_alloc.
      unfold readSessionV. rewrite lookup_alloc.
      erewrite (readArrayV_stable _ readArtifactV_stable); [done| |exact Harr].
      by apply prefix_app_r.
    + intros j al a h1 Hal. unfold readArtifactV in Hal.
      destruct (h1 !! al) as [[a'| |]|] eqn:E0; try done. injection Hal as ->.
      apply Runs_bind. exists a, h1.
      split_and!; [unfold readArtifact; by rewrite E0|done|].
      destruct (selA j a).
      * apply Runs_alloc. unfold readArtifactV. by rewrite lookup_alloc.
      * apply Runs_ret. unfold readArtifactV. by rewrite E0.
  - apply Runs_ret. unfold readSessionV. rewrite E, Ha. done.
Qed.

Lemma updateArtifact_mapSessions sessionId artifactId f prev :
  updateArtifact sessionId artifactId f prev
  = mapSessions (λ _ id, bool_decide (id = sessionId))
                (λ _ a, bool_decide (Artifact.id a = artifactId)) (λ _, f) prev.
Proof.
  unfold updateArtifact, mapSessions. rewrite <- imap_const.
  apply imap_ext. intros k s _. simpl.
  destruct (decide (Session.id s = sessionId)) as [E|E].
  - rewrite bool_decide_eq_true_2 by done. f_equal.
    rewrite <- imap_const. apply imap_ext. intros k' a _. simpl.
    by destruct (decide (Artifact.id a = artifactId));
      [rewrite bool_decide_eq_true_2|rewrite bool_decide_eq_false_2].
  - by rewrite bool_decide_eq_false_2.
Qed.

Lemma updateFocused_mapSessions i j f prev :
  updateFocused i j f prev
  = mapSessions (λ k _, bool_decide (Z.of_nat k = i)) (λ k _, bool_decide (k = j))
                (λ _, f) prev.
Proof.
  unfold updateFocused, mapSessions. apply imap_ext. intros k s _. simpl.
  destruct (decide (Z.of_nat k = i)) as [E|E].
  - rewrite bool_decide_eq_true_2 by done. f_equal.
    apply imap_ext. intros k' a _. simpl.
    by destruct (decide (k' = j));
      [rewrite bool_decide_eq_true_2|rewrite bool_decide_eq_false_2].
  - by rewrite bool_decide_eq_false_2.
Qed.

Lemma setStyleNames_mapSessions sessionId generatedStyles prev :
  setStyleNames sessionId generatedStyles prev
  = mapSessions (λ _ id, negb (bool_decide (id ≠ sessionId))) (λ _ _, true)
                (λ i a, withStyleName a (generatedStyles !! i)) prev.
Proof.
  unfold setStyleNames, mapSessions. rewrite <- imap_const.
  apply imap_ext. intros k s _. simpl.
  destruct (decide (Session.id s ≠ sessionId)) as [E|E].
  - by rewrite bool_decide_eq_true_2.
  - by rewrite bool_decide_eq_false_2.
Qed.

Lemma allocArtifacts_spec arts : ∀ h,
  Runs (allocArtifacts arts) h
    (λ ls h', Forall2 (λ l a, readArtifactV h' l = Some a) ls arts).
Proof.
  induction arts as [|a arts IH]; intros h; simpl.
  - apply Runs_ret. constructor.
  - apply Runs_bind, Runs_alloc. apply Runs_bind.
    eapply Runs_weaken; [|apply IH]. intros ls h1 Hp1 Hls. simpl in Hls.
    apply Runs_ret. constructor; [|done].
    eapply readArtifactV_stable; [exact Hp1|].
    unfold readArtifactV. by rewrite lookup_alloc.
Qed.

Lemma allocSession_spec s h :
  Runs (allocSession s) h (λ l h', readSessionV h' l = Some s).
Proof.
  unfold allocSession. apply Runs_bind.
  eapply Runs_weaken; [|apply allocArtifacts_spec]. intros ls h1 Hp1 Hls. simpl in Hls.
  apply Runs_bind, Runs_alloc, Runs_alloc.
  unfold readSessionV. rewrite lookup_alloc.
  assert (readArrayV readArtifactV ((h1 ++ [ArrayObj ls]) ++
            [SessionObj (Session.id s) (Session.prompt s) (Session.timestamp s) (length h1)])
            (length h1) = Some (Session.artifacts s)) as ->.
  { apply readArrayV_Some. exists ls. split.
    - rewrite lookup_app_l by (rewrite length_app; simpl; lia). apply lookup_alloc.
    - eapply Forall2_impl; [exact Hls|]. intros l a Hl.
      eapply readArtifactV_stable; [|exact Hl].
      etrans; apply prefix_app_r; done. }
  by destruct s.
Qed.

(** *** The handlers with references represent the handlers on values *)

Lemma Forall2_readSnap_ext h h' (es : list SnapRef) (xs : list AppState.t) :
  h `prefix_of` h' →
  Forall2 (λ e a, readSnap h e = Some a) es xs →
  Forall2 (λ e a, readSnap h' e = Some a) es xs.
Proof.
  intros Hp H. eapply Forall2_impl; [exact H|].
  intros e a He. by eapply readSnap_stable.
Qed.

Lemma readSnap_snapshotR r st :
  Represents r st → readSnap (heap r) (snapshotR r) = Some (snapshot st).
Proof.
  intros (Hs & Hi & _). unfold readSnap, snapshotR, snapshot. simpl.
  by rewrite Hs, Hi.
Qed.

Lemma pushToHistoryR_sim r st :
  Represents r st → Represents (pushToHistoryR r) (pushToHistory st).
Proof.
  intros H. pose proof (readSnap_snapshotR r st H) as Hsnap.
  destruct H as (Hs & Hi & Hp & Hf & Hfoc & Hin & Hl).
  unfold Represents. simpl. split_and!; try done.
  apply Forall2_app; [done|]. by repeat constructor.
Qed.

Lemma setSessionsR_sim (m : loc → M loc) (f : list Session.t → list Session.t) r st :
  Represents r st →
  (∀ ss, readSessionsV (heap r) (sessionsRef r) = Some ss →
         Runs (m (sessionsRef r)) (heap r) (λ l h', readSessionsV h' l = Some (f ss))) →
  ∃ r', setSessionsR m r = Some r' ∧ Represents r' (setSessions f st)
        ∧ heap r `prefix_of` heap r'.
Proof.
  intros (Hs & Hi & Hp & Hf & Hfoc & Hin & Hl) Hm.
  destruct (Hm _ Hs) as (l & h' & Hrun & Hpre & Hread).
  unfold setSessionsR. rewrite Hrun. simpl. eexists. split; [done|].
  split; [|done]. unfold Represents. simpl. split_and!; try done.
  - by eapply Forall2_readSnap_ext.
  - by eapply Forall2_readSnap_ext.
Qed.

Lemma handleUndoR_sim r st :
  Represents r st → Represents (handleUndoR r) (handleUndo st).
Proof.
  intros H. pose proof (readSnap_snapshotR r st H) as Hsnap.
  pose proof H as (Hs & Hi & Hp & Hf & Hfoc & Hin & Hl).
  unfold handleUndoR, handleUndo.
  pose proof (Forall2_last _ _ _ Hp) as Hlast.
  pose proof (Forall2_length _ _ _ Hp) as Hlen.
  destruct (last (pastRef r)) as [e|], (last (past (history st))) as [[pss pi]|];
    inversion Hlast as [? ? He|]; subst; [|done].
  unfold readSnap in He.
  destruct (readSessionsV (heap r) (snapSessions e)) as [ss|] eqn:Ess; [|done].
  injection He as -> ->.
  unfold Represents. simpl. split_and!; try done.
  - rewrite Hlen. by apply Forall2_take.
  - by constructor.
Qed.

Lemma handleRedoR_sim r st :
  Represents r st → Represents (handleRedoR r) (handleRedo st).
Proof.
  intros H. pose proof (readSnap_snapshotR r st H) as Hsnap.
  pose proof H as (Hs & Hi & Hp & Hf & Hfoc & Hin & Hl).
  unfold handleRedoR, handleRedo.
  destruct Hf as [|e [nss ni] es fs He Hf]; [done|].
  unfold readSnap in He.
  destruct (readSessionsV (heap r) (snapSessions e)) as [ss|] eqn:Ess; [|done].
  injection He as -> ->.
  unfold Represents. simpl. split_and!; try done.
  apply Forall2_app; [done|]. by repeat constructor.
Qed.

Lemma sessionsLength_sim r st :
  Represents r st → sessionsLength r = Some (length (sessions st)).
Proof.
  intros (Hs & _). apply readArrayV_Some in Hs as (ls & E & H).
  unfold sessionsLength. rewrite E. f_equal. by eapply Forall2_length.
Qed.

Lemma Represents_fields r st (r' : AppRef) (st' : App) :
  Represents r st →
  heap r' = heap r → sessionsRef r' = sessionsRef r →
  pastRef r' = pastRef r → futureRef r' = futureRef r →
  sessions st' = sessions st → history st' = history st →
  indexRef r' = currentSessionIndex st' →
  focusedRef r' = focusedArtifactIndex st' →
  inputRef r' = inputValue st' → loadingRef r' = isLoading st' →
  Represents r' st'.
Proof.
  intros (Hs & Hi & Hp & Hf & Hfoc & Hin & Hl) E1 E2 E3 E4 E5 E6 E7 E8 E9 E10.
  unfold Represents. rewrite E1, E2, E3, E4, E5, E6. by split_and!.
Qed.

Lemma setIndexR_sim (g : Z → Z) i r st :
  Represents r st → i = g (currentSessionIndex st) →
  Represents (setIndexR i r) (setCurrentSessionIndex g st).
Proof.
  intros H ->. pose proof H as (? & ? & ? & ? & ? & ? & ?).
  by apply (Represents_fields r st).
Qed.

Lemma setFocusedR_sim x r st :
  Represents r st → Represents (setFocusedR x r) (setFocusedArtifactIndex x st).
Proof.
  intros H. pose proof H as (? & ? & ? & ? & ? & ? & ?).
  by apply (Represents_fields r st).
Qed.

Lemma setInputR_sim x r st :
  Represents r st → Represents (setInputR x r) (setInputValue x st).
Proof.
  intros H. pose proof H as (? & ? & ? & ? & ? & ? & ?).
  by apply (Represents_fields r st).
Qed.

Lemma setLoadingR_sim x r st :
  Represents r st → Represents (setLoadingR x r) (setIsLoading x st).
Proof.
  intros H. pose proof H as (? & ? & ? & ? & ? & ? & ?).
  by apply (Represents_fields r st).
Qed.

Lemma nthZ_is_Some {A} (l : list A) (i : Z) :
  is_Some (nthZ l i) ↔ (0 ≤ i < Z.of_nat (length l))%Z.
Proof.
  unfold nthZ. destruct (Z.ltb_spec i 0).
  - split; [by intros [? ?]|lia].
  - rewrite lookup_lt_is_Some. lia.
Qed.

(** Every transition on references succeeds, represents the transition on
    values, and leaves a heap that extends the old one. *)
Lemma stepR_sim a r st :
  Represents r st →
  ∃ r', stepR a r = Some r' ∧ Represents r' (step a st) ∧ heap r `prefix_of` heap r'.
Proof.
  intros H. pose proof H as (Hs & Hi & Hp & Hf & Hfoc & Hin & Hl).
  destruct a; simpl.
  - (* submission *)
    unfold handleSendMessageR, handleSendMessage.
    assert (promptToUseR manualPrompt r = promptToUse manualPrompt st) as ->.
    { unfold promptToUseR, promptToUse. by rewrite Hin. }
    rewrite Hl. destruct (_ || _); [by exists r|].
    set (st1 := match manualPrompt with Some (_ :: _) => st | _ => setInputValue [] st end).
    set (r1 := match manualPrompt with Some (_ :: _) => r | _ => setInputR [] r end).
    assert (Represents r1 st1) as H1.
    { subst r1 st1. destruct manualPrompt as [[|]|]; try done; by apply setInputR_sim. }
    pose proof (setLoadingR_sim true _ _ (pushToHistoryR_sim _ _ H1)) as H2.
    destruct (setSessionsR_sim
                (λ prev, s ← allocSession
                               (newSession sessionId (trim (promptToUse manualPrompt st)) baseTime);
                         jsAppend prev s)
                (λ prev, prev ++ [newSession sessionId (trim (promptToUse manualPrompt st)) baseTime])
                _ _ H2) as (r3 & Hr3 & H3 & Hpre).
    { intros ss Hss. apply Runs_bind.
      eapply Runs_weaken; [|apply allocSession_spec]. intros l h1 Hp1 Hl1. simpl in Hl1.
      apply (jsAppend_spec readSessionV); [apply readSessionV_stable| |done].
      by eapply readSessionsV_stable. }
    rewrite Hr3. simpl. eexists. split; [done|]. split.
    + apply setFocusedR_sim. apply setIndexR_sim; [done|]. f_equal. apply H3.
    + simpl. etrans; [|exact Hpre]. subst r1. by destruct manualPrompt as [[|]|].
  - (* style names *)
    apply setSessionsR_sim; [done|]. intros ss Hss.
    rewrite setStyleNames_mapSessions. by apply mapSessionsR_spec.
  - (* a write *)
    apply setSessionsR_sim; [done|]. intros ss Hss.
    rewrite applyWrite_updateArtifact, updateArtifact_mapSessions.
    by apply mapSessionsR_spec.
  - eexists. split; [done|]. split; [by apply setLoadingR_sim|done].
  - (* applyVariation *)
    unfold applyVariation. rewrite Hfoc, Hi.
    pose proof (pushToHistoryR_sim _ _ H) as H1.
    destruct (focusedArtifactIndex st) as [focused|]; [|by eexists].
    destruct (setSessionsR_sim
                (updateFocusedR (currentSessionIndex st) focused
                   (λ art, withHtmlStatus art html complete))
                (updateFocused (currentSessionIndex st) focused
                   (λ art, withHtmlStatus art html complete)) _ _ H1)
      as (r2 & Hr2 & H2 & Hpre); [|by exists r2].
    intros ss Hss. rewrite updateFocused_mapSessions. by apply mapSessionsR_spec.
  - (* handleGenerateImages *)
    rewrite (sessionsLength_sim _ _ H). simpl. unfold handleGenerateImages.
    rewrite Hfoc, Hi. destruct (focusedArtifactIndex st) as [focused|].
    + pose proof (nthZ_is_Some (sessions st) (currentSessionIndex st)) as Hn.
      destruct (nthZ (sessions st) (currentSessionIndex st)) as [s|].
      * rewrite bool_decide_eq_true_2 by (apply Hn; eauto).
        eexists. split; [done|]. split; [|done].
        by apply setLoadingR_sim, pushToHistoryR_sim.
      * rewrite bool_decide_eq_false_2; [by exists r|].
        intros Hr. apply Hn in Hr as [? ?]. done.
    + exists r. by destruct (nthZ _ _).
  - (* the images arrived *)
    apply setSessionsR_sim; [done|]. intros ss Hss.
    rewrite updateFocused_mapSessions. by apply mapSessionsR_spec.
  - eexists. split; [done|]. split; [by apply setFocusedR_sim|done].
  - (* nextItem *)
    rewrite (sessionsLength_sim _ _ H). simpl. unfold nextItem.
    rewrite Hfoc, Hi. destruct (focusedArtifactIndex st) as [focused|].
    + destruct (focused <? 2); eexists; (split; [done|]); split; try done;
        try (by apply setFocusedR_sim).
    + destruct (_ <? _)%Z; eexists; (split; [done|]); split; try done;
        try (apply (setIndexR_sim (λ _, (currentSessionIndex st + 1)%Z)); [|done];
             by apply pushToHistoryR_sim).
  - (* prevItem *)
    unfold prevItem. rewrite Hfoc, Hi. destruct (focusedArtifactIndex st) as [focused|].
    + destruct (0 <? focused); eexists; (split; [done|]); split; try done;
        try (by apply setFocusedR_sim).
    + destruct (_ <? _)%Z; eexists; (split; [done|]); split; try done;
        try (apply (setIndexR_sim (λ _, (currentSessionIndex st - 1)%Z)); [|done];
             by apply pushToHistoryR_sim).
  - eexists. split; [done|]. split; [by apply handleUndoR_sim|].
    unfold handleUndoR. by destruct (last _).
  - eexists. split; [done|]. split; [by apply handleRedoR_sim|].
    unfold handleRedoR. by destruct (futureRef r).
Qed.

Lemma runR_sim actions : ∀ r st,
  Represents r st →
  ∃ r', runR actions r = Some r' ∧ Represents r' (run actions st)
        ∧ heap r `prefix_of` heap r'.
Proof.
  induction actions as [|a actions IH]; intros r st H; [by exists r|].
  destruct (stepR_sim a r st H) as (r1 & Hr1 & H1 & Hp1).
  destruct (IH r1 (step a st) H1) as (r2 & Hr2 & H2 & Hp2).
  exists r2. simpl. rewrite Hr1. simpl. split_and!; [done|done|by etrans].
Qed.

(** The snapshot that [pushToHistory] stores names the live [sessions]
    array itself: no copy is made. *)
Lemma pushToHistoryR_shares r :
  last (pastRef (pushToHistoryR r))
  = Some {| snapSessions := sessionsRef r; snapIndex := indexRef r |}
  ∧ heap (pushToHistoryR r) = heap r.
Proof. simpl. by rewrite last_snoc. Qed.

(** C3, as amended. The entry that [pushToHistory] stores is no copy: it
    holds the address of the live [sessions] array, and the push allocates
    nothing. Even so, whatever transitions follow (streaming writes, final
    and error writes, style-name updates, applied variations, generated
    images, submissions, navigation, undo, redo), the sessions and the index
    read through every entry of the past and future stacks are what they
    were: the transitions allocate new arrays and objects and write to no
    existing one. The run on references succeeds and represents the run on
    values. *)
Theorem history_entries_unchanged (actions : list Action) (r : AppRef) (st : App) :
  Represents r st →
  (∃ r', runR actions r = Some r'
         ∧ Represents r' (run actions st)
         ∧ heap r `prefix_of` heap r'
         ∧ (∀ e, e ∈ pastRef r ++ futureRef r →
                 readSnap (heap r') e = readSnap (heap r) e
                 ∧ is_Some (readSnap (heap r) e)))
  ∧ last (pastRef (pushToHistoryR r))
    = Some {| snapSessions := sessionsRef r; snapIndex := indexRef r |}
  ∧ heap (pushToHistoryR r) = heap r
  ∧ sessionsRef (pushToHistoryR r) = sessionsRef r
  ∧ readSnap (heap r) {| snapSessions := sessionsRef r; snapIndex := indexRef r |}
    = Some (snapshot st).
Proof.
  intros H. split_and!; [|apply pushToHistoryR_shares..|done|].
  - destruct (runR_sim actions r st H) as (r' & Hr' & H' & Hpre).
    exists r'. split_and!; [done|done|done|].
    intros e He. destruct H as (_ & _ & Hp & Hf & _).
    assert (∃ a, readSnap (heap r) e = Some a) as [a Ha].
    { apply elem_of_app in He as [He|He].
      - apply list_elem_of_lookup in He as [i He].
        destruct (Forall2_lookup_l _ _ _ _ _ Hp He) as (a & _ & Ha). eauto.
      - apply list_elem_of_lookup in He as [i He].
        destruct (Forall2_lookup_l _ _ _ _ _ Hf He) as (a & _ & Ha). eauto. }
    rewrite Ha. split; [|eauto]. by eapply readSnap_stable.
  - destruct H as (Hs & Hi & _). unfold readSnap, snapshot. simpl.
    by rewrite Hs, Hi.
Qed.

End RefFacts.
(** ** The theorems at concrete inputs *)

(** The example of the specification: the first object is yielded while the
    first chunk is processed, the second while the second is. *)
Example runStream_two_chunks :
  runStream JSON_parse [] twoChunks
  = Some [ [JObject [(u "a", JNumber (u "1"));
                     (u "b", JObject [(u "c", JNumber (u "2"))])]];
           [JObject [(u "x", JNumber (u "5"))]] ].
Proof. vm_compute. reflexivity. Qed.

Lemma parseJsonStream_chunking_witness :
  parseJsonStream JSON_parse twoChunks = parseJsonStream JSON_parse oneChunk
  ∧ is_Some (parseJsonStream JSON_parse twoChunks).
Proof.
  apply (parseJsonStream_chunking JSON_parse twoChunks oneChunk).
  vm_compute. reflexivity.
Defined.

Lemma parseJsonStream_trailing_incomplete_witness :
  parseJsonStream JSON_parse cutStream = parseJsonStream JSON_parse (chunks [uq "{'a':1}"])
  ∧ is_Some (parseJsonStream JSON_parse cutStream).
Proof.
  apply (parseJsonStream_trailing_incomplete JSON_parse cutStream
           (uq "{'a':1}") (uq "{'x':")).
  - vm_compute. reflexivity.
  - vm_compute. reflexivity.
  - vm_compute. reflexivity.
Defined.

Example parseJsonStream_cut :
  parseJsonStream JSON_parse cutStream = Some [JObject [(u "a", JNumber (u "1"))]].
Proof. vm_compute. reflexivity. Qed.

Lemma sessions_have_three_artifacts_witness :
  let actions := [ASend (Some (u "clock")) 0 (u "s1");
                  AStyleNames (u "s1") fallbackStyles;
                  AWrite (WriteHtml (u "s1") (u "s1_0") (u "<p>"));
                  AFocus (Some 0); AApplyVariation (u "<b>"); AUndo; ARedo] in
  (∀ sessionId trimmedInput baseTime,
     length (Session.artifacts (newSession sessionId trimmedInput baseTime)) = 3)
  ∧ Everywhere ThreeArtifacts (run actions initialApp)
  ∧ (∀ a, match a with
          | ASend _ _ _ =>
              artifactCounts (sessions (step a initialApp)) = artifactCounts (sessions initialApp)
              ∨ artifactCounts (sessions (step a initialApp))
                = artifactCounts (sessions initialApp) ++ [3]
          | AUndo | ARedo => True
          | _ => artifactCounts (sessions (step a initialApp))
                 = artifactCounts (sessions initialApp)
          end).
Proof.
  cbv zeta. apply (sessions_have_three_artifacts _ initialApp).
  repeat split; constructor.
Defined.

Lemma submit_moves_index_by_one_witness :
  let manualPrompt := Some (u "clock") in
  let st := initialApp in
  let fresh := newSession (u "s1") (trim (promptToUse manualPrompt st)) 0 in
  let st' := handleSendMessage manualPrompt 0 (u "s1") st in
  let last := (Z.of_nat (length (sessions st)) - 1)%Z in
  sessions st' = sessions st ++ [fresh]
  ∧ currentSessionIndex st' = (currentSessionIndex st + 1)%Z
  ∧ (currentSessionIndex st' = Z.of_nat (length (sessions st))
     ↔ currentSessionIndex st = last)
  ∧ (currentSessionIndex st = last →
     nthZ (sessions st') (currentSessionIndex st') = Some fresh)
  ∧ ((-1 ≤ currentSessionIndex st < last)%Z →
     nthZ (sessions st') (currentSessionIndex st')
     = nthZ (sessions st) (currentSessionIndex st + 1)
     ∧ is_Some (nthZ (sessions st) (currentSessionIndex st + 1)))
  ∧ (ValidIndex (snapshot st) →
     (0 ≤ currentSessionIndex st' < Z.of_nat (length (sessions st')))%Z)
  ∧ (∀ actions, Everywhere ValidIndex (run actions initialApp)).
Proof.
  cbv zeta.
  apply (submit_moves_index_by_one (Some (u "clock")) 0 (u "s1") initialApp).
  - vm_compute. discriminate.
  - reflexivity.
Defined.

Example clockApp_state :
  sessions clockApp = [newSession (u "s1") (u "clock") 0]
  ∧ currentSessionIndex clockApp = 0%Z
  ∧ past (history clockApp) = [AppState.mk [] (-1)]
  ∧ isLoading clockApp = true.
Proof. vm_compute. auto. Qed.

Lemma generation_fault_isolation_witness :
  let sess := newSession (u "s1") (u "clock") 0 in
  let final := finishAll (Session.artifacts sess) threeRuns in
  applyEffects (Lands <$> threeRunsTrace) ([] ++ sess :: [])
  = (λ arts, [] ++ withArtifacts sess arts :: []) <$> final
  ∧ (final = None ↔ ∃ run, run ∈ threeRuns ∧ ending run = Throws None)
  ∧ (∀ arts, final = Some arts →
       Forall2 (λ art' '(art, run),
                  Artifact.id art' = Artifact.id art
                  ∧ Artifact.styleName art' = Artifact.styleName art
                  ∧ outcome run = Some (Artifact.html art', Artifact.status art'))
               arts (zip (Session.artifacts sess) threeRuns))
  ∧ (∀ run message, ending run = Throws (Some message) →
       outcome run = Some (errorHtml message, error))
  ∧ (∀ run, ending run = Ends → finalizeHtml (streamText (received run)) ≠ [] →
       outcome run = Some (finalizeHtml (streamText (received run)), complete))
  ∧ (∀ k run message,
       threeRuns !! k = Some run → ending run = Throws (Some message) →
       (∀ j run', j ≠ k → threeRuns !! j = Some run' →
          ending run' = Ends ∧ finalizeHtml (streamText (received run')) ≠ []) →
       ∃ arts, final = Some arts
               ∧ Artifact.status <$> arts = <[k := error]> [complete; complete; complete]
               ∧ Artifact.html <$> arts !! k = Some (errorHtml message))
  ∧ (∀ w prev,
       Forall2 (λ s s', Forall2 (λ a a', Artifact.id a ≠ wArtifact w → a' = a)
                          (Session.artifacts s) (Session.artifacts s'))
               prev (applyWrite w prev))
  ∧ (∀ sessionId' artifactId prev next,
       applyEffect (Raises sessionId' artifactId) prev = Some next → next = prev).
Proof.
  cbv zeta.
  apply (generation_fault_isolation (u "s1") (newSession (u "s1") (u "clock") 0)
           [] [] threeRuns (Lands <$> threeRunsTrace)).
  - reflexivity.
  - reflexivity.
  - constructor.
  - reflexivity.
  - vm_compute.
    eapply (Merge_step 0); [reflexivity|]. cbn.
    eapply (Merge_step 1); [reflexivity|]. cbn.
    eapply (Merge_step 2); [reflexivity|]. cbn.
    eapply (Merge_step 1); [reflexivity|]. cbn.
    eapply (Merge_step 0); [reflexivity|]. cbn.
    eapply (Merge_step 2); [reflexivity|]. cbn.
    eapply (Merge_step 0); [reflexivity|]. cbn.
    apply Merge_done. repeat constructor.
Defined.

Example generation_three_runs :
  Session.artifacts <$> applyWrites threeRunsTrace [newSession (u "s1") (u "clock") 0]
  = [[ Artifact.mk (u "s1_0") (Some (JString (u "Analyzing request..."))) (u "<p>a</p>") complete;
       Artifact.mk (u "s1_1") (Some (JString (u "Analyzing request...")))
                   (errorHtml (u "quota")) error;
       Artifact.mk (u "s1_2") (Some (JString (u "Analyzing request..."))) (u "<b>c</b>") complete ]]
  ∧ applyEffects (Lands <$> threeRunsTrace) [newSession (u "s1") (u "clock") 0]
    = Some (applyWrites threeRunsTrace [newSession (u "s1") (u "clock") 0]).
Proof. vm_compute. auto. Qed.

(** The second stream throws [null]: the updater of its [catch] raises on
    the second artifact, which is in the state, and nothing is left; had
    the session been taken out of the state before, the updater would have
    returned. *)
Example generation_unreadable :
  Merge (generationEffects (u "s1") unreadableRuns) unreadableTrace
  ∧ applyEffects (take 2 unreadableTrace) [newSession (u "s1") (u "clock") 0]
    = Some (applyWrites (omap landed (take 2 unreadableTrace))
              [newSession (u "s1") (u "clock") 0])
  ∧ applyEffects (take 3 unreadableTrace) [newSession (u "s1") (u "clock") 0] = None
  ∧ applyEffects unreadableTrace [newSession (u "s1") (u "clock") 0] = None
  ∧ applyEffects unreadableTrace [] = Some [].
Proof.
  split_and!; try (vm_compute; reflexivity).
  vm_compute.
  eapply (Merge_step 0); [reflexivity|]. cbn.
  eapply (Merge_step 0); [reflexivity|]. cbn.
  eapply (Merge_step 1); [reflexivity|]. cbn.
  eapply (Merge_step 2); [reflexivity|]. cbn.
  eapply (Merge_step 2); [reflexivity|]. cbn.
  apply Merge_done. repeat constructor.
Qed.

Lemma variedRef_represents : Represents variedRef variedApp.
Proof.
  unfold Represents. split_and!; try (vm_compute; reflexivity).
  - repeat constructor.
  - constructor.
Qed.

(** The entry pushed by the variation names the very array that was live
    (address 16 of the heap), and reads the html of before the variation. *)
Example variedRef_entries :
  pastRef variedRef = [ {| snapSessions := 0; snapIndex := -1 |};
                        {| snapSessions := 16; snapIndex := 0 |} ]
  ∧ sessionsRef variedRef = 20
  ∧ (λ a, (λ s, Artifact.html <$> Session.artifacts s) <$> AppState.sessions a)
      <$> readSnap (heap variedRef) {| snapSessions := 16; snapIndex := 0 |}
    = Some [[u "<p>a</p>"; []; []]].
Proof. vm_compute. auto. Qed.

Lemma history_entries_unchanged_witness :
  (∃ r', runR laterActions variedRef = Some r'
         ∧ Represents r' (run laterActions variedApp)
         ∧ heap variedRef `prefix_of` heap r'
         ∧ (∀ e, e ∈ pastRef variedRef ++ futureRef variedRef →
                 readSnap (heap r') e = readSnap (heap variedRef) e
                 ∧ is_Some (readSnap (heap variedRef) e)))
  ∧ last (pastRef (pushToHistoryR variedRef))
    = Some {| snapSessions := sessionsRef variedRef; snapIndex := indexRef variedRef |}
  ∧ heap (pushToHistoryR variedRef) = heap variedRef
  ∧ sessionsRef (pushToHistoryR variedRef) = sessionsRef variedRef
  ∧ readSnap (heap variedRef)
      {| snapSessions := sessionsRef variedRef; snapIndex := indexRef variedRef |}
    = Some (snapshot variedApp).
Proof.
  apply (history_entries_unchanged laterActions variedRef variedApp).
  unfold Represents. split_and!; try (vm_compute; reflexivity).
  - repeat constructor.
  - constructor.
Defined.

(** *** Where the claims as first stated fail *)

(** The entry a push stores is the live array, not a copy of it: the entry
    holds the address the live state holds, and the push leaves the heap as
    it was, so nothing was allocated for the entry. In the run of the
    example, the entry pushed when the variation was applied holds the
    address 16, which was the live array then; a store into that one object
    would be seen through the entry. *)
Lemma history_snapshot_shares_counterexample :
  let r := pushToHistoryR variedRef in
  snapSessions <$> last (pastRef r) = Some (sessionsRef r)
  ∧ heap r = heap variedRef
  ∧ length (heap r) = 21
  ∧ (sessionsRef <$> runR (take 4 variedActions) initialRef) = Some 16
  ∧ snapSessions <$> last (pastRef variedRef) = Some 16
  ∧ (AppState.sessions <$> readSnap (heap r) (snapshotR r)) = Some (sessions variedApp)
  ∧ (AppState.sessions
       <$> readSnap (<[sessionsRef r := ArrayObj []]> (heap r)) (snapshotR r)) = Some [].
Proof. vm_compute. split_and!; reflexivity. Qed.

(** The text is the object [{"a":"} {} "}] without its closing brace: it
    ends inside a top-level JSON object. The brace count is back at zero at
    the closing brace inside the string, the text up to there does not
    parse, and the scan goes on to [{}], which it yields. *)
Lemma parseJsonStream_brace_in_string_counterexample :
  JSON_parse (braceInString ++ u "}") = Some (JObject [(u "a", JString (u "} {} "))])
  ∧ JSON_parse braceInString = None
  ∧ findEnd braceInString 0 = Some 6
  ∧ parseJsonStream JSON_parse (chunks [[]]) = Some []
  ∧ parseJsonStream JSON_parse (chunks [braceInString]) = Some [JObject []].
Proof. vm_compute. auto. Qed.

(** One task throws, the two others end, each having streamed a text that is
    not empty; the fence of the third has nothing in it, and its artifact
    ends in [error] too: one artifact complete, two in error. And when the
    task that throws throws [null], the two others ending with html, the
    updater of its [catch] raises and no artifact is left at all. *)
Lemma generation_fence_only_counterexample :
  ending <$> fenceOnlyRuns = [Throws (Some (u "quota")); Ends; Ends]
  ∧ (λ run, streamText (received run)) <$> fenceOnlyRuns
    = [[]; u "<p>a</p>"; u "```html```"]
  ∧ Merge (generationWrites (u "s1") fenceOnlyRuns) fenceOnlyTrace
  ∧ (λ s, Artifact.status <$> Session.artifacts s)
      <$> applyWrites fenceOnlyTrace [newSession (u "s1") (u "clock") 0]
    = [[error; complete; error]]
  ∧ Merge (generationEffects (u "s1") fenceOnlyRuns) (Lands <$> fenceOnlyTrace)
  ∧ applyEffects (Lands <$> fenceOnlyTrace) [newSession (u "s1") (u "clock") 0]
    = Some (applyWrites fenceOnlyTrace [newSession (u "s1") (u "clock") 0])
  ∧ ending <$> unreadableRuns = [Ends; Throws None; Ends]
  ∧ (λ run, finalizeHtml (streamText (received run))) <$> unreadableRuns
    = [u "<p>a</p>"; []; u "<b>c</b>"]
  ∧ Merge (generationEffects (u "s1") unreadableRuns) unreadableTrace
  ∧ applyEffects unreadableTrace [newSession (u "s1") (u "clock") 0] = None.
Proof.
  split_and!; try (vm_compute; reflexivity).
  - vm_compute.
    eapply (Merge_step 0); [reflexivity|]. cbn.
    eapply (Merge_step 1); [reflexivity|]. cbn.
    eapply (Merge_step 2); [reflexivity|]. cbn.
    eapply (Merge_step 1); [reflexivity|]. cbn.
    eapply (Merge_step 2); [reflexivity|]. cbn.
    eapply (Merge_step 2); [reflexivity|]. cbn.
    apply Merge_done. repeat constructor.
  - vm_compute.
    eapply (Merge_step 0); [reflexivity|]. cbn.
    eapply (Merge_step 1); [reflexivity|]. cbn.
    eapply (Merge_step 2); [reflexivity|]. cbn.
    eapply (Merge_step 1); [reflexivity|]. cbn.
    eapply (Merge_step 2); [reflexivity|]. cbn.
    eapply (Merge_step 2); [reflexivity|]. cbn.
    apply Merge_done. repeat constructor.
  - vm_compute.
    eapply (Merge_step 0); [reflexivity|]. cbn.
    eapply (Merge_step 0); [reflexivity|]. cbn.
    eapply (Merge_step 1); [reflexivity|]. cbn.
    eapply (Merge_step 2); [reflexivity|]. cbn.
    eapply (Merge_step 2); [reflexivity|]. cbn.
    apply Merge_done. repeat constructor.
Qed.

(** A full document with a lower-case doctype is wrapped into the template,
    and a fragment that mentions the doctype is returned as it is. *)
Lemma wrapHtml_doctype_counterexample :
  startsWith lowerCaseDocument (u "<!doctype html><html") = true
  ∧ endsWith lowerCaseDocument (u "</body></html>") = true
  ∧ wrapHtml lowerCaseDocument (u "t")
    = templateHead ++ u "t" ++ templateMiddle ++ lowerCaseDocument ++ templateTail
  ∧ length (wrapHtml lowerCaseDocument (u "t")) = 718 + length lowerCaseDocument
  ∧ includes fragmentWithDoctype (u "<html") = false
  ∧ wrapHtml fragmentWithDoctype (u "t") = fragmentWithDoctype.
Proof. split_and!; vm_compute; reflexivity. Qed.

(** * Further properties of the code

    What follows covers the parts of the two files that the first part does
    not: the shape of what the extractor yields, the bracket match, the
    fence stripping, file names and the session archive, what the render
    derives from the state, the placeholder prompts and the variations. *)

(** ** The extractor on framed objects *)

Section FramingFacts.
Context {J : Type} (parse : jsstring → option J).

Lemma indexOf_notin c s : c ∉ s → indexOf c s 0 = None.
Proof.
  induction s as [|x s IH]; simpl; [done|].
  intros [Hx Hs]%not_elem_of_cons.
  destruct (N.eqb_spec x c) as [->|_]; [done|]. by rewrite IH.
Qed.

Lemma indexOf_head c s : indexOf c (c :: s) 0 = Some 0.
Proof. simpl. by rewrite N.eqb_refl. Qed.

(** The separator is stepped over: the search stops on the brace that
    follows it. *)
Lemma indexOf_sep sep o rest :
  LBRACE ∉ sep → o !! 0 = Some LBRACE →
  indexOf LBRACE (sep ++ o ++ rest) 0 = Some (length sep).
Proof.
  intros Hsep Ho. destruct o as [|c o]; simplify_eq/=.
  rewrite indexOf_app_None; [|by apply indexOf_notin|lia].
  simpl. f_equal. lia.
Qed.

(** The scan does not depend on where the text sits in the buffer. *)
Lemma scanEnd_shift rest d : ∀ i start bc,
  scanEnd rest (i + d) (start + d) bc = (λ e, e + d) <$> scanEnd rest i start bc.
Proof.
  induction rest as [|c rest IH]; intros i start bc; simpl; [done|].
  replace (start + d <? i + d) with (start <? i).
  - destruct (_ && _); [done|]. apply (IH (S i)).
  - destruct (Nat.ltb_spec start i), (Nat.ltb_spec (start + d) (i + d)); done || lia.
Qed.

Lemma findEnd_framed sep o rest :
  findEnd o 0 = Some (length o - 1) →
  findEnd (sep ++ o ++ rest) (length sep) = Some (length sep + (length o - 1)).
Proof.
  unfold findEnd. rewrite drop_0, drop_app_length. intros H.
  apply (scanEnd_app _ rest) in H.
  pose proof (scanEnd_shift (o ++ rest) (length sep) 0 0 0) as S. simpl in S.
  rewrite S, H. simpl. f_equal. lia.
Qed.

Lemma Emits_framed items : ∀ tail vs,
  Forall2 (λ '(sep, o) v, (LBRACE ∉ sep) ∧ closesAtEnd o = true ∧ parse o = Some v) items vs →
  LBRACE ∉ tail →
  Emits parse (framed items tail) tail vs.
Proof.
  unfold Emits.
  induction items as [|[sep o] items IH]; intros tail vs Hall Htail.
  - apply Forall2_nil_inv_l in Hall as ->. simpl.
    rewrite indexOf_notin by done. constructor.
  - apply Forall2_cons_inv_l in Hall as (v & vs' & (Hsep & Hc & Hp) & Hall & ->).
    apply andb_prop in Hc as [Ho%bool_decide_eq_true Hf%bool_decide_eq_true].
    simpl. rewrite indexOf_sep by done.
    assert (0 < length o) as Hlen by (destruct o; simplify_eq/=; lia).
    assert (length sep + (length o - 1) + 1 = length sep + length o) as He by lia.
    eapply Loop_emit.
    + by apply findEnd_framed.
    + unfold substring. rewrite He, drop_app_length.
      replace (length sep + length o - length sep) with (length o) by lia.
      by rewrite take_app_length.
    + rewrite He. rewrite drop_app_add', drop_app_length by done.
      by apply IH.
Qed.

(** The closing brace: a scan that started on an opening brace ends on a
    closing one. *)
Lemma scanEnd_closing rest : ∀ i start bc e,
  (1 ≤ bc)%Z → start < i →
  scanEnd rest i start bc = Some e → rest !! (e - i) = Some RBRACE.
Proof.
  induction rest as [|c rest IH]; intros i start bc e Hbc Hi; simpl; [done|].
  destruct (Z.eqb_spec (countBrace c bc) 0) as [H0|H0]; simpl.
  - destruct (Nat.ltb_spec start i); [|lia]. intros [= <-].
    rewrite Nat.sub_diag. simpl. f_equal.
    unfold countBrace in H0. repeat case_match; try lia.
    by apply N.eqb_eq.
  - intros H. pose proof (scanEnd_bounds _ _ _ _ _ H) as Hb.
    apply IH in H; [|unfold countBrace in *; repeat case_match; lia|lia].
    replace (e - i) with (S (e - S i)) by lia. done.
Qed.

Lemma findEnd_closing b st e :
  b !! st = Some LBRACE → findEnd b st = Some e → st < e ∧ b !! e = Some RBRACE.
Proof.
  unfold findEnd. intros Hst H.
  destruct (drop st b) as [|c rest] eqn:Hd; [done|].
  assert (c = LBRACE) as ->.
  { pose proof (lookup_drop b st 0) as L. rewrite Hd, Nat.add_0_r, Hst in L.
    by simplify_eq/=. }
  simpl in H. rewrite ?Nat.ltb_irrefl in H. simpl in H.
  change (countBrace LBRACE 0) with 1%Z in H.
  pose proof (scanEnd_bounds _ _ _ _ _ H) as Hb.
  apply scanEnd_closing in H; [|lia..].
  split; [lia|].
  pose proof (lookup_drop b st (S (e - S st))) as L. rewrite Hd in L. simpl in L.
  rewrite H in L. replace (st + S (e - S st)) with e in L by lia. done.
Qed.

(** What the loop yields are pieces of the buffer, in the buffer's order,
    and what it leaves is the end of the buffer. *)
Lemma Loop_framed b st r o :
  Loop parse b st r o →
  (∀ k, st = Some k → b !! k = Some LBRACE) →
  ∃ items, b = framed items r
           ∧ Forall2 (λ '(sep, t) v, braced t = true ∧ parse t = Some v) items o.
Proof.
  induction 1 as [b|b st Hf|b st e v r o Hf Hp _ IH|b st e r o Hf Hp _ IH]; intros Hst.
  - by exists [].
  - by exists [].
  - destruct IH as (items & Hb & Hall).
    { intros k Hk. by apply indexOf_Some in Hk as [_ ?]. }
    specialize (Hst _ eq_refl).
    destruct (findEnd_closing _ _ _ Hst Hf) as [Hlt He].
    pose proof (findEnd_bounds _ _ _ Hf) as Hbd.
    exists ((take st b, substring b st (e + 1)) :: items). split.
    + simpl. rewrite <- Hb. unfold substring.
      rewrite <- (take_drop st b) at 1. f_equal.
      rewrite <- (take_drop (e + 1 - st) (drop st b)) at 1. f_equal.
      rewrite drop_drop. f_equal. lia.
    + constructor; [|done]. split; [|done].
      unfold braced, substring. apply andb_true_intro. split; apply bool_decide_eq_true.
      * rewrite lookup_take_lt by lia. rewrite lookup_drop. by rewrite Nat.add_0_r.
      * rewrite last_lookup. rewrite length_take, length_drop.
        replace (Nat.pred ((e + 1 - st) `min` (length b - st))) with (e - st) by lia.
        rewrite lookup_take_lt by lia. rewrite lookup_drop.
        by replace (st + (e - st)) with e by lia.
  - apply IH. intros k Hk. by apply indexOf_Some in Hk as [_ ?].
Qed.

End FramingFacts.

Section FramingTheorems.
Context {J : Type} (parse : jsstring → option J).

(** X1. Objects written one after the other, each after a separator without
    an opening brace, each closing (by the scanner's count) at its own last
    code unit and accepted by [JSON.parse], are all yielded, in order and
    nothing else, however the text is cut into chunks. *)
Theorem parseJsonStream_framed_objects (stream : list Chunk)
    (items : list (jsstring * jsstring)) (tail : jsstring) (vs : list J) :
  Forall2 (λ '(sep, o) v, (LBRACE ∉ sep) ∧ closesAtEnd o = true ∧ parse o = Some v)
          items vs →
  LBRACE ∉ tail →
  streamText stream = framed items tail →
  parseJsonStream parse stream = Some vs.
Proof.
  intros Hall Htail Htext.
  destruct (parseJsonStream_Emits parse stream) as (r & o & Hrun & HE).
  rewrite Htext in HE.
  pose proof (Emits_framed parse items tail vs Hall Htail) as HF.
  destruct (Loop_det _ _ _ _ _ _ _ HE HF) as [_ ->]. done.
Qed.

(** X2. Whatever the stream, the extractor returns, and what it yields are
    the parses of pieces of the text that do not overlap, taken in the
    text's order, each opening with a brace and ending with a closing
    brace. *)
Theorem parseJsonStream_yields_pieces (stream : list Chunk) :
  ∃ vs items tail,
    parseJsonStream parse stream = Some vs
    ∧ streamText stream = framed items tail
    ∧ Forall2 (λ '(sep, t) v, braced t = true ∧ parse t = Some v) items vs.
Proof.
  destruct (parseJsonStream_Emits parse stream) as (r & o & Hrun & HE).
  apply Loop_framed in HE as (items & Hb & Hall).
  - by exists o, items, r.
  - intros k Hk. by apply indexOf_Some in Hk as [_ ?].
Qed.

End FramingTheorems.

Lemma parseJsonStream_framed_objects_witness :
  parseJsonStream JSON_parse FramingExamples.twoLinesStream
  = Some FramingExamples.twoLinesValues.
Proof.
  apply (parseJsonStream_framed_objects JSON_parse FramingExamples.twoLinesStream
           FramingExamples.twoLines [NEWLINE]).
  - repeat constructor; try (vm_compute; reflexivity);
      apply (bool_decide_unpack _); vm_compute; reflexivity.
  - apply (bool_decide_unpack _). vm_compute. reflexivity.
  - vm_compute. reflexivity.
Defined.
(** ** The bracket match of the style and placeholder replies *)

Section BracketFacts.
Implicit Types (s pre mid post : jsstring).

Lemma elem_of_rev {A} (x : A) (l : list A) : x ∈ rev l ↔ x ∈ l.
Proof. rewrite rev_alt. apply elem_of_reverse. Qed.

Lemma lastIndexOf_app c s post :
  c ∉ post → lastIndexOf c (s ++ c :: post) = Some (length s).
Proof.
  intros Hpost. unfold lastIndexOf.
  rewrite rev_app_distr. simpl. rewrite <- app_assoc. simpl.
  rewrite indexOf_app_None; [|apply indexOf_notin; by rewrite elem_of_rev|lia].
  rewrite indexOf_head. simpl. f_equal.
  rewrite length_app, length_rev. simpl. lia.
Qed.

(** The match runs from the first opening bracket to the last closing one. *)
Lemma matchBracketed_app pre mid post :
  LBRACKET ∉ pre → RBRACKET ∉ post →
  matchBracketed (pre ++ LBRACKET :: mid ++ RBRACKET :: post)
  = Some (LBRACKET :: mid ++ [RBRACKET]).
Proof.
  intros Hpre Hpost. unfold matchBracketed.
  rewrite indexOf_app_None; [|by apply indexOf_notin|lia].
  rewrite indexOf_head. simpl.
  replace (pre ++ LBRACKET :: mid ++ RBRACKET :: post)
    with ((pre ++ LBRACKET :: mid) ++ RBRACKET :: post) by by rewrite <- app_assoc.
  rewrite lastIndexOf_app by done. simpl.
  rewrite length_app. simpl.
  destruct (Nat.ltb_spec (length pre + 0) (length pre + S (length mid))); [|lia].
  f_equal. unfold substring. rewrite <- app_assoc. simpl.
  rewrite Nat.add_0_r, drop_app_length.
  replace (length pre + S (length mid) + 1 - length pre) with (S (length mid + 1)) by lia.
  simpl. f_equal.
  replace (mid ++ RBRACKET :: post) with ((mid ++ [RBRACKET]) ++ post)
    by by rewrite <- app_assoc.
  rewrite take_app_length'; [done|]. rewrite length_app. simpl. lia.
Qed.

Lemma indexOf_split c s k :
  indexOf c s 0 = Some k → ∃ pre post, s = pre ++ c :: post ∧ (c ∉ pre) ∧ length pre = k.
Proof.
  revert k. induction s as [|x s IH]; intros k; simpl; [done|].
  destruct (N.eqb_spec x c) as [->|Hx].
  - intros [= <-]. exists [], s. split_and!; [done|apply not_elem_of_nil|done].
  - destruct (indexOf c s 0) as [j|] eqn:E; simpl; [|done]. intros [= <-].
    destruct (IH _ eq_refl) as (pre & post & -> & Hpre & <-).
    exists (x :: pre), post. split_and!; [done| |done].
    apply not_elem_of_cons. split; [congruence|done].
Qed.

Lemma lastIndexOf_split c s k :
  lastIndexOf c s = Some k → ∃ pre post, s = pre ++ c :: post ∧ (c ∉ post) ∧ length pre = k.
Proof.
  unfold lastIndexOf. destruct (indexOf c (rev s) 0) as [j|] eqn:E; simpl; [|done].
  intros [= <-]. apply indexOf_split in E as (a & b & Hs & Ha & <-).
  apply (f_equal (@rev N)) in Hs. rewrite rev_involutive, rev_app_distr in Hs. simpl in Hs.
  rewrite <- app_assoc in Hs. simpl in Hs.
  exists (rev b), (rev a). split_and!; [done|by rewrite elem_of_rev|].
  subst s. rewrite length_app. simpl. rewrite !length_rev. lia.
Qed.

(** Conversely, what is matched is such a part of the text. *)
Lemma matchBracketed_inv s m :
  matchBracketed s = Some m →
  ∃ pre mid post, s = pre ++ LBRACKET :: mid ++ RBRACKET :: post
                  ∧ m = LBRACKET :: mid ++ [RBRACKET]
                  ∧ (LBRACKET ∉ pre) ∧ (RBRACKET ∉ post).
Proof.
  unfold matchBracketed.
  destruct (indexOf LBRACKET s 0) as [i|] eqn:Ei; simpl; [|done].
  destruct (lastIndexOf RBRACKET s) as [j|] eqn:Ej; simpl; [|done].
  destruct (Nat.ltb_spec i j) as [Hij|]; [|done]. intros [= <-].
  apply indexOf_split in Ei as (pre & rest & Hs & Hpre & <-).
  apply lastIndexOf_split in Ej as (pre' & post & Hs' & Hpost & <-).
  assert (∃ mid, pre' = pre ++ LBRACKET :: mid) as [mid ->].
  { exists (drop (S (length pre)) pre').
    rewrite <- (take_drop (length pre) pre') at 1.
    assert (take (length pre) pre' = pre) as ->.
    { apply (f_equal (take (length pre))) in Hs'. rewrite Hs in Hs' at 1.
      rewrite take_app_length in Hs'. rewrite take_app_le in Hs' by lia. done. }
    f_equal.
    assert (pre' !! length pre = Some LBRACKET) as Hl.
    { apply (f_equal (λ l, l !! length pre)) in Hs'. rewrite Hs in Hs' at 1.
      rewrite list_lookup_middle in Hs' by done.
      rewrite lookup_app_l in Hs' by lia. done. }
    by rewrite (drop_S _ _ _ Hl). }
  exists pre, mid, post. split_and!; try done.
  - rewrite Hs'. by rewrite <- app_assoc.
  - pose proof (matchBracketed_app pre mid post Hpre Hpost) as M.
    unfold matchBracketed in M.
    rewrite <- app_assoc in Hs'. simpl in Hs'. rewrite <- Hs' in M.
    assert (indexOf LBRACKET s 0 = Some (length pre)) as Ei.
    { rewrite Hs. rewrite indexOf_app_None; [|by apply indexOf_notin|lia].
      rewrite indexOf_head. simpl. f_equal. lia. }
    assert (lastIndexOf RBRACKET s = Some (length (pre ++ LBRACKET :: mid))) as Ej.
    { rewrite Hs'.
      replace (pre ++ LBRACKET :: mid ++ RBRACKET :: post)
        with ((pre ++ LBRACKET :: mid) ++ RBRACKET :: post) by by rewrite <- app_assoc.
      by apply lastIndexOf_app. }
    rewrite Ei, Ej in M. simpl in M.
    destruct (Nat.ltb_spec (length pre) (length (pre ++ LBRACKET :: mid))); [|done].
    by simplify_eq.
Qed.

End BracketFacts.

Section BracketTheorems.

(** X3. The style names are read from the part of the reply between its
    first opening bracket and its last closing bracket: text before the
    array that has no opening bracket and text after it that has no closing
    bracket are ignored, and the names are the first three entries of the
    array, or the three fallback names when it has fewer than three. *)
Theorem extractStyles_ignores_prose (pre mid post : jsstring) (l : list JValue) :
  LBRACKET ∉ pre → RBRACKET ∉ post →
  JSON_parse (LBRACKET :: mid ++ [RBRACKET]) = Some (JArray l) →
  matchBracketed (styleText (Some (pre ++ LBRACKET :: mid ++ RBRACKET :: post)))
  = Some (LBRACKET :: mid ++ [RBRACKET])
  ∧ extractStyles (Some (pre ++ LBRACKET :: mid ++ RBRACKET :: post))
    = if length l <? 3 then fallbackStyles else take 3 l.
Proof.
  intros Hpre Hpost Hparse.
  assert (styleText (Some (pre ++ LBRACKET :: mid ++ RBRACKET :: post))
          = pre ++ LBRACKET :: mid ++ RBRACKET :: post) as Ht.
  { by destruct pre. }
  assert (matchBracketed (styleText (Some (pre ++ LBRACKET :: mid ++ RBRACKET :: post)))
          = Some (LBRACKET :: mid ++ [RBRACKET])) as Hm.
  { rewrite Ht. by apply matchBracketed_app. }
  split; [done|].
  unfold extractStyles, parsedStyles. rewrite Hm, Hparse.
  destruct (length l <? 3); [done|]. done.
Qed.

(** X4. When the reply has a bracket match at all, the match starts at the
    first opening bracket of the reply and ends at its last closing bracket,
    so that a closing bracket anywhere later in the reply is taken into the
    text handed to [JSON.parse]. *)
Theorem matchBracketed_first_to_last (s m : jsstring) :
  matchBracketed s = Some m →
  ∃ pre mid post, s = pre ++ LBRACKET :: mid ++ RBRACKET :: post
                  ∧ m = LBRACKET :: mid ++ [RBRACKET]
                  ∧ (LBRACKET ∉ pre) ∧ (RBRACKET ∉ post).
Proof. apply matchBracketed_inv. Qed.

End BracketTheorems.

Lemma extractStyles_ignores_prose_witness :
  matchBracketed (styleText (Some (u "Here you go: " ++ LBRACKET :: uq "'A','B','C','D'"
                                     ++ RBRACKET :: u " Enjoy.")))
  = Some (LBRACKET :: uq "'A','B','C','D'" ++ [RBRACKET])
  ∧ extractStyles (Some (u "Here you go: " ++ LBRACKET :: uq "'A','B','C','D'"
                           ++ RBRACKET :: u " Enjoy."))
    = [JString (u "A"); JString (u "B"); JString (u "C")].
Proof.
  apply (extractStyles_ignores_prose (u "Here you go: ") (uq "'A','B','C','D'") (u " Enjoy.")
           [JString (u "A"); JString (u "B"); JString (u "C"); JString (u "D")]).
  - apply (bool_decide_unpack _). vm_compute. reflexivity.
  - apply (bool_decide_unpack _). vm_compute. reflexivity.
  - vm_compute. reflexivity.
Defined.

Lemma matchBracketed_first_to_last_witness :
  ∃ pre mid post,
    uq "Names [1]: ['A','B'] (see [notes])" = pre ++ LBRACKET :: mid ++ RBRACKET :: post
    ∧ uq "[1]: ['A','B'] (see [notes]" = LBRACKET :: mid ++ [RBRACKET]
    ∧ (LBRACKET ∉ pre) ∧ (RBRACKET ∉ post).
Proof.
  apply (matchBracketed_first_to_last (uq "Names [1]: ['A','B'] (see [notes])")).
  vm_compute. reflexivity.
Defined.
(** ** Trimming and the fences of [generateArtifact] *)

Section TrimFacts.
Implicit Types (s t w : jsstring).

Lemma last_rev s : list.last (rev s) = s !! 0.
Proof. destruct s as [|c s]; [done|]. simpl. by rewrite last_snoc. Qed.

Lemma head_rev s : rev s !! 0 = list.last s.
Proof. rewrite <- last_rev. by rewrite rev_involutive. Qed.

Lemma Blank_rev w : Blank w → Blank (rev w).
Proof.
  unfold Blank. rewrite !Forall_forall. intros H c Hc. apply H. by apply elem_of_rev.
Qed.

Lemma trimStart_split s :
  ∃ w, s = w ++ trimStart s ∧ Blank w ∧ NoLead (trimStart s).
Proof.
  unfold Blank, NoLead.
  induction s as [|c s (w & Hs & Hw & Hn)]; simpl.
  - by exists [].
  - destruct (isWhiteSpace c) eqn:Hc.
    + exists (c :: w). split_and!; [|by constructor|done].
      simpl. by rewrite <- Hs.
    + exists []. split_and!; [done|constructor|]. by intros ? [= <-].
Qed.

Lemma trimStart_id s : NoLead s → trimStart s = s.
Proof. destruct s as [|c s]; [done|]. intros H. simpl. by rewrite (H c). Qed.

Lemma trimStart_blank w s : Blank w → trimStart (w ++ s) = trimStart s.
Proof. induction 1 as [|c w Hc _ IH]; [done|]. simpl. by rewrite Hc. Qed.

Lemma trimEnd_split s :
  ∃ w, s = trimEnd s ++ w ∧ Blank w ∧ NoTrail (trimEnd s).
Proof.
  unfold trimEnd. destruct (trimStart_split (rev s)) as (w & Hs & Hw & Hn).
  exists (rev w). split_and!.
  - rewrite <- rev_app_distr, <- Hs. by rewrite rev_involutive.
  - by apply Blank_rev.
  - intros c. rewrite last_rev. apply Hn.
Qed.

Lemma trimEnd_id s : NoTrail s → trimEnd s = s.
Proof.
  intros H. unfold trimEnd. rewrite trimStart_id; [apply rev_involutive|].
  intros c. rewrite head_rev. apply H.
Qed.

Lemma trimEnd_blank s w : Blank w → trimEnd (s ++ w) = trimEnd s.
Proof.
  intros Hw. unfold trimEnd. rewrite rev_app_distr, trimStart_blank; [done|].
  by apply Blank_rev.
Qed.

Lemma NoLead_prefix s t : NoLead (s ++ t) → NoLead s.
Proof. destruct s; [done|]. intros H c. apply H. Qed.

Lemma NoTrail_suffix s t : NoTrail (s ++ t) → NoTrail t.
Proof.
  intros H c Hc. apply H. destruct t as [|x t _] using rev_ind; [done|].
  rewrite app_assoc, last_snoc. by rewrite last_snoc in Hc.
Qed.

Lemma NoLead_take n s : NoLead s → NoLead (take n s).
Proof. intros H. apply (NoLead_prefix _ (drop n s)). by rewrite take_drop. Qed.

Lemma NoTrail_drop n s : NoTrail s → NoTrail (drop n s).
Proof. intros H. apply (NoTrail_suffix (take n s)). by rewrite take_drop. Qed.

Lemma NoLead_trimStart s : NoLead (trimStart s).
Proof. by destruct (trimStart_split s) as (w & _ & _ & ?). Qed.

Lemma NoTrail_trimEnd s : NoTrail (trimEnd s).
Proof. by destruct (trimEnd_split s) as (w & _ & _ & ?). Qed.

Lemma NoTrail_trimStart s : NoTrail s → NoTrail (trimStart s).
Proof.
  intros H. destruct (trimStart_split s) as (w & Hs & _).
  apply (NoTrail_suffix w). by rewrite <- Hs.
Qed.

Lemma NoLead_trimEnd s : NoLead s → NoLead (trimEnd s).
Proof.
  intros H. destruct (trimEnd_split s) as (w & Hs & _).
  apply (NoLead_prefix _ w). by rewrite <- Hs.
Qed.

(** A text is its own [trim] exactly when neither end is whitespace. *)
Lemma trim_fixed s : trim s = s ↔ NoLead s ∧ NoTrail s.
Proof.
  unfold trim. split.
  - intros H. rewrite <- H. split.
    + apply NoLead_trimEnd, NoLead_trimStart.
    + apply NoTrail_trimEnd.
  - intros [H1 H2]. rewrite trimStart_id by done. by apply trimEnd_id.
Qed.

Lemma Blank_NoLead_nil w : Blank w → NoLead w → w = [].
Proof.
  destruct w as [|c w]; [done|]. intros Hw Hn.
  apply Forall_cons in Hw as [Hc _]. by rewrite (Hn c) in Hc.
Qed.

Lemma trimStart_all_blank w : Blank w → trimStart w = [].
Proof.
  intros Hw. destruct (trimStart_split w) as (a & Ha & _ & Hn).
  apply Blank_NoLead_nil; [|done].
  unfold Blank in *. rewrite Ha in Hw. by apply Forall_app in Hw as [_ ?].
Qed.

(** Whitespace around a text with no whitespace at its ends is what [trim]
    removes. *)
Lemma trim_pad w1 s w2 :
  Blank w1 → Blank w2 → NoLead s → NoTrail s → trim (w1 ++ s ++ w2) = s.
Proof.
  intros H1 H2 Hl Ht. unfold trim. rewrite trimStart_blank by done.
  destruct s as [|c s].
  - simpl. by rewrite trimStart_all_blank.
  - rewrite trimStart_id by (intros x [= <-]; by apply Hl).
    rewrite trimEnd_blank by done. by apply trimEnd_id.
Qed.

End TrimFacts.

Section FenceFacts.
Implicit Types (s t w body : jsstring).

Lemma Piece_refl s : Piece s s.
Proof. exists [], []. by rewrite app_nil_r. Qed.

Lemma Piece_trans r s t : Piece r s → Piece s t → Piece r t.
Proof.
  intros (a & b & ->) (a' & b' & ->). exists (a' ++ a), (b ++ b').
  by rewrite <- !app_assoc.
Qed.

Lemma Piece_drop n s : Piece (drop n s) s.
Proof. exists (take n s), []. by rewrite app_nil_r, take_drop. Qed.

Lemma Piece_take n s : Piece (take n s) s.
Proof. exists [], (drop n s). simpl. by rewrite take_drop. Qed.

Lemma Piece_trimStart s : Piece (trimStart s) s.
Proof.
  destruct (trimStart_split s) as (w & Hs & _). exists w, [].
  by rewrite app_nil_r.
Qed.

Lemma Piece_trimEnd s : Piece (trimEnd s) s.
Proof. destruct (trimEnd_split s) as (w & Hs & _). by exists [], w. Qed.

Lemma substring_0 s n : substring s 0 n = take n s.
Proof. unfold substring. by rewrite drop_0, Nat.sub_0_r. Qed.

(** The state after each of the three steps: a piece of the text with no
    whitespace at its ends. *)
Lemma finalizeHtml_steps s :
  NoLead (finalizeHtml s) ∧ NoTrail (finalizeHtml s) ∧ Piece (finalizeHtml s) s.
Proof.
  unfold finalizeHtml, substringFrom. rewrite substring_0.
  set (s1 := trim s).
  assert (NoLead s1 ∧ NoTrail s1 ∧ Piece s1 s) as (L1 & T1 & P1).
  { split_and!.
    - apply NoLead_trimEnd, NoLead_trimStart.
    - apply NoTrail_trimEnd.
    - eapply Piece_trans; [apply Piece_trimEnd|apply Piece_trimStart]. }
  set (s2 := if startsWith s1 (u "```html") then trimStart (drop 7 s1) else s1).
  assert (NoLead s2 ∧ NoTrail s2 ∧ Piece s2 s) as (L2 & T2 & P2).
  { subst s2. destruct (startsWith s1 _); [|done]. split_and!.
    - apply NoLead_trimStart.
    - by apply NoTrail_trimStart, NoTrail_drop.
    - eapply Piece_trans; [apply Piece_trimStart|].
      eapply Piece_trans; [apply Piece_drop|done]. }
  set (s3 := if startsWith s2 (u "```") then trimStart (drop 3 s2) else s2).
  assert (NoLead s3 ∧ NoTrail s3 ∧ Piece s3 s) as (L3 & T3 & P3).
  { subst s3. destruct (startsWith s2 _); [|done]. split_and!.
    - apply NoLead_trimStart.
    - by apply NoTrail_trimStart, NoTrail_drop.
    - eapply Piece_trans; [apply Piece_trimStart|].
      eapply Piece_trans; [apply Piece_drop|done]. }
  destruct (endsWith s3 _); [|done]. split_and!.
  - by apply NoLead_trimEnd, NoLead_take.
  - apply NoTrail_trimEnd.
  - eapply Piece_trans; [apply Piece_trimEnd|].
    eapply Piece_trans; [apply Piece_take|done].
Qed.

Lemma startsWith_app s p : startsWith (p ++ s) p = true.
Proof. induction p as [|c p IH]; [by destruct s|]. simpl. by rewrite N.eqb_refl. Qed.

Lemma endsWith_app s p : endsWith (s ++ p) p = true.
Proof. unfold endsWith. rewrite rev_app_distr. apply startsWith_app. Qed.

Lemma startsWith_nil s : startsWith s [] = true.
Proof. by destruct s. Qed.

(** A text that does not start with [p] does not start with a text that
    [p] starts. *)
Lemma startsWith_longer s p q :
  startsWith s p = false → startsWith s (p ++ q) = false.
Proof.
  revert s. induction p as [|c p IH]; intros s; [by rewrite startsWith_nil|].
  destruct s as [|x s]; [done|]. simpl.
  destruct (N.eqb x c); [apply IH|done].
Qed.

Lemma NoLead_app body t : body ≠ [] → NoLead body → NoLead (body ++ t).
Proof. destruct body; [done|]. intros _ H c. apply H. Qed.

Lemma last_app_fence t : list.last (t ++ u "```") = Some 96%N.
Proof.
  change (u "```") with ([96; 96] ++ [96])%N. by rewrite app_assoc, last_snoc.
Qed.

(** The closing fence: after the opening one is gone, the last step leaves
    the body. *)
Lemma closing_fence body w3 :
  Blank w3 → NoLead body → NoTrail body →
  let y := trimStart (body ++ w3 ++ u "```") in
  (if endsWith y (u "```") then trimEnd (take (length y - 3) y) else y) = body.
Proof.
  intros Hw Hl Ht. destruct (decide (body = [])) as [->|Hne].
  - simpl. rewrite trimStart_blank by done. reflexivity.
  - simpl. rewrite trimStart_id by by apply NoLead_app.
    rewrite app_assoc, endsWith_app.
    rewrite take_app_length'; [|rewrite !length_app; simpl; lia].
    rewrite trimEnd_blank by done. by apply trimEnd_id.
Qed.

(** The second step does no harm after the first has removed the opening
    fence. *)
Lemma second_step_harmless body w3 :
  Blank w3 → NoLead body → NoTrail body → startsWith body (u "```") = false →
  let y := trimStart (body ++ w3 ++ u "```") in
  let y2 := if startsWith y (u "```") then trimStart (drop 3 y) else y in
  (if endsWith y2 (u "```") then trimEnd (take (length y2 - 3) y2) else y2) = body.
Proof.
  intros Hw Hl Ht Hs. destruct (decide (body = [])) as [->|Hne].
  - simpl. rewrite trimStart_blank by done. reflexivity.
  - pose proof (closing_fence body w3 Hw Hl Ht) as Hc. simpl in Hc. simpl.
    destruct (startsWith (trimStart (body ++ w3 ++ u "```")) (u "```")) eqn:E; [|done].
    clear Hc. rewrite !(trimStart_id (body ++ _)) by by apply NoLead_app.
    rewrite (trimStart_id (body ++ _)) in E by by apply NoLead_app.
    change (u "```") with [96; 96; 96]%N in *.
    destruct body as [|c1 [|c2 [|c3 body]]]; [done| | |].
    + destruct w3 as [|x w3].
      * simpl in E. destruct (N.eqb_spec c1 96) as [->|]; [reflexivity|done].
      * apply Forall_cons in Hw as [Hx _]. simpl in E.
        destruct (N.eqb_spec x 96) as [->|]; [done|].
        by rewrite andb_false_r in E.
    + destruct w3 as [|x w3].
      * simpl in E. destruct (N.eqb_spec c1 96) as [->|]; [|done].
        destruct (N.eqb_spec c2 96) as [->|]; [reflexivity|done].
      * apply Forall_cons in Hw as [Hx _]. simpl in E.
        destruct (N.eqb_spec x 96) as [->|]; [done|].
        by rewrite !andb_false_r in E.
    + simpl in E, Hs. rewrite startsWith_nil in E, Hs. by rewrite Hs in E.
Qed.

End FenceFacts.

Section FenceTheorems.
Implicit Types (w body : jsstring).

(** X5. What [generateArtifact] stores at the end of a stream is a run of
    consecutive code units of the accumulated text, with no whitespace at
    either end: trimming it again changes nothing. *)
Theorem finalizeHtml_trimmed_piece (accumulatedHtml : jsstring) :
  trim (finalizeHtml accumulatedHtml) = finalizeHtml accumulatedHtml
  ∧ Piece (finalizeHtml accumulatedHtml) accumulatedHtml.
Proof.
  destruct (finalizeHtml_steps accumulatedHtml) as (L & T & P).
  split; [|done]. by apply trim_fixed.
Qed.

(** X6. A body with no whitespace at its ends that does not itself start
    with three backticks comes out of the fence stripping unchanged: when
    it is wrapped in an html fence, when it is wrapped in a plain fence
    followed by whitespace, and when it has no fence at all and does not
    end with three backticks; whitespace around the whole, after the
    opening fence and before the closing fence is dropped. *)
Theorem finalizeHtml_unfences (w1 w2 w3 w4 body : jsstring) :
  Blank w1 → Blank w2 → Blank w3 → Blank w4 →
  trim body = body → startsWith body (u "```") = false →
  finalizeHtml (w1 ++ u "```html" ++ w2 ++ body ++ w3 ++ u "```" ++ w4) = body
  ∧ (w2 ≠ [] →
     finalizeHtml (w1 ++ u "```" ++ w2 ++ body ++ w3 ++ u "```" ++ w4) = body)
  ∧ (endsWith body (u "```") = false → finalizeHtml (w1 ++ body ++ w4) = body).
Proof.
  intros H1 H2 H3 H4 [Hl Ht]%trim_fixed Hs.
  assert (∀ t, NoLead (u "```" ++ t)) as Lf.
  { intros t c [= <-]. reflexivity. }
  assert (∀ t, NoTrail (t ++ u "```")) as Tf.
  { intros t c. rewrite last_app_fence. intros [= <-]. reflexivity. }
  split_and!.
  - unfold finalizeHtml, substringFrom. rewrite substring_0.
    replace (w1 ++ u "```html" ++ w2 ++ body ++ w3 ++ u "```" ++ w4)
      with (w1 ++ (u "```html" ++ w2 ++ body ++ w3 ++ u "```") ++ w4)
      by by rewrite <- !app_assoc.
    rewrite trim_pad; [|done|done|apply (Lf (u "html" ++ _))|..].
    2:{ rewrite !app_assoc. apply Tf. }
    rewrite startsWith_app.
    replace (drop 7 (u "```html" ++ w2 ++ body ++ w3 ++ u "```"))
      with (w2 ++ body ++ w3 ++ u "```") by reflexivity.
    rewrite (trimStart_blank w2) by done.
    by apply second_step_harmless.
  - intros Hw2. unfold finalizeHtml, substringFrom. rewrite substring_0.
    replace (w1 ++ u "```" ++ w2 ++ body ++ w3 ++ u "```" ++ w4)
      with (w1 ++ (u "```" ++ w2 ++ body ++ w3 ++ u "```") ++ w4)
      by by rewrite <- !app_assoc.
    rewrite trim_pad; [|done|done|apply Lf|].
    2:{ rewrite !app_assoc. apply Tf. }
    assert (startsWith (u "```" ++ w2 ++ body ++ w3 ++ u "```") (u "```html") = false) as ->.
    { destruct w2 as [|x w2]; [done|]. apply Forall_cons in H2 as [Hx _].
      change (u "```html") with ([96; 96; 96; 104] ++ u "tml")%N.
      apply startsWith_longer. simpl.
      destruct (N.eqb_spec x 104) as [->|]; done. }
    rewrite startsWith_app.
    replace (drop 3 (u "```" ++ w2 ++ body ++ w3 ++ u "```"))
      with (w2 ++ body ++ w3 ++ u "```") by reflexivity.
    rewrite (trimStart_blank w2) by done.
    by apply closing_fence.
  - intros He. unfold finalizeHtml, substringFrom. rewrite substring_0.
    rewrite trim_pad by done.
    change (u "```html") with (u "```" ++ u "html").
    rewrite (startsWith_longer _ _ _ Hs), Hs, He. done.
Qed.

End FenceTheorems.

Lemma finalizeHtml_unfences_witness :
  finalizeHtml ([NEWLINE] ++ u "```html" ++ [NEWLINE] ++ u "<p>Hi</p>" ++ [NEWLINE]
                ++ u "```" ++ [NEWLINE]) = u "<p>Hi</p>"
  ∧ ([NEWLINE] ≠ [] →
     finalizeHtml ([NEWLINE] ++ u "```" ++ [NEWLINE] ++ u "<p>Hi</p>" ++ [NEWLINE]
                   ++ u "```" ++ [NEWLINE]) = u "<p>Hi</p>")
  ∧ (endsWith (u "<p>Hi</p>") (u "```") = false →
     finalizeHtml ([NEWLINE] ++ u "<p>Hi</p>" ++ [NEWLINE]) = u "<p>Hi</p>").
Proof.
  apply (finalizeHtml_unfences [NEWLINE] [NEWLINE] [NEWLINE] [NEWLINE] (u "<p>Hi</p>"));
    try (repeat constructor; reflexivity); vm_compute; reflexivity.
Defined.
(** ** The names of the downloaded files *)

Section FileNameFacts.

Lemma isSlug_sanitize (c : N) :
  isSlug (let c' := if isAsciiAlnum c then c else 45%N in
          if N.leb 65 c' && N.leb c' 90 then (c' + 32)%N else c') = true.
Proof.
  unfold isAsciiAlnum, isSlug. simpl.
  repeat match goal with
         | |- context [N.leb ?a ?b] => destruct (N.leb_spec a b)
         | |- context [N.eqb ?a ?b] => destruct (N.eqb_spec a b)
         end; simpl in *; try done; lia.
Qed.

Lemma isSlug_sanitized (s : jsstring) :
  forallb isSlug (toLowerCase (replaceNonAlnum s)) = true.
Proof.
  induction s as [|c s IH]; [done|].
  unfold toLowerCase, replaceNonAlnum in *. rewrite !fmap_cons.
  change (forallb isSlug (?x :: ?l)) with (isSlug x && forallb isSlug l).
  rewrite IH, andb_true_r. apply isSlug_sanitize.
Qed.

Lemma forallb_take {A} (f : A → bool) n : ∀ l : list A,
  forallb f l = true → forallb f (take n l) = true.
Proof.
  induction n as [|n IH]; intros [|x l]; simpl; try done.
  intros [-> H]%andb_prop. simpl. by apply IH.
Qed.

End FileNameFacts.

Section FileNameTheorems.

(** X7. A download of the focused artifact is named [flash-], the prompt
    part, a hyphen, the style part and [.html], where the prompt part has
    the length of the prompt up to 30 and both parts have the length of
    what they are made from and hold nothing but digits, lower-case ASCII
    letters and hyphens. *)
Theorem download_filename_slug (st : App) (filename content : jsstring) :
  handleDownloadArtifact st = Saved filename content →
  ∃ currentSession artifact styleName safePrompt safeStyle,
    nthZ (sessions st) (currentSessionIndex st) = Some currentSession
    ∧ (focusedArtifactIndex st ≫= λ j, Session.artifacts currentSession !! j) = Some artifact
    ∧ Artifact.styleName artifact = Some (JString styleName)
    ∧ filename = u "flash-" ++ safePrompt ++ u "-" ++ safeStyle ++ u ".html"
    ∧ length safePrompt = length (Session.prompt currentSession) `min` 30
    ∧ length safeStyle = length styleName
    ∧ forallb isSlug safePrompt = true
    ∧ forallb isSlug safeStyle = true.
Proof.
  unfold handleDownloadArtifact.
  destruct (nthZ _ _) as [currentSession|] eqn:Hc; [|by destruct (focusedArtifactIndex st)].
  destruct (focusedArtifactIndex st) as [focused|]; [|done]. simpl.
  destruct (_ !! focused) as [artifact|] eqn:Ha; [|done].
  destruct (Artifact.styleName artifact) as [[| | |styleName| |]|] eqn:Hn; try done.
  intros [= <- <-].
  exists currentSession, artifact, styleName,
    (substring (toLowerCase (replaceNonAlnum (Session.prompt currentSession))) 0 30),
    (toLowerCase (replaceNonAlnum styleName)).
  split_and!; try done.
  - rewrite substring_0, length_take. unfold toLowerCase, replaceNonAlnum.
    rewrite !length_fmap. lia.
  - unfold toLowerCase, replaceNonAlnum. by rewrite !length_fmap.
  - rewrite substring_0. apply forallb_take, isSlug_sanitized.
  - apply isSlug_sanitized.
Qed.

End FileNameTheorems.
(** ** What every transition keeps *)

Section ShapeFacts.
Implicit Types (st : App) (ss : list Session.t) (a : AppState.t).

Lemma skeleton_withArtifacts sess arts :
  Artifact.id <$> arts = Artifact.id <$> Session.artifacts sess →
  skeleton (withArtifacts sess arts) = skeleton sess.
Proof. unfold skeleton. simpl. by intros ->. Qed.

Lemma skeleton_updateArtifact sessionId artifactId f ss :
  (∀ art, Artifact.id (f art) = Artifact.id art) →
  skeleton <$> updateArtifact sessionId artifactId f ss = skeleton <$> ss.
Proof.
  intros Hf. unfold updateArtifact. rewrite <- list_fmap_compose.
  apply list_fmap_ext. intros _ sess _. simpl.
  destruct (decide _); [|done]. apply skeleton_withArtifacts.
  rewrite <- list_fmap_compose. apply list_fmap_ext. intros _ art _. simpl.
  by destruct (decide _).
Qed.

Lemma fmap_imap_id {A B} (g : A → B) (f : nat → A → A) (l : list A) :
  (∀ i x, g (f i x) = g x) → g <$> imap f l = g <$> l.
Proof.
  intros H. revert f H. induction l as [|x l IH]; intros f H; [done|].
  simpl. rewrite H. f_equal. apply IH. intros i y. apply H.
Qed.

Lemma skeleton_updateFocused i j f ss :
  (∀ art, Artifact.id (f art) = Artifact.id art) →
  skeleton <$> updateFocused i j f ss = skeleton <$> ss.
Proof.
  intros Hf. unfold updateFocused. apply fmap_imap_id. intros k sess.
  destruct (decide _); [|done]. apply skeleton_withArtifacts.
  apply fmap_imap_id. intros k' art. by destruct (decide _).
Qed.

Lemma skeleton_setStyleNames sessionId generatedStyles ss :
  skeleton <$> setStyleNames sessionId generatedStyles ss = skeleton <$> ss.
Proof.
  unfold setStyleNames. rewrite <- list_fmap_compose.
  apply list_fmap_ext. intros _ sess _. simpl.
  destruct (decide _); [done|]. apply skeleton_withArtifacts.
  by apply fmap_imap_id.
Qed.

Lemma skeleton_applyWrite w ss : skeleton <$> applyWrite w ss = skeleton <$> ss.
Proof. destruct w; simpl; by apply skeleton_updateArtifact. Qed.

(** A submission that goes through. *)
Lemma handleSendMessage_effective manualPrompt baseTime sessionId st :
  trim (promptToUse manualPrompt st) ≠ [] → isLoading st = false →
  let st' := handleSendMessage manualPrompt baseTime sessionId st in
  sessions st' = sessions st
                 ++ [newSession sessionId (trim (promptToUse manualPrompt st)) baseTime]
  ∧ currentSessionIndex st' = (currentSessionIndex st + 1)%Z
  ∧ history st' = {| past := past (history st) ++ [snapshot st]; future := [] |}
  ∧ focusedArtifactIndex st' = None
  ∧ isLoading st' = true
  ∧ inputValue st' = match manualPrompt with
                     | Some (c :: p) => inputValue st
                     | _ => []
                     end.
Proof.
  intros Hne Hl. unfold handleSendMessage. simpl.
  rewrite Hl, orb_false_r. rewrite bool_decide_eq_false_2 by done.
  by destruct manualPrompt as [[|]|].
Qed.

Lemma handleSendMessage_ignored manualPrompt baseTime sessionId st :
  trim (promptToUse manualPrompt st) = [] ∨ isLoading st = true →
  handleSendMessage manualPrompt baseTime sessionId st = st.
Proof.
  intros H. unfold handleSendMessage. simpl.
  destruct H as [-> | ->]; [done|]. by rewrite orb_true_r.
Qed.

Lemma handleSendMessage_cases manualPrompt baseTime sessionId st :
  handleSendMessage manualPrompt baseTime sessionId st = st
  ∨ (trim (promptToUse manualPrompt st) ≠ [] ∧ isLoading st = false).
Proof.
  destruct (decide (trim (promptToUse manualPrompt st) = [])) as [H|H].
  - left. apply handleSendMessage_ignored. by left.
  - destruct (isLoading st) eqn:Hl.
    + left. apply handleSendMessage_ignored. by right.
    + by right.
Qed.

End ShapeFacts.

(** The history is as it was: the property is to be shown of the new live
    state. *)
Ltac on_live H :=
  eapply Everywhere_live; [ | | exact H]; [reflexivity|]; destruct H as (H & _).

(** A property of the live state and of every snapshot that depends on the
    shape only, and that a new session and a move of the index keep, is
    kept by every transition. *)
Section EverywhereShape.
Variable P : AppState.t → Prop.
Hypothesis P_shape : ∀ a b, shape a = shape b → P a → P b.
Hypothesis P_send : ∀ ss i sessionId prompt baseTime,
  P (AppState.mk ss i) → prompt ≠ [] → trim prompt = prompt →
  P (AppState.mk (ss ++ [newSession sessionId prompt baseTime]) (i + 1)).
Hypothesis P_next : ∀ ss i,
  P (AppState.mk ss i) → (i < Z.of_nat (length ss) - 1)%Z → P (AppState.mk ss (i + 1)).
Hypothesis P_prev : ∀ ss i,
  P (AppState.mk ss i) → (0 < i)%Z → P (AppState.mk ss (i - 1)).

Lemma P_update (f : list Session.t → list Session.t) ss i :
  skeleton <$> f ss = skeleton <$> ss → P (AppState.mk ss i) → P (AppState.mk (f ss) i).
Proof. intros Hf. apply P_shape. unfold shape. simpl. by rewrite Hf. Qed.

Lemma step_Everywhere a st : Everywhere P st → Everywhere P (step a st).
Proof.
  intros H. destruct a; simpl.
  - destruct (handleSendMessage_cases manualPrompt baseTime sessionId st) as [->|[Hne Hl]];
      [done|].
    destruct (handleSendMessage_effective manualPrompt baseTime sessionId st Hne Hl)
      as (Hs & Hi & Hh & _).
    destruct H as (Hlive & Hp & Hf). unfold Everywhere. rewrite Hh. simpl.
    split_and!; [|by apply Forall_app; split; [|apply Forall_singleton]|done].
    unfold snapshot. rewrite Hs, Hi. apply P_send; [done|done|].
    apply trim_fixed. split; [apply NoLead_trimEnd, NoLead_trimStart|apply NoTrail_trimEnd].
  - on_live H.
    by apply (P_update _ _ _ (skeleton_setStyleNames _ _ _)).
  - on_live H.
    by apply (P_update _ _ _ (skeleton_applyWrite _ _)).
  - by on_live H.
  - unfold applyVariation. apply Everywhere_pushToHistory in H.
    destruct (focusedArtifactIndex st) as [focused|]; [|done].
    on_live H.
    refine (P_update (updateFocused _ _ _) _ _ _ H). by apply skeleton_updateFocused.
  - unfold handleGenerateImages. repeat case_match; try done.
    apply Everywhere_pushToHistory in H. by on_live H.
  - on_live H.
    refine (P_update (updateFocused _ _ _) _ _ _ H). by apply skeleton_updateFocused.
  - by on_live H.
  - unfold nextItem. destruct (focusedArtifactIndex st) as [focused|].
    + case_match; [|done]. by on_live H.
    + destruct (Z.ltb_spec (currentSessionIndex st) (Z.of_nat (length (sessions st)) - 1));
        [|done].
      apply Everywhere_pushToHistory in H.
      on_live H.
      by apply P_next.
  - unfold prevItem. destruct (focusedArtifactIndex st) as [focused|].
    + case_match; [|done]. by on_live H.
    + destruct (Z.ltb_spec 0 (currentSessionIndex st)); [|done].
      apply Everywhere_pushToHistory in H.
      on_live H.
      by apply P_prev.
  - by apply Everywhere_handleUndo.
  - by apply Everywhere_handleRedo.
Qed.

Lemma run_Everywhere actions : ∀ st, Everywhere P st → Everywhere P (run actions st).
Proof.
  unfold run. induction actions as [|a actions IH]; intros st H; [done|].
  simpl. apply IH. by apply step_Everywhere.
Qed.

End EverywhereShape.

(** ** Three properties of every state, live or recorded *)

Section InvariantFacts.
Implicit Types (st : App) (ss : list Session.t) (a b : AppState.t).

Lemma shape_length a b :
  shape a = shape b → length (AppState.sessions a) = length (AppState.sessions b).
Proof.
  intros [= H _]. apply (f_equal length) in H. by rewrite !length_fmap in H.
Qed.

Lemma Current_shape a b : shape a = shape b → Current a → Current b.
Proof.
  intros H. pose proof (shape_length _ _ H) as Hlen.
  assert (AppState.currentSessionIndex a = AppState.currentSessionIndex b) as Hi
    by by injection H.
  unfold Current. rewrite <- Hlen, <- Hi. intros [[Hnil ->]|Hin]; [left|by right].
  split; [|done]. apply nil_length_inv. by rewrite <- Hlen, Hnil.
Qed.

Lemma Current_run actions st : Everywhere Current st → Everywhere Current (run actions st).
Proof.
  apply run_Everywhere.
  - apply Current_shape.
  - unfold Current. simpl. intros ss i sessionId prompt baseTime H _ _. right.
    rewrite length_app. simpl. destruct H as [[-> ->]|H]; simpl; lia.
  - unfold Current. simpl. intros ss i H Hi. right. destruct H as [[-> ->]|H]; simpl in *; lia.
  - unfold Current. simpl. intros ss i H Hi. right. destruct H as [[-> ->]|H]; simpl in *; lia.
Qed.

Lemma Forall_skeleton (Q : jsstring * jsstring * Z * list jsstring → Prop) ss ss' :
  skeleton <$> ss = skeleton <$> ss' →
  Forall (λ s, Q (skeleton s)) ss → Forall (λ s, Q (skeleton s)) ss'.
Proof.
  intros H H1. apply (Forall_fmap skeleton Q). rewrite <- H. by apply Forall_fmap.
Qed.

Lemma TrimmedPrompts_run actions st :
  Everywhere TrimmedPrompts st → Everywhere TrimmedPrompts (run actions st).
Proof.
  apply run_Everywhere.
  - intros a b [= H _].
    apply (Forall_skeleton (λ k, k.1.1.2 ≠ [] ∧ trim k.1.1.2 = k.1.1.2) _ _ H).
  - unfold TrimmedPrompts. simpl. intros ss i sessionId prompt baseTime H Hne Ht.
    apply Forall_app. split; [done|]. by apply Forall_singleton.
  - done.
  - done.
Qed.

Lemma PlaceholderIds_run actions st :
  Everywhere PlaceholderIds st → Everywhere PlaceholderIds (run actions st).
Proof.
  apply run_Everywhere.
  - intros a b [= H _].
    apply (Forall_skeleton
             (λ k, k.2 = Artifact.id <$> placeholderArtifacts k.1.1.1) _ _ H).
  - unfold PlaceholderIds. simpl. intros ss i sessionId prompt baseTime H Hne Ht.
    apply Forall_app. split; [done|]. by apply Forall_singleton.
  - done.
  - done.
Qed.

Lemma Everywhere_initialApp (P : AppState.t → Prop) :
  P (AppState.mk [] (-1)) → Everywhere P initialApp.
Proof. intros H. by split_and!; [|constructor..]. Qed.

(** *** The history *)

Lemma quiet_history act st : quiet act = true → history (step act st) = history st.
Proof. by destruct act. Qed.

Lemma run_quiet_history acts : ∀ st,
  forallb quiet acts = true → history (run acts st) = history st.
Proof.
  unfold run. induction acts as [|act acts IH]; intros st; [done|].
  simpl. intros [Hq Hall]%andb_prop. rewrite IH by done. by apply quiet_history.
Qed.

Lemma step_history act st :
  act ≠ AUndo → act ≠ ARedo →
  history (step act st) = history st
  ∨ history (step act st)
    = {| past := past (history st) ++ [snapshot st]; future := [] |}.
Proof.
  intros Hu Hr. destruct act; simpl; try done; try by left.
  - destruct (handleSendMessage_cases manualPrompt baseTime sessionId st) as [->|[Hne Hl]];
      [by left|].
    right. by destruct (handleSendMessage_effective manualPrompt baseTime sessionId st Hne Hl)
      as (_ & _ & Hh & _).
  - unfold applyVariation. right. by destruct (focusedArtifactIndex st).
  - unfold handleGenerateImages. repeat case_match; by (left + right).
  - unfold nextItem. repeat case_match; by (left + right).
  - unfold prevItem. repeat case_match; by (left + right).
Qed.

End InvariantFacts.

Section StateTheorems.
Implicit Types (st : App) (ss : list Session.t).

(** X8. Once a state has a current session whenever it has sessions (the
    index is [-1] only on an empty list), every transition keeps it so, in
    the live state and in every recorded one: with at least one session,
    [sessions[currentSessionIndex]] is defined, and the session groups
    before it are past, the ones after it future and exactly that one is
    active. *)
Theorem current_session_is_shown (actions : list Action) (st : App) :
  Everywhere Current st →
  let st' := run actions st in
  Everywhere Current st'
  ∧ (sessions st' ≠ [] →
     is_Some (currentSession st')
     ∧ ∃ k, k < length (sessions st') ∧ currentSessionIndex st' = Z.of_nat k
            ∧ ∀ sIndex, positionClass sIndex (currentSessionIndex st')
                        = if sIndex <? k then past_session
                          else if sIndex =? k then active_session
                          else future_session).
Proof.
  intros H st'. pose proof (Current_run actions st H) as H'. fold st' in H'.
  split; [done|]. intros Hne. destruct H' as ([[Hnil _]|Hin] & _); [done|].
  simpl in Hin. split.
  - unfold currentSession, nthZ. destruct (Z.ltb_spec (currentSessionIndex st') 0); [lia|].
    apply lookup_lt_is_Some. lia.
  - exists (Z.to_nat (currentSessionIndex st')). split_and!; [lia|lia|].
    intros sIndex. unfold positionClass.
    destruct (Nat.ltb_spec sIndex (Z.to_nat (currentSessionIndex st'))),
             (Nat.eqb_spec sIndex (Z.to_nat (currentSessionIndex st')));
      repeat match goal with
             | |- context [Z.eqb ?a ?b] => destruct (Z.eqb_spec a b)
             | |- context [Z.ltb ?a ?b] => destruct (Z.ltb_spec a b)
             end; try done; lia.
Qed.

(** X9. Every session's prompt is a text that is not empty and has no
    whitespace at either end: a submission stores the trimmed input and
    does not go through when that is empty, and no transition changes a
    prompt. *)
Theorem session_prompts_trimmed (actions : list Action) (st : App) :
  Everywhere TrimmedPrompts st →
  Everywhere TrimmedPrompts (run actions st)
  ∧ Forall (λ s, Session.prompt s ≠ [] ∧ trim (Session.prompt s) = Session.prompt s)
           (sessions (run actions st)).
Proof.
  intros H. pose proof (TrimmedPrompts_run actions st H) as H'.
  split; [done|]. by destruct H' as (? & _).
Qed.

(** X10. The artifacts of every session carry the ids the submission gave
    them, the session's id followed by [_0], [_1] and [_2]: three distinct
    ids, whatever has been streamed, applied, undone or redone since. *)
Theorem artifact_ids_fixed (actions : list Action) (st : App) :
  Everywhere PlaceholderIds st →
  Everywhere PlaceholderIds (run actions st)
  ∧ Forall (λ s, Artifact.id <$> Session.artifacts s
                 = [Session.id s ++ u "_0"; Session.id s ++ u "_1"; Session.id s ++ u "_2"]
                 ∧ NoDup (Artifact.id <$> Session.artifacts s))
           (sessions (run actions st)).
Proof.
  intros H. pose proof (PlaceholderIds_run actions st H) as H'.
  split; [done|]. destruct H' as (Hl & _).
  eapply Forall_impl; [exact Hl|]. intros s Hs. simpl in Hs. split.
  - by rewrite Hs.
  - rewrite Hs. apply placeholder_ids_NoDup.
Qed.

(** X11. No transition other than undo and redo removes, reorders or
    renames a session: ids, prompts, timestamps and artifact ids stay as
    they are, and the only change of the list is the one session a
    submission appends. *)
Theorem sessions_append_only (a : Action) (st : App) :
  a ≠ AUndo → a ≠ ARedo →
  skeleton <$> sessions (step a st) = skeleton <$> sessions st
  ∨ ∃ manualPrompt baseTime sessionId,
      a = ASend manualPrompt baseTime sessionId
      ∧ sessions (step a st)
        = sessions st ++ [newSession sessionId (trim (promptToUse manualPrompt st)) baseTime].
Proof.
  intros Hu Hr. destruct a; simpl; try done.
  - destruct (handleSendMessage_cases manualPrompt baseTime sessionId st) as [->|[Hne Hl]];
      [by left|].
    right. exists manualPrompt, baseTime, sessionId. split; [done|].
    by destruct (handleSendMessage_effective manualPrompt baseTime sessionId st Hne Hl)
      as (Hs & _).
  - left. apply skeleton_setStyleNames.
  - left. apply skeleton_applyWrite.
  - by left.
  - left. unfold applyVariation. destruct (focusedArtifactIndex st); [|done].
    simpl. by apply skeleton_updateFocused.
  - left. unfold handleGenerateImages. by repeat case_match.
  - left. simpl. by apply skeleton_updateFocused.
  - by left.
  - left. unfold nextItem. by repeat case_match.
  - left. unfold prevItem. by repeat case_match.
Qed.

(** X12. The history changes in three ways only. An undo moves the last
    entry of the past into the live state and the live state to the front of
    the future, a redo moves the first entry of the future into the live
    state and the live state to the end of the past, and each does nothing
    when its stack is empty: neither adds, drops or reorders an entry. A
    transition that records appends the state it started from to the past
    and empties the future, so that redo is then without effect. What
    arrives from the model, the end of a generation and a change of focus
    record nothing. *)
Theorem history_discipline (a : Action) (st : App) :
  (quiet a = true → history (step a st) = history st)
  ∧ (a ≠ AUndo → a ≠ ARedo →
     history (step a st) = history st
     ∨ (history (step a st)
        = {| past := past (history st) ++ [snapshot st]; future := [] |}
        ∧ handleRedo (step a st) = step a st))
  ∧ (past (history st) = [] → step AUndo st = st)
  ∧ (∀ newPast previous, past (history st) = newPast ++ [previous] →
       history (step AUndo st)
       = {| past := newPast; future := snapshot st :: future (history st) |}
       ∧ snapshot (step AUndo st) = previous)
  ∧ (future (history st) = [] → step ARedo st = st)
  ∧ (∀ next newFuture, future (history st) = next :: newFuture →
       history (step ARedo st)
       = {| past := past (history st) ++ [snapshot st]; future := newFuture |}
       ∧ snapshot (step ARedo st) = next)
  ∧ timeline (step AUndo st) = timeline st
  ∧ timeline (step ARedo st) = timeline st.
Proof.
  split_and!.
  - apply quiet_history.
  - intros Hu Hr.
    destruct (step_history a st Hu Hr) as [H|H]; [by left|right].
    split; [done|]. unfold handleRedo. by rewrite H.
  - intros H. simpl. unfold handleUndo. by rewrite H.
  - intros newPast previous H. simpl. unfold handleUndo. rewrite H, last_snoc.
    rewrite length_app. simpl. rewrite Nat.add_sub, take_app_length.
    split; [done|]. by destruct previous.
  - intros H. simpl. unfold handleRedo. by rewrite H.
  - intros next newFuture H. simpl. unfold handleRedo. rewrite H.
    split; [done|]. by destruct next.
  - apply timeline_handleUndo.
  - apply timeline_handleRedo.
Qed.

(** X13. What arrives during a generation is not recorded: an undo after
    a submission, however much of its output has arrived, gives back the
    sessions and the index from before the submission, and a redo then
    gives back the session with all that had arrived. *)
Theorem undo_removes_generation (manualPrompt : option jsstring) (baseTime : Z)
    (sessionId : jsstring) (arrived : list Action) (st : App) :
  trim (promptToUse manualPrompt st) ≠ [] → isLoading st = false →
  forallb quiet arrived = true →
  let st1 := run arrived (handleSendMessage manualPrompt baseTime sessionId st) in
  snapshot (handleUndo st1) = snapshot st
  ∧ snapshot (handleRedo (handleUndo st1)) = snapshot st1.
Proof.
  intros Hne Hl Hq st1.
  destruct (handleSendMessage_effective manualPrompt baseTime sessionId st Hne Hl)
    as (_ & _ & Hh & _).
  assert (history st1 = {| past := past (history st) ++ [snapshot st]; future := [] |}) as H1.
  { unfold st1. by rewrite run_quiet_history. }
  assert (handleUndo st1
          = setCurrentSessionIndex (λ _, currentSessionIndex st)
              (setSessions (λ _, sessions st)
                 (setHistory (λ _, {| past := past (history st);
                                      future := [snapshot st1] |}) st1))) as ->.
  { unfold handleUndo. rewrite H1. simpl. rewrite last_snoc.
    rewrite length_app. simpl. rewrite Nat.add_sub, take_app_length. done. }
  split; [done|]. unfold handleRedo. simpl. by destruct st1.
Qed.

End StateTheorems.

(** ** Updates by position, and updates of a session that is not there *)

Section UpdateFacts.
Implicit Types (st : App) (ss : list Session.t).

Lemma imap_id_ext {A} (f : nat → A → A) (l : list A) :
  (∀ i x, l !! i = Some x → f i x = x) → imap f l = l.
Proof.
  intros H. apply list_eq. intros i. rewrite list_lookup_imap.
  destruct (l !! i) as [x|] eqn:E; [|done]. simpl. by rewrite (H i x).
Qed.

Lemma imap_insert {A} (f : A → A) (j : nat) (l : list A) (x : A) :
  l !! j = Some x →
  imap (λ k y, if decide (k = j) then f y else y) l = <[j := f x]> l.
Proof.
  intros Hj. apply list_eq. intros i. rewrite list_lookup_imap.
  destruct (decide (i = j)) as [->|Hne].
  - rewrite list_lookup_insert_eq by by eapply lookup_lt_Some.
    rewrite Hj. simpl. by repeat case_decide.
  - rewrite list_lookup_insert_ne by done.
    destruct (l !! i); [|done]. simpl. by repeat case_decide.
Qed.

(** The update by position replaces one artifact of one session. *)
Lemma updateFocused_insert i j f ss sess art :
  nthZ ss i = Some sess → Session.artifacts sess !! j = Some art →
  updateFocused i j f ss
  = <[Z.to_nat i := withArtifacts sess (<[j := f art]> (Session.artifacts sess))]> ss.
Proof.
  unfold nthZ. destruct (Z.ltb_spec i 0) as [|Hi]; [done|]. intros Hs Ha.
  unfold updateFocused. apply list_eq. intros k. rewrite list_lookup_imap.
  destruct (decide (k = Z.to_nat i)) as [->|Hne].
  - rewrite list_lookup_insert_eq by by eapply lookup_lt_Some.
    rewrite Hs. simpl. repeat case_decide; try lia.
    by rewrite (imap_insert f j _ art).
  - rewrite list_lookup_insert_ne by done.
    destruct (ss !! k); [|done]. simpl. repeat case_decide; done || lia.
Qed.

(** It changes nothing when there is no such session or no such artifact. *)
Lemma updateFocused_absent i j f ss :
  (∀ sess, nthZ ss i = Some sess → Session.artifacts sess !! j = None) →
  updateFocused i j f ss = ss.
Proof.
  intros H. unfold updateFocused. apply imap_id_ext. intros k sess Hk.
  destruct (decide _) as [<-|]; [|done].
  rewrite imap_id_ext; [by destruct sess|].
  intros k' art Hk'. destruct (decide _) as [->|]; [|done].
  rewrite H in Hk'; [done|]. unfold nthZ.
  destruct (Z.ltb_spec (Z.of_nat k) 0); [lia|]. by rewrite Nat2Z.id.
Qed.

Lemma updateArtifact_absent sessionId artifactId f ss :
  sessionId ∉ Session.id <$> ss → updateArtifact sessionId artifactId f ss = ss.
Proof.
  intros H. unfold updateArtifact. rewrite <- (list_fmap_id ss) at 2.
  apply list_fmap_ext. intros k sess Hk. simpl.
  destruct (decide _) as [<-|]; [|done].
  destruct H. apply list_elem_of_fmap. exists sess. split; [done|].
  by eapply list_elem_of_lookup_2.
Qed.

Lemma setStyleNames_absent sessionId generatedStyles ss :
  sessionId ∉ Session.id <$> ss → setStyleNames sessionId generatedStyles ss = ss.
Proof.
  intros H. unfold setStyleNames. rewrite <- (list_fmap_id ss) at 2.
  apply list_fmap_ext. intros k sess Hk. simpl.
  destruct (decide _) as [|Heq]; [done|].
  destruct H. apply list_elem_of_fmap. exists sess. split; [|by eapply list_elem_of_lookup_2].
  by destruct (decide (Session.id sess = sessionId)).
Qed.

Lemma forSession_quiet sessionId a : forSession sessionId a = true → quiet a = true.
Proof. by destruct a. Qed.

(** What arrives for a session that is not in the list changes neither the
    sessions nor the index nor the history. *)
Lemma forSession_absent sessionId a st :
  forSession sessionId a = true → sessionId ∉ Session.id <$> sessions st →
  snapshot (step a st) = snapshot st ∧ history (step a st) = history st.
Proof.
  intros Hf Habs. split; [|by apply quiet_history, (forSession_quiet sessionId)].
  destruct a; simpl in *; try done.
  - apply bool_decide_eq_true in Hf as ->. unfold snapshot. simpl.
    by rewrite setStyleNames_absent.
  - apply bool_decide_eq_true in Hf. unfold snapshot. simpl.
    rewrite applyWrite_updateArtifact, Hf. by rewrite updateArtifact_absent.
Qed.

Lemma run_forSession_absent sessionId acts : ∀ st,
  forallb (forSession sessionId) acts = true → sessionId ∉ Session.id <$> sessions st →
  snapshot (run acts st) = snapshot st ∧ history (run acts st) = history st.
Proof.
  unfold run. induction acts as [|a acts IH]; intros st; [done|].
  simpl. intros [Ha Hall]%andb_prop Habs.
  destruct (forSession_absent sessionId a st Ha Habs) as [Hs Hh].
  destruct (IH (step a st) Hall) as [Hs' Hh'].
  { assert (sessions (step a st) = sessions st) as -> by by injection Hs. done. }
  split; congruence.
Qed.

End UpdateFacts.

Section UpdateTheorems.
Implicit Types (st : App) (ss : list Session.t).

(** X14. An undo in the middle of a generation loses what arrives later:
    the session is no longer in the list, so the style names and the writes
    that still arrive for it change nothing, and a redo brings the session
    back as it was when undo was pressed. The session's id is taken to be
    a new one. *)
Theorem undo_during_generation (manualPrompt : option jsstring) (baseTime : Z)
    (sessionId : jsstring) (before after : list Action) (st : App) :
  trim (promptToUse manualPrompt st) ≠ [] → isLoading st = false →
  sessionId ∉ Session.id <$> sessions st →
  forallb (forSession sessionId) before = true →
  forallb (forSession sessionId) after = true →
  let st1 := run before (handleSendMessage manualPrompt baseTime sessionId st) in
  let st2 := run after (handleUndo st1) in
  snapshot st2 = snapshot st
  ∧ snapshot (handleRedo st2) = snapshot st1.
Proof.
  intros Hne Hl Habs Hb Ha st1 st2.
  destruct (handleSendMessage_effective manualPrompt baseTime sessionId st Hne Hl)
    as (_ & _ & Hh & _).
  assert (history st1 = {| past := past (history st) ++ [snapshot st]; future := [] |}) as H1.
  { unfold st1. rewrite run_quiet_history; [done|].
    clear -Hb. induction before as [|a l IH]; [done|]. simpl in *.
    apply andb_prop in Hb as [Ha Hl]. by rewrite (forSession_quiet _ _ Ha), IH. }
  assert (handleUndo st1
          = setCurrentSessionIndex (λ _, currentSessionIndex st)
              (setSessions (λ _, sessions st)
                 (setHistory (λ _, {| past := past (history st);
                                      future := [snapshot st1] |}) st1))) as Hu.
  { unfold handleUndo. rewrite H1. simpl. rewrite last_snoc.
    rewrite length_app. simpl. rewrite Nat.add_sub, take_app_length. done. }
  destruct (run_forSession_absent sessionId after (handleUndo st1) Ha) as [Hs2 Hh2].
  { by rewrite Hu. }
  fold st2 in Hs2, Hh2. rewrite Hu in Hs2, Hh2. simpl in Hs2, Hh2.
  split; [done|]. unfold handleRedo. rewrite Hh2. simpl. by destruct st1.
Qed.

(** X15. Applying a variation replaces the html of the artifact in focus
    in the current session and marks it complete; the artifact's id and
    style name, the other artifacts and the other sessions stay as they
    are. With nothing in focus, no current session or no artifact at the
    focused position the sessions are unchanged. In each case the state
    before is appended to the past. *)
Theorem applyVariation_replaces_focused (html : jsstring) (st : App) :
  (∀ sess j art,
     currentSession st = Some sess → focusedArtifactIndex st = Some j →
     Session.artifacts sess !! j = Some art →
     sessions (applyVariation html st)
     = <[Z.to_nat (currentSessionIndex st) :=
           withArtifacts sess
             (<[j := Artifact.mk (Artifact.id art) (Artifact.styleName art) html complete]>
                (Session.artifacts sess))]> (sessions st))
  ∧ ((focusedArtifactIndex st = None
      ∨ ∀ sess j, currentSession st = Some sess → focusedArtifactIndex st = Some j →
                  Session.artifacts sess !! j = None) →
     sessions (applyVariation html st) = sessions st)
  ∧ currentSessionIndex (applyVariation html st) = currentSessionIndex st
  ∧ history (applyVariation html st)
    = {| past := past (history st) ++ [snapshot st]; future := [] |}.
Proof.
  unfold applyVariation, currentSession. split_and!.
  - intros sess j art Hs -> Ha. simpl.
    by rewrite (updateFocused_insert _ _ _ _ sess art).
  - intros [->|H]; [done|]. destruct (focusedArtifactIndex st) as [j|]; [|done].
    simpl. apply updateFocused_absent. intros sess Hs. by apply H.
  - by destruct (focusedArtifactIndex st).
  - by destruct (focusedArtifactIndex st).
Qed.

(** X16. With three artifacts in each session and an index that is [-1]
    or valid, a navigation handle that is rendered does something: its
    handler changes the state. And when nothing is in focus, or there is
    a current session, a handler that would change the state has its
    handle rendered. *)
Theorem nav_handles_work (st : App) :
  ThreeArtifacts (snapshot st) → ValidIndex (snapshot st) →
  (canGoBack st = true → prevItem st ≠ st)
  ∧ (canGoForward st = true → nextItem st ≠ st)
  ∧ (focusedArtifactIndex st = None ∨ is_Some (currentSession st) →
     (prevItem st ≠ st → canGoBack st = true)
     ∧ (nextItem st ≠ st → canGoForward st = true)).
Proof.
  intros H3 Hv. unfold ThreeArtifacts, ValidIndex in *. simpl in *.
  assert (∀ s, currentSession st = Some s → length (Session.artifacts s) = 3) as Hcur.
  { unfold currentSession, nthZ. intros s. case_match; [done|]. intros Hs.
    by eapply (Forall_lookup_1 _ _ _ _ H3) in Hs. }
  assert (is_Some (currentSession st) → 0 < length (sessions st)) as Hsome.
  { unfold currentSession, nthZ. case_match; [by intros [? ?]|].
    intros Hs%lookup_lt_is_Some. lia. }
  unfold canGoBack, canGoForward, hasStarted, prevItem, nextItem.
  destruct (focusedArtifactIndex st) as [focused|] eqn:Hfoc.
  - split_and!.
    + destruct (_ || _); [|done]. destruct (Nat.ltb_spec 0 focused); [|done].
      intros _ Heq. apply (f_equal focusedArtifactIndex) in Heq. simpl in Heq.
      rewrite Hfoc in Heq. simplify_eq. lia.
    + destruct (_ || _); [|done].
      destruct (currentSession st) as [s|] eqn:Hs; simpl.
      * rewrite (Hcur s eq_refl). destruct (Z.ltb_spec (Z.of_nat focused) (Z.of_nat 3 - 1)); [|done].
        destruct (Nat.ltb_spec focused 2); [|lia].
        intros _ Heq. apply (f_equal focusedArtifactIndex) in Heq. simpl in Heq.
        rewrite Hfoc in Heq. simplify_eq. lia.
      * destruct (Z.ltb_spec (Z.of_nat focused) (Z.of_nat 0 - 1)); [lia|done].
    + intros [|Hs]; [done|]. specialize (Hsome Hs).
      destruct (Nat.ltb_spec 0 (length (sessions st))); [|lia]. simpl.
      destruct Hs as [s Hs]. rewrite Hs. simpl. rewrite (Hcur s Hs). split.
      * destruct (Nat.ltb_spec 0 focused); done.
      * destruct (Nat.ltb_spec focused 2); [|done]. intros _.
        destruct (Z.ltb_spec (Z.of_nat focused) (Z.of_nat 3 - 1)); [done|lia].
  - assert (∀ i, setCurrentSessionIndex (λ _, i) (pushToHistory st) = st →
                 i = currentSessionIndex st) as Hidx.
    { intros i Heq. by apply (f_equal currentSessionIndex) in Heq. }
    split_and!.
    + destruct (_ || _); [|done]. destruct (Z.ltb_spec 0 (currentSessionIndex st)); [|done].
      intros _ Heq%Hidx. lia.
    + destruct (_ || _); [|done].
      destruct (Z.ltb_spec (currentSessionIndex st) (Z.of_nat (length (sessions st)) - 1));
        [|done].
      intros _ Heq%Hidx. lia.
    + intros _. split.
      * destruct (Z.ltb_spec 0 (currentSessionIndex st)); [|done]. intros _.
        destruct (Nat.ltb_spec 0 (length (sessions st))); [done|lia].
      * destruct (Z.ltb_spec (currentSessionIndex st) (Z.of_nat (length (sessions st)) - 1));
          [|done].
        intros _. destruct (Nat.ltb_spec 0 (length (sessions st))); [done|lia].
Qed.

(** X17. The undo, redo and send buttons are disabled exactly when their
    handlers would leave the state as it is. *)
Theorem disabled_buttons_do_nothing (baseTime : Z) (sessionId : jsstring) (st : App) :
  (undoDisabled st = true ↔ handleUndo st = st)
  ∧ (redoDisabled st = true ↔ handleRedo st = st)
  ∧ (sendDisabled st = true ↔ handleSendMessage None baseTime sessionId st = st).
Proof.
  unfold undoDisabled, redoDisabled, sendDisabled. split_and!.
  - rewrite bool_decide_eq_true. split.
    + intros H. unfold handleUndo. by rewrite H.
    + intros Heq. pose proof (handleUndo_past st) as Hlen. rewrite Heq in Hlen.
      destruct (past (history st)) as [|x l] eqn:E; [done|].
      destruct (list.last (x :: l)) as [y|] eqn:El.
      * unfold handleUndo in Heq. rewrite E, El in Heq.
        apply (f_equal (λ s, length (past (history s)))) in Heq. rewrite E in Heq.
        simpl in Heq. rewrite length_take in Heq. lia.
      * by apply last_None in El.
  - rewrite bool_decide_eq_true. split.
    + intros H. unfold handleRedo. by rewrite H.
    + intros Heq. destruct (future (history st)) as [|x l] eqn:E; [done|].
      unfold handleRedo in Heq. rewrite E in Heq.
      apply (f_equal (λ s, length (future (history s)))) in Heq. rewrite E in Heq.
      simpl in Heq. lia.
  - split.
    + intros H. apply handleSendMessage_ignored. simpl.
      apply orb_prop in H as [H|H]; [by right|left]. by apply bool_decide_eq_true in H.
    + intros Heq.
      destruct (handleSendMessage_cases None baseTime sessionId st) as [_|[Hne Hl]].
      * destruct (isLoading st) eqn:Hl; [done|]. simpl.
        apply bool_decide_eq_true.
        destruct (decide (trim (inputValue st) = [])) as [|Hne]; [done|].
        destruct (handleSendMessage_effective None baseTime sessionId st Hne Hl) as (Hs & _).
        rewrite Heq in Hs. apply (f_equal length) in Hs. rewrite length_app in Hs.
        simpl in Hs. lia.
      * destruct (handleSendMessage_effective None baseTime sessionId st Hne Hl) as (Hs & _).
        rewrite Heq in Hs. apply (f_equal length) in Hs. rewrite length_app in Hs.
        simpl in Hs. lia.
Qed.

(** X18. Going forward and then back, or back and then forward, returns
    to the same session, or to the same artifact in focus, whenever the
    first of the two moved; and the focus stays among the three artifacts.
    The index is taken to be that of a session when there is one, and the
    focus to be at most 2. *)
Theorem navigation_round_trip (st : App) :
  Current (snapshot st) →
  (∀ j, focusedArtifactIndex st = Some j → j ≤ 2) →
  (nextItem st ≠ st →
   snapshot (prevItem (nextItem st)) = snapshot st
   ∧ focusedArtifactIndex (prevItem (nextItem st)) = focusedArtifactIndex st)
  ∧ (prevItem st ≠ st →
     snapshot (nextItem (prevItem st)) = snapshot st
     ∧ focusedArtifactIndex (nextItem (prevItem st)) = focusedArtifactIndex st)
  ∧ (∀ j, focusedArtifactIndex (nextItem st) = Some j → j ≤ 2)
  ∧ (∀ j, focusedArtifactIndex (prevItem st) = Some j → j ≤ 2).
Proof.
  intros Hc Hf. unfold Current in Hc. simpl in Hc.
  unfold nextItem, prevItem.
  destruct (focusedArtifactIndex st) as [focused|] eqn:Hfoc.
  - specialize (Hf focused eq_refl). split_and!.
    + destruct (Nat.ltb_spec focused 2); [|done]. intros _. simpl.
      destruct (Nat.ltb_spec 0 (focused + 1)); [|lia]. simpl.
      split; [done|]. rewrite ?Hfoc. f_equal. lia.
    + destruct (Nat.ltb_spec 0 focused); [|done]. intros _. simpl.
      destruct (Nat.ltb_spec (focused - 1) 2); [|lia]. simpl.
      split; [done|]. rewrite ?Hfoc. f_equal. lia.
    + intros j. destruct (Nat.ltb_spec focused 2); simpl; rewrite ?Hfoc; intros [= <-]; lia.
    + intros j. destruct (Nat.ltb_spec 0 focused); simpl; rewrite ?Hfoc; intros [= <-]; lia.
  - split_and!.
    + destruct (Z.ltb_spec (currentSessionIndex st) (Z.of_nat (length (sessions st)) - 1));
        [|done].
      intros _. simpl. rewrite ?Hfoc.
      destruct (Z.ltb_spec 0 (currentSessionIndex st + 1)).
      * simpl. split; [|done]. unfold snapshot. simpl. f_equal. lia.
      * destruct Hc as [[Hnil Hi]|Hc]; [rewrite Hnil in *; simpl in *; lia|lia].
    + destruct (Z.ltb_spec 0 (currentSessionIndex st)); [|done].
      intros _. simpl. rewrite ?Hfoc.
      destruct (Z.ltb_spec (currentSessionIndex st - 1) (Z.of_nat (length (sessions st)) - 1)).
      * simpl. split; [|done]. unfold snapshot. simpl. f_equal. lia.
      * destruct Hc as [[_ Hi]|Hc]; lia.
    + intros j. case_match; simpl; by rewrite ?Hfoc.
    + intros j. case_match; simpl; by rewrite ?Hfoc.
Qed.

End UpdateTheorems.
(** ** The placeholder prompts *)

Section PlaceholderFacts.
Implicit Types (st : State).

Lemma fetchDynamicPlaceholders_grows reply shuffle st :
  ∃ added, placeholders (fetchDynamicPlaceholders reply shuffle st) = placeholders st ++ added
           ∧ placeholderIndex (fetchDynamicPlaceholders reply shuffle st) = placeholderIndex st.
Proof.
  unfold fetchDynamicPlaceholders. destruct (fetched reply) as [l|].
  - by eexists.
  - exists []. by rewrite app_nil_r.
Qed.

(** The index is the one of a placeholder. *)
Lemma handle_in_range e st i :
  placeholderIndex st = Some i → i < length (placeholders st) →
  ∃ j, placeholderIndex (handle e st) = Some j ∧ j < length (placeholders (handle e st))
       ∧ placeholders st `prefix_of` placeholders (handle e st).
Proof.
  intros Hi Hlt. destruct e as [|reply shuffle]; simpl.
  - unfold tick. rewrite Hi. simpl.
    destruct (Nat.eqb_spec (length (placeholders st)) 0) as [|Hne]; [lia|].
    eexists. split_and!; [done| |done]. by apply Nat.mod_upper_bound.
  - destruct (fetchDynamicPlaceholders_grows reply shuffle st) as (added & -> & ->).
    exists i. split_and!; [done| |by apply prefix_app_r].
    rewrite length_app. lia.
Qed.

Lemma runEvents_in_range events : ∀ st i,
  placeholderIndex st = Some i → i < length (placeholders st) →
  ∃ j, placeholderIndex (runEvents events st) = Some j
       ∧ j < length (placeholders (runEvents events st))
       ∧ placeholders st `prefix_of` placeholders (runEvents events st).
Proof.
  unfold runEvents. induction events as [|e events IH]; intros st i Hi Hlt; simpl.
  - by exists i.
  - destruct (handle_in_range e st i Hi Hlt) as (j & Hj & Hjlt & Hpre).
    destruct (IH _ j Hj Hjlt) as (k & Hk & Hklt & Hpre').
    exists k. split_and!; [done|done|]. by etrans.
Qed.

Lemma iter_tick k : ∀ st i,
  placeholderIndex st = Some i → 0 < length (placeholders st) →
  Nat.iter k tick st
  = {| placeholders := placeholders st;
       placeholderIndex := if k =? 0 then Some i
                           else Some ((i + k) mod length (placeholders st)) |}.
Proof.
  induction k as [|k IH]; intros st i Hi Hn.
  - simpl. rewrite <- Hi. by destruct st.
  - simpl. rewrite (IH st i Hi Hn). unfold tick. simpl.
    destruct (Nat.eqb_spec (length (placeholders st)) 0); [lia|]. f_equal.
    destruct k as [|k']; simpl; f_equal; try (by rewrite ?Nat.add_1_r).
    rewrite Nat.Div0.add_mod_idemp_l. f_equal. lia.
Qed.

End PlaceholderFacts.

Section PlaceholderTheorems.
Implicit Types (st : State).

(** X19. With at least one initial placeholder, whatever the timer and
    the request for more placeholders do, [placeholders[placeholderIndex]]
    is defined, and the initial placeholders stay where they were at the
    head of the list. *)
Theorem placeholder_always_defined (INITIAL_PLACEHOLDERS : list jsstring)
    (events : list Event) :
  INITIAL_PLACEHOLDERS ≠ [] →
  let st := runEvents events (initialState INITIAL_PLACEHOLDERS) in
  is_Some (currentPlaceholder st)
  ∧ (JString <$> INITIAL_PLACEHOLDERS) `prefix_of` placeholders st.
Proof.
  intros Hne st.
  destruct (runEvents_in_range events (initialState INITIAL_PLACEHOLDERS) 0)
    as (j & Hj & Hlt & Hpre); [done|..].
  { simpl. rewrite length_fmap. destruct INITIAL_PLACEHOLDERS; [done|simpl; lia]. }
  split; [|done]. unfold currentPlaceholder. fold st in Hj, Hlt. rewrite Hj. simpl.
  by apply lookup_lt_is_Some.
Qed.

(** X20. The timer walks round the list: [k] ticks take an index [i] of
    the list to the remainder of [i + k] by the number of placeholders; on
    an empty list the first tick makes the index [NaN], and it stays so. *)
Theorem placeholder_ticks_cycle (k : nat) (st : State) :
  (∀ i, placeholderIndex st = Some i → i < length (placeholders st) →
        placeholderIndex (Nat.iter k tick st)
        = Some ((i + k) mod length (placeholders st))
        ∧ placeholders (Nat.iter k tick st) = placeholders st)
  ∧ (placeholders st = [] → 0 < k → placeholderIndex (Nat.iter k tick st) = None).
Proof.
  split.
  - intros i Hi Hn. rewrite (iter_tick k st i Hi) by lia. simpl. split; [|done].
    destruct k; simpl; [|done]. by rewrite Nat.add_0_r, Nat.mod_small.
  - intros Hnil Hk.
    assert (∀ n, placeholders (Nat.iter n tick st) = []) as Hall.
    { induction n as [|n IH]; [done|]. simpl. by rewrite <- IH. }
    destruct k as [|k]; [lia|].
    change (Nat.iter (S k) tick st) with (tick (Nat.iter k tick st)).
    unfold tick at 1. cbn [placeholderIndex]. rewrite (Hall k).
    by destruct (placeholderIndex _).
Qed.

(** X21. The request for more placeholders appends at most ten entries,
    all of them entries of the array the model returned, and changes
    nothing else; without an API key, when the request fails, when the
    reply has no bracket match or one that does not parse, or when the
    array is empty, the placeholders stay as they are. The sort with a
    random comparison is taken to permute the array. *)
Theorem fetchDynamicPlaceholders_appends (reply : Reply)
    (shuffle : list JValue → list JValue) (st : State) :
  (∀ l, shuffle l ≡ₚ l) →
  placeholderIndex (fetchDynamicPlaceholders reply shuffle st) = placeholderIndex st
  ∧ (fetched reply = None → fetchDynamicPlaceholders reply shuffle st = st)
  ∧ (∀ newPlaceholders, fetched reply = Some newPlaceholders →
       ∃ added, placeholders (fetchDynamicPlaceholders reply shuffle st)
                = placeholders st ++ added
                ∧ length added = length newPlaceholders `min` 10
                ∧ 0 < length added
                ∧ added ⊆+ newPlaceholders)
  ∧ (fetched reply = None ↔
     match reply with
     | ReplyText text =>
         ∀ jsonMatch l, matchBracketed (styleText text) = Some jsonMatch →
                        JSON_parse jsonMatch = Some (JArray l) → l = []
     | _ => True
     end).
Proof.
  intros Hperm. split_and!.
  - by destruct (fetchDynamicPlaceholders_grows reply shuffle st) as (? & _ & ?).
  - unfold fetchDynamicPlaceholders. by intros ->.
  - intros l Hl. unfold fetchDynamicPlaceholders. rewrite Hl. simpl.
    eexists. split_and!; [done| | |].
    + rewrite length_take. rewrite (Permutation_length (Hperm l)). lia.
    + rewrite length_take. rewrite (Permutation_length (Hperm l)).
      assert (l ≠ []) as Hne.
      { unfold fetched in Hl. repeat case_match; by simplify_eq. }
      destruct l; [done|]. simpl. lia.
    + etrans; [apply sublist_submseteq, sublist_take|]. by rewrite (Hperm l).
  - unfold fetched. destruct reply as [| |text]; [done|done|].
    destruct (matchBracketed (styleText text)) as [m|] eqn:Em; [|done].
    destruct (JSON_parse m) as [v|] eqn:Ep;
      [|split; [intros _ ? ? [= <-]; by rewrite Ep|done]].
    destruct (matchBracketed_parses_array _ _ _ Em Ep) as [l ->].
    destruct l as [|x l].
    + split; [|done]. intros _ ? ? [= <-]. by rewrite Ep; intros [= <-].
    + split; [done|]. intros H. by specialize (H m (x :: l) eq_refl Ep).
Qed.

End PlaceholderTheorems.
(** ** Variations *)

Section VariationTheorems.
Context {J : Type} (parse : jsstring → option J) (hasNameAndHtml : J → bool).

(** X22. Generating variations runs to its end and touches neither the
    sessions nor the index, the history, the focus or the input. With an
    artifact in focus and a key, the variations it leaves are the objects
    the extractor yields from the text received that have a name and an
    html, in order, whatever the chunks and whether the stream ended or
    threw, and [isLoading] ends false. With no current session or nothing
    in focus nothing changes at all; with a focus beyond the artifacts of
    the session the handler throws after setting [isLoading], which stays
    true. *)
Theorem handleGenerateVariations_collects (apiKey : bool) (run : TaskRun) (st : App)
    (componentVariations : list J) :
  ∃ st' variations,
    handleGenerateVariations parse hasNameAndHtml apiKey run st componentVariations
    = Some (st', variations)
    ∧ snapshot st' = snapshot st ∧ history st' = history st
    ∧ focusedArtifactIndex st' = focusedArtifactIndex st ∧ inputValue st' = inputValue st
    ∧ (currentSession st = None ∨ focusedArtifactIndex st = None →
       st' = st ∧ variations = componentVariations)
    ∧ (∀ sess j,
         currentSession st = Some sess → focusedArtifactIndex st = Some j →
         Session.artifacts sess !! j = None →
         isLoading st' = true ∧ variations = [])
    ∧ (∀ sess j art,
         currentSession st = Some sess → focusedArtifactIndex st = Some j →
         Session.artifacts sess !! j = Some art →
         isLoading st' = false
         ∧ (apiKey = false → variations = [])
         ∧ (apiKey = true →
            ∃ yielded, parseJsonStream parse (received run) = Some yielded
                       ∧ variations = filter (λ v, hasNameAndHtml v = true) yielded
                       ∧ ∀ run', streamText (received run') = streamText (received run) →
                           handleGenerateVariations parse hasNameAndHtml true run' st
                             componentVariations
                           = Some (st', variations))).
Proof.
  unfold handleGenerateVariations, currentSession.
  destruct (nthZ (sessions st) (currentSessionIndex st)) as [sess|] eqn:Hs.
  2:{ exists st, componentVariations. by split_and!. }
  destruct (focusedArtifactIndex st) as [j|] eqn:Hj.
  2:{ exists st, componentVariations. by split_and!. }
  destruct (Session.artifacts sess !! j) as [art|] eqn:Ha.
  2:{ eexists _, _. split_and!; try done; try (by intros [?|?]).
      intros ? ? ? [= <-] [= <-]. by rewrite Ha. }
  assert (∀ (st' : App) (vs : list J) (Q : Prop),
            (∀ sess0 j0, Some sess = Some sess0 → Some j = Some j0 →
                         Session.artifacts sess0 !! j0 = None → Q)) as Hno.
  { intros ? ? ? ? ? [= <-] [= <-]. by rewrite Ha. }
  destruct apiKey.
  - destruct (parseJsonStream_Emits parse (received run)) as (r & o & Hrun & HE).
    rewrite Hrun. simpl. eexists _, _.
    split_and!; try done; try (by intros [?|?]); try (by eapply Hno).
    intros ? ? ? _ _ _. split_and!; [done|done|]. intros _.
    exists o. split_and!; [done|done|]. intros run' Htext.
    destruct (parseJsonStream_Emits parse (received run')) as (r' & o' & Hrun' & HE').
    rewrite Htext in HE'. destruct (Loop_det _ _ _ _ _ _ _ HE HE') as [_ ->].
    by rewrite Hrun'.
  - eexists _, _. split_and!; try done; try (by intros [?|?]); try (by eapply Hno).
Qed.

End VariationTheorems.
(** ** The session archive *)

Section ArchiveFacts.
Implicit Types (zip : Zip) (name content p f : jsstring).

Lemma entry_file_eq name content zip : entry name (file name content zip) = Some content.
Proof.
  induction zip as [|[n c] zip IH]; simpl.
  - by rewrite decide_True.
  - destruct (decide (n = name)) as [->|Hne]; simpl.
    + by rewrite decide_True.
    + by rewrite decide_False.
Qed.

Lemma entry_file_ne p name content zip :
  p ≠ name → entry p (file name content zip) = entry p zip.
Proof.
  intros Hne. induction zip as [|[n c] zip IH]; simpl.
  - by rewrite decide_False.
  - destruct (decide (n = name)) as [->|Hn]; simpl.
    + by rewrite !decide_False.
    + destruct (decide (n = p)); [done|apply IH].
Qed.

(** A folder name holds no slash, so a path tells its folder. *)
Lemma slash_split f1 f2 n1 n2 :
  47%N ∉ f1 → 47%N ∉ f2 →
  f1 ++ 47%N :: n1 = f2 ++ 47%N :: n2 → f1 = f2 ∧ n1 = n2.
Proof.
  revert f2. induction f1 as [|c f1 IH]; intros [|d f2] H1 H2; simpl.
  - by intros [= ->].
  - intros [= <- _]. by apply not_elem_of_cons in H2 as [? _].
  - intros [= -> _]. by apply not_elem_of_cons in H1 as [? _].
  - intros [= -> H]. apply not_elem_of_cons in H1 as [_ H1].
    apply not_elem_of_cons in H2 as [_ H2].
    destruct (IH f2 H1 H2 H) as [-> ->]. done.
Qed.

Lemma inFolder_inj f1 f2 n1 n2 :
  47%N ∉ f1 → 47%N ∉ f2 → inFolder f1 n1 = inFolder f2 n2 → f1 = f2 ∧ n1 = n2.
Proof.
  intros H1 H2. unfold inFolder. intros H%app_inv_head.
  by apply slash_split.
Qed.

Lemma isSlug_no_slash f : forallb isSlug f = true → 47%N ∉ f.
Proof.
  induction f as [|c f IH]; simpl; [intros _; apply not_elem_of_nil|].
  intros [Hc Hf]%andb_prop. apply not_elem_of_cons. split; [|by apply IH].
  intros <-. done.
Qed.

Lemma isSlug_decimalDigits d : forallb isSlug (decimalDigits d) = true.
Proof. induction d; simpl; by rewrite ?IHd. Qed.

Lemma safeStyleOf_slug styleName index :
  forallb isSlug (safeStyleOf styleName index) = true ∧ safeStyleOf styleName index ≠ [].
Proof.
  unfold safeStyleOf. pose proof (isSlug_sanitized styleName) as H.
  destruct (toLowerCase (replaceNonAlnum styleName)) as [|c s]; [|done].
  split; [|done]. change (u "artifact-" ++ decimal index)
    with ([97; 114; 116; 105; 102; 97; 99; 116; 45]%N ++ decimal index).
  rewrite forallb_app. simpl. apply isSlug_decimalDigits.
Qed.

Lemma session_json_apart f name : u "session.json" ≠ inFolder f name.
Proof. done. Qed.

End ArchiveFacts.

Section ArchiveRun.
Variable stringify : Session.t → jsstring.
Variable extractHtmlCssJs : jsstring → jsstring * jsstring * jsstring.
Implicit Types (zip : Zip) (artifact : Artifact.t).

(** The four files of an artifact, and nothing outside its folder. *)
Lemma addArtifact_entries index artifact zip zip' :
  addArtifact extractHtmlCssJs index artifact zip = Some zip' →
  ∃ styleName,
    Artifact.styleName artifact = Some (JString styleName)
    ∧ let f := safeStyleOf styleName index in
      let parts := extractHtmlCssJs (Artifact.html artifact) in
      entry (inFolder f (u "index.html")) zip' = Some (indexHtml parts.1.1)
      ∧ entry (inFolder f (u "style.css")) zip' = Some parts.1.2
      ∧ entry (inFolder f (u "script.js")) zip' = Some parts.2
      ∧ entry (inFolder f (u "standalone.html")) zip'
        = Some (wrapHtml (Artifact.html artifact) f)
      ∧ ∀ p, (∀ name, p ≠ inFolder f name) → entry p zip' = entry p zip.
Proof.
  unfold addArtifact.
  destruct (Artifact.styleName artifact) as [[| | |styleName| |]|]; try done.
  destruct (extractHtmlCssJs (Artifact.html artifact)) as [[html css] js] eqn:E.
  intros [= <-]. exists styleName. split; [done|]. simpl.
  set (f := safeStyleOf styleName index).
  assert (∀ n1 n2, n1 ≠ n2 → inFolder f n1 ≠ inFolder f n2) as Hne.
  { intros n1 n2 Hn. unfold inFolder. intros H%app_inv_head%app_inv_head%app_inv_head.
    done. }
  split_and!.
  - rewrite !entry_file_ne by by apply Hne. apply entry_file_eq.
  - rewrite !entry_file_ne by by apply Hne. apply entry_file_eq.
  - rewrite !entry_file_ne by by apply Hne. apply entry_file_eq.
  - apply entry_file_eq.
  - intros p Hp. by rewrite !entry_file_ne.
Qed.

Lemma addArtifacts_entries artifacts : ∀ index zip zip',
  addArtifacts extractHtmlCssJs index artifacts zip = Some zip' →
  (∀ p, (∀ f name, p ≠ inFolder f name) → entry p zip' = entry p zip)
  ∧ ∀ k artifact, artifacts !! k = Some artifact →
      ∃ styleName,
        Artifact.styleName artifact = Some (JString styleName)
        ∧ let f := safeStyleOf styleName (index + k) in
          let parts := extractHtmlCssJs (Artifact.html artifact) in
          (∀ j later name, k < j → artifacts !! j = Some later →
             Artifact.styleName later = Some (JString name) →
             safeStyleOf name (index + j) ≠ f) →
          entry (inFolder f (u "index.html")) zip' = Some (indexHtml parts.1.1)
          ∧ entry (inFolder f (u "style.css")) zip' = Some parts.1.2
          ∧ entry (inFolder f (u "script.js")) zip' = Some parts.2
          ∧ entry (inFolder f (u "standalone.html")) zip'
            = Some (wrapHtml (Artifact.html artifact) f).
Proof.
  induction artifacts as [|a artifacts IH]; intros index zip zip'; simpl.
  - intros [= <-]. split; [done|]. intros k artifact. by rewrite lookup_nil.
  - destruct (addArtifact extractHtmlCssJs index a zip) as [zip1|] eqn:E1; [|done].
    simpl. intros H. destruct (IH _ _ _ H) as [Hout Hin].
    destruct (addArtifact_entries _ _ _ _ E1) as (sn & Hsn & H1 & H2 & H3 & H4 & Hout1).
    split.
    + intros p Hp. rewrite Hout by done. by apply Hout1.
    + intros [|k] artifact Hk; simpl in Hk.
      * simplify_eq. exists sn. split; [done|]. rewrite Nat.add_0_r. intros Hlater.
        assert (∀ name, entry (inFolder (safeStyleOf sn index) name) zip'
                        = entry (inFolder (safeStyleOf sn index) name) zip1) as Hkeep.
        { intros name. clear -H Hlater.
          assert (∀ j later nm, artifacts !! j = Some later →
                    Artifact.styleName later = Some (JString nm) →
                    safeStyleOf nm (S index + j) ≠ safeStyleOf sn index) as Hl.
          { intros j later nm Hj Hnm.
            replace (S index + j) with (index + S j) by lia.
            by apply (Hlater (S j) later nm); [lia|..]. }
          clear Hlater. revert zip1 zip' H Hl. generalize (S index) as i.
          induction artifacts as [|b artifacts IHa]; intros i zip1 zip' H Hl; simpl in H.
          - by simplify_eq.
          - destruct (addArtifact extractHtmlCssJs i b zip1) as [zip2|] eqn:E2; [|done].
            simpl in H.
            destruct (addArtifact_entries _ _ _ _ E2) as (nm & Hnm & _ & _ & _ & _ & Hout2).
            rewrite (IHa (S i) zip2 zip' H).
            + apply Hout2. intros name' Heq.
              apply inFolder_inj in Heq as [Heq _];
                try (apply isSlug_no_slash, safeStyleOf_slug).
              specialize (Hl 0 b nm eq_refl Hnm). rewrite Nat.add_0_r in Hl. done.
            + intros j later nm' Hj Hnm'.
              replace (S i + j) with (i + S j) by lia. by apply (Hl (S j) later nm'). }
        by rewrite !Hkeep.
      * destruct (Hin k artifact Hk) as (nm & Hnm & Hfiles).
        exists nm. split; [done|]. replace (index + S k) with (S index + k) by lia.
        intros Hlater. apply Hfiles. intros j later name Hj Hlj Hname.
        replace (S index + j) with (index + S j) by lia.
        by apply (Hlater (S j) later name); [lia|..].
Qed.


End ArchiveRun.

Section ArchiveTheorems.
Variable stringify : Session.t → jsstring.
Variable extractHtmlCssJs : jsstring → jsstring * jsstring * jsstring.

(** X23. An exported archive is named [session-], the prompt part (as for
    a download) and [.zip]; it holds the session as [session.json] and,
    for every artifact, a folder under [artifacts/] named after the style
    (digits, lower-case letters and hyphens only, never empty). Unless a
    later artifact has the same folder name, in which case its files
    replace these, the folder holds the four files of the artifact:
    [index.html], [style.css] and [script.js] from the three parts the page
    was split into, and [standalone.html], the wrapped page, which contains
    the doctype. *)
Theorem export_archive_files (st : App) (filename : jsstring) (zip : Zip) :
  handleExportSession stringify extractHtmlCssJs st = Exported filename zip →
  ∃ currentSession safePrompt,
    nthZ (sessions st) (currentSessionIndex st) = Some currentSession
    ∧ filename = u "session-" ++ safePrompt ++ u ".zip"
    ∧ length safePrompt = length (Session.prompt currentSession) `min` 30
    ∧ forallb isSlug safePrompt = true
    ∧ entry (u "session.json") zip = Some (stringify currentSession)
    ∧ ∀ index artifact,
        Session.artifacts currentSession !! index = Some artifact →
        ∃ styleName,
          Artifact.styleName artifact = Some (JString styleName)
          ∧ let f := safeStyleOf styleName index in
            let parts := extractHtmlCssJs (Artifact.html artifact) in
            forallb isSlug f = true ∧ f ≠ []
            ∧ includes (wrapHtml (Artifact.html artifact) f) DOCTYPE = true
            ∧ ((∀ j later name,
                  index < j → Session.artifacts currentSession !! j = Some later →
                  Artifact.styleName later = Some (JString name) →
                  safeStyleOf name j ≠ f) →
               entry (inFolder f (u "index.html")) zip = Some (indexHtml parts.1.1)
               ∧ entry (inFolder f (u "style.css")) zip = Some parts.1.2
               ∧ entry (inFolder f (u "script.js")) zip = Some parts.2
               ∧ entry (inFolder f (u "standalone.html")) zip
                 = Some (wrapHtml (Artifact.html artifact) f)).
Proof.
  unfold handleExportSession.
  destruct (nthZ (sessions st) (currentSessionIndex st)) as [cs|]; [|done].
  destruct (addArtifacts _ _ _ _) as [zip'|] eqn:E; [|done]. intros [= <- <-].
  exists cs, (substring (toLowerCase (replaceNonAlnum (Session.prompt cs))) 0 30).
  destruct (addArtifacts_entries _ _ _ _ _ E) as [Hout Hin].
  split_and!; try done.
  - rewrite substring_0, length_take. unfold toLowerCase, replaceNonAlnum.
    rewrite !length_fmap. lia.
  - rewrite substring_0. apply forallb_take, isSlug_sanitized.
  - rewrite Hout; [by rewrite (entry_file_eq _ _ [])|]. intros f name. apply session_json_apart.
  - intros index artifact Ha. destruct (Hin index artifact Ha) as (sn & Hsn & Hfiles).
    exists sn. split; [done|]. simpl in *.
    destruct (safeStyleOf_slug sn index) as [Hslug Hne].
    split_and!; [done|done|apply includes_wrapHtml|done].
Qed.


End ArchiveTheorems.
(** ** Style names, image results and the end of a generation *)

Section MoreFacts.
Implicit Types (st : App) (ss prev : list Session.t) (sess : Session.t).

Lemma length_extractStyles responseText : length (extractStyles responseText) = 3.
Proof.
  unfold extractStyles. destruct (Nat.ltb_spec (length (parsedStyles responseText)) 3).
  - reflexivity.
  - rewrite length_take. lia.
Qed.

Lemma imap_fmap_lookup {A B} (g : A → B) (f : nat → A → A) (h : nat → B) (l : list A) :
  (∀ i x, l !! i = Some x → g (f i x) = h i) →
  g <$> imap f l = h <$> seq 0 (length l).
Proof.
  intros H. apply list_eq. intros i.
  rewrite list_lookup_fmap, list_lookup_imap, list_lookup_fmap.
  destruct (l !! i) as [x|] eqn:E; simpl.
  - rewrite lookup_seq_lt by by eapply lookup_lt_Some. simpl. by rewrite (H i x E).
  - rewrite lookup_seq_ge; [done|]. by apply lookup_ge_None.
Qed.

Lemma outcome_status run html status :
  outcome run = Some (html, status) →
  status ≠ streaming
  ∧ (status = error
     ↔ (∃ message, ending run = Throws (Some message))
       ∨ (ending run = Ends ∧ finalizeHtml (streamText (received run)) = [])).
Proof.
  unfold outcome. destruct (ending run) as [|[message|]]; simpl; [| |done].
  - intros [= <- <-]. destruct (finalizeHtml (streamText (received run))); simpl.
    + split; [done|]. split; [by right|done].
    + split; [done|]. split; [done|]. by intros [[? ?]|[_ ?]].
  - intros [= <- <-]. split; [done|]. split; [|done]. intros _. left. by exists message.
Qed.

End MoreFacts.

Section MoreTheorems.
Implicit Types (st : App) (ss prev : list Session.t) (sess : Session.t).

(** X25. When the style names arrive for a session of three artifacts,
    its artifacts take the three names in order, each a defined value, and
    keep their ids, html and status; sessions with another id are left as
    they are. *)
Theorem style_names_assigned (sessionId : jsstring) (responseText : option jsstring)
    (prev : list Session.t) (k : nat) (sess : Session.t) :
  prev !! k = Some sess →
  length (Session.artifacts sess) = 3 →
  ∃ sess', setStyleNames sessionId (extractStyles responseText) prev !! k = Some sess'
    ∧ (Session.id sess ≠ sessionId → sess' = sess)
    ∧ (Session.id sess = sessionId →
       Artifact.styleName <$> Session.artifacts sess' = Some <$> extractStyles responseText
       ∧ Artifact.id <$> Session.artifacts sess' = Artifact.id <$> Session.artifacts sess
       ∧ Artifact.html <$> Session.artifacts sess' = Artifact.html <$> Session.artifacts sess
       ∧ Artifact.status <$> Session.artifacts sess'
         = Artifact.status <$> Session.artifacts sess
       ∧ skeleton sess' = skeleton sess).
Proof.
  intros Hk Hlen. unfold setStyleNames. rewrite list_lookup_fmap, Hk. simpl.
  eexists. split; [done|]. destruct (decide (Session.id sess ≠ sessionId)) as [Hne|Heq].
  - split; [done|]. by intros ?.
  - split; [done|]. intros _. simpl. split_and!.
    + rewrite (imap_fmap_lookup _ _ (λ i, extractStyles responseText !! i)) by done.
      rewrite Hlen. pose proof (length_extractStyles responseText) as H3.
      destruct (extractStyles responseText) as [|a [|b [|c [|]]]]; done.
    + by apply fmap_imap_id.
    + by apply fmap_imap_id.
    + by apply fmap_imap_id.
    + apply skeleton_withArtifacts. by apply fmap_imap_id.
Qed.

(** X26. Generating images is refused, with nothing recorded, when there
    is no current session or nothing in focus; otherwise the state is
    recorded and [isLoading] set. The result, when it arrives, replaces the
    html of the artifact at the position the handler started from, and
    nothing else: the artifact's id, style name and status, the other
    artifacts and the other sessions stay, and the history is not
    touched. *)
Theorem generate_images_update (st : App) :
  (currentSession st = None ∨ focusedArtifactIndex st = None →
   handleGenerateImages st = st)
  ∧ (is_Some (currentSession st) → is_Some (focusedArtifactIndex st) →
     snapshot (handleGenerateImages st) = snapshot st
     ∧ history (handleGenerateImages st)
       = {| past := past (history st) ++ [snapshot st]; future := [] |}
     ∧ isLoading (handleGenerateImages st) = true)
  ∧ (∀ i j newHtml,
       history (imagesGenerated i j newHtml st) = history st
       ∧ currentSessionIndex (imagesGenerated i j newHtml st) = currentSessionIndex st
       ∧ (∀ sess art,
            nthZ (sessions st) i = Some sess → Session.artifacts sess !! j = Some art →
            sessions (imagesGenerated i j newHtml st)
            = <[Z.to_nat i :=
                  withArtifacts sess
                    (<[j := Artifact.mk (Artifact.id art) (Artifact.styleName art) newHtml
                                        (Artifact.status art)]> (Session.artifacts sess))]>
                (sessions st))
       ∧ ((∀ sess, nthZ (sessions st) i = Some sess → Session.artifacts sess !! j = None) →
          sessions (imagesGenerated i j newHtml st) = sessions st)).
Proof.
  unfold handleGenerateImages, currentSession. split_and!.
  - intros [->| ->]; [done|]. by destruct (nthZ _ _).
  - by intros [? ->] [? ->].
  - intros i j newHtml. unfold imagesGenerated. simpl. split_and!; [done|done| |].
    + intros sess art Hs Ha. by rewrite (updateFocused_insert _ _ _ _ sess art).
    + apply updateFocused_absent.
Qed.

(** X27. When the three tasks of a generation are through, whatever the
    order in which their updates were applied, one of two things holds.
    Either every stream ended or threw a value whose message can be read
    and printed; then no artifact of the session is streaming any more:
    each has the html and the status its own task ended with, which is an
    error exactly when its stream threw or its text, trimmed and stripped
    of its fences, is empty. Or some stream threw a value whose message
    cannot be read or printed, as [null] and [undefined]; then the updater
    of its [catch] raised and no state is left. The artifacts of the
    session are taken to carry the ids the submission gave them. *)
Theorem generation_settles (sessionId : jsstring) (runs : list TaskRun) (trace : list Effect)
    (prev : list Session.t) (k : nat) (sess : Session.t) :
  length runs = 3 →
  Merge (generationEffects sessionId runs) trace →
  prev !! k = Some sess →
  Session.id sess = sessionId →
  Artifact.id <$> Session.artifacts sess = Artifact.id <$> placeholderArtifacts sessionId →
  (Forall (λ run, ending run ≠ Throws None) runs
   ∧ ∃ next sess',
       applyEffects trace prev = Some next
       ∧ next !! k = Some sess'
       ∧ skeleton sess' = skeleton sess
       ∧ Forall2 (λ art run,
                    outcome run = Some (Artifact.html art, Artifact.status art)
                    ∧ Artifact.status art ≠ streaming
                    ∧ (Artifact.status art = error
                       ↔ (∃ message, ending run = Throws (Some message))
                         ∨ (ending run = Ends
                            ∧ finalizeHtml (streamText (received run)) = [])))
                 (Session.artifacts sess') runs)
  ∨ ((∃ run, run ∈ runs ∧ ending run = Throws None)
     ∧ applyEffects trace prev = None).
Proof.
  intros Hruns HM Hk Hid Hids.
  assert (length (Session.artifacts sess) = 3) as Harts.
  { rewrite <- (length_fmap Artifact.id), Hids. by rewrite length_fmap. }
  destruct (readable_or_not runs) as [Hread|(run & Hin & E)].
  - left. split; [done|].
    rewrite (applyEffects_readable sessionId runs) by done.
    apply (Merge_omap landed) in HM. rewrite <- generationWrites_landed in HM.
    set (wtrace := omap landed trace) in *.
    eexists _, _. split; [done|].
    rewrite applyWrites_pointwise, list_lookup_fmap, Hk. simpl. split; [done|].
    assert (∀ i art, Session.artifacts sess !! i = Some art →
              ∃ run art', runs !! i = Some run ∧ finish art run = Some art'
                          ∧ artifactAfter wtrace (Session.id sess) art = art') as Hfin.
    { intros i art Hart. pose proof (lookup_lt_Some _ _ _ Hart) as Hi. rewrite Harts in Hi.
      destruct (lookup_lt_is_Some_2 runs i) as [run Hrun]; [lia|].
      destruct (finish art run) as [art'|] eqn:Hf.
      - exists run, art'. split_and!; [done|done|]. rewrite Hid.
        apply (artifactAfter_generation sessionId runs wtrace i run art art' HM Hrun Hi);
          [|done].
        by rewrite <- Hids, list_lookup_fmap, Hart.
      - apply finish_None in Hf. by eapply Forall_lookup_1 in Hread. }
    split.
    + unfold sessionAfter. apply skeleton_withArtifacts.
      rewrite <- list_fmap_compose. apply list_fmap_ext. intros i art _. simpl.
      apply artifactAfter_id.
    + unfold sessionAfter. simpl. apply Forall2_same_length_lookup. split.
      * rewrite length_fmap. lia.
      * intros i art1 run. rewrite list_lookup_fmap.
        destruct (Session.artifacts sess !! i) as [art|] eqn:Hart; [|done]. simpl.
        intros [= <-] Hrun. destruct (Hfin i art Hart) as (run' & art' & Hrun' & Hf & ->).
        assert (run' = run) as -> by congruence. unfold finish in Hf.
        destruct (outcome run) as [[html status]|] eqn:Ho; [|done].
        injection Hf as <-. simpl. split; [done|]. by apply (outcome_status run html).
  - right. split; [by exists run|].
    apply list_elem_of_lookup in Hin as [i Hrun].
    pose proof (lookup_lt_Some _ _ _ Hrun) as Hi. rewrite Hruns in Hi.
    destruct (generationEffects_lookup sessionId runs i run Hrun Hi) as (aid & Haid & Hq).
    rewrite <- Hids, list_lookup_fmap in Haid.
    destruct (Session.artifacts sess !! i) as [art|] eqn:Hart; [|done].
    injection Haid as <-.
    apply (applyEffects_raises sessionId (Artifact.id art) trace prev sess art); try done.
    + eapply (Merge_elem _ _ HM i); [exact Hq|]. by apply taskEffects_raises.
    + by eapply list_elem_of_lookup_2.
    + by eapply list_elem_of_lookup_2.
Qed.

End MoreTheorems.

(** ** The further theorems at concrete inputs *)

Lemma download_filename_slug_witness :
  ∃ currentSession artifact styleName safePrompt safeStyle,
    nthZ (sessions variedApp) (currentSessionIndex variedApp) = Some currentSession
    ∧ (focusedArtifactIndex variedApp ≫= λ j, Session.artifacts currentSession !! j)
      = Some artifact
    ∧ Artifact.styleName artifact = Some (JString styleName)
    ∧ u "flash-clock-primary-pigment-gridwork.html"
      = u "flash-" ++ safePrompt ++ u "-" ++ safeStyle ++ u ".html"
    ∧ length safePrompt = length (Session.prompt currentSession) `min` 30
    ∧ length safeStyle = length styleName
    ∧ forallb isSlug safePrompt = true
    ∧ forallb isSlug safeStyle = true.
Proof.
  apply (download_filename_slug variedApp (u "flash-clock-primary-pigment-gridwork.html")
           (wrapHtml (u "<b>v</b>") (u "clock - primary-pigment-gridwork"))).
  vm_compute. reflexivity.
Defined.

Lemma current_session_is_shown_witness :
  let st' := run variedActions initialApp in
  Everywhere Current st'
  ∧ (sessions st' ≠ [] →
     is_Some (currentSession st')
     ∧ ∃ k, k < length (sessions st') ∧ currentSessionIndex st' = Z.of_nat k
            ∧ ∀ sIndex, positionClass sIndex (currentSessionIndex st')
                        = if sIndex <? k then past_session
                          else if sIndex =? k then active_session
                          else future_session).
Proof.
  apply (current_session_is_shown variedActions initialApp).
  split_and!; [by left|constructor|constructor].
Defined.

Lemma session_prompts_trimmed_witness :
  Everywhere TrimmedPrompts (run variedActions initialApp)
  ∧ Forall (λ s, Session.prompt s ≠ [] ∧ trim (Session.prompt s) = Session.prompt s)
           (sessions (run variedActions initialApp)).
Proof.
  apply (session_prompts_trimmed variedActions initialApp).
  split_and!; constructor.
Defined.

Lemma artifact_ids_fixed_witness :
  Everywhere PlaceholderIds (run variedActions initialApp)
  ∧ Forall (λ s, Artifact.id <$> Session.artifacts s
                 = [Session.id s ++ u "_0"; Session.id s ++ u "_1"; Session.id s ++ u "_2"]
                 ∧ NoDup (Artifact.id <$> Session.artifacts s))
           (sessions (run variedActions initialApp)).
Proof.
  apply (artifact_ids_fixed variedActions initialApp).
  split_and!; constructor.
Defined.

Lemma sessions_append_only_witness :
  let a := ASend (Some (u " clock ")) 0 (u "s1") in
  skeleton <$> sessions (step a initialApp) = skeleton <$> sessions initialApp
  ∨ ∃ manualPrompt baseTime sessionId,
      a = ASend manualPrompt baseTime sessionId
      ∧ sessions (step a initialApp)
        = sessions initialApp
          ++ [newSession sessionId (trim (promptToUse manualPrompt initialApp)) baseTime].
Proof.
  cbv zeta. apply (sessions_append_only (ASend (Some (u " clock ")) 0 (u "s1")) initialApp).
  - discriminate.
  - discriminate.
Defined.

Lemma undo_removes_generation_witness :
  let st1 := run arrivedBefore (handleSendMessage (Some (u "calendar")) 5 (u "s2") idleApp) in
  snapshot (handleUndo st1) = snapshot idleApp
  ∧ snapshot (handleRedo (handleUndo st1)) = snapshot st1.
Proof.
  apply (undo_removes_generation (Some (u "calendar")) 5 (u "s2") arrivedBefore idleApp).
  - vm_compute. discriminate.
  - reflexivity.
  - reflexivity.
Defined.

Lemma undo_during_generation_witness :
  let st1 := run arrivedBefore (handleSendMessage (Some (u "calendar")) 5 (u "s2") idleApp) in
  let st2 := run arrivedAfter (handleUndo st1) in
  snapshot st2 = snapshot idleApp
  ∧ snapshot (handleRedo st2) = snapshot st1.
Proof.
  apply (undo_during_generation (Some (u "calendar")) 5 (u "s2")
           arrivedBefore arrivedAfter idleApp).
  - vm_compute. discriminate.
  - reflexivity.
  - apply (bool_decide_unpack _). vm_compute. reflexivity.
  - vm_compute. reflexivity.
  - vm_compute. reflexivity.
Defined.

Lemma nav_handles_work_witness :
  (canGoBack variedApp = true → prevItem variedApp ≠ variedApp)
  ∧ (canGoForward variedApp = true → nextItem variedApp ≠ variedApp)
  ∧ (focusedArtifactIndex variedApp = None ∨ is_Some (currentSession variedApp) →
     (prevItem variedApp ≠ variedApp → canGoBack variedApp = true)
     ∧ (nextItem variedApp ≠ variedApp → canGoForward variedApp = true)).
Proof.
  apply (nav_handles_work variedApp).
  - repeat constructor.
  - unfold ValidIndex. simpl. lia.
Defined.

Lemma navigation_round_trip_witness :
  (nextItem variedApp ≠ variedApp →
   snapshot (prevItem (nextItem variedApp)) = snapshot variedApp
   ∧ focusedArtifactIndex (prevItem (nextItem variedApp)) = focusedArtifactIndex variedApp)
  ∧ (prevItem variedApp ≠ variedApp →
     snapshot (nextItem (prevItem variedApp)) = snapshot variedApp
     ∧ focusedArtifactIndex (nextItem (prevItem variedApp)) = focusedArtifactIndex variedApp)
  ∧ (∀ j, focusedArtifactIndex (nextItem variedApp) = Some j → j ≤ 2)
  ∧ (∀ j, focusedArtifactIndex (prevItem variedApp) = Some j → j ≤ 2).
Proof.
  apply (navigation_round_trip variedApp).
  - right. simpl. lia.
  - intros j [= <-]. lia.
Defined.

Lemma placeholder_always_defined_witness :
  let st := runEvents placeholderEvents (initialState twoPlaceholders) in
  is_Some (currentPlaceholder st)
  ∧ (JString <$> twoPlaceholders) `prefix_of` placeholders st.
Proof.
  apply (placeholder_always_defined twoPlaceholders placeholderEvents).
  discriminate.
Defined.

Lemma fetchDynamicPlaceholders_appends_witness :
  let st := initialState twoPlaceholders in
  let shuffle := @rev JValue in
  placeholderIndex (fetchDynamicPlaceholders moreReply shuffle st) = placeholderIndex st
  ∧ (fetched moreReply = None → fetchDynamicPlaceholders moreReply shuffle st = st)
  ∧ (∀ newPlaceholders, fetched moreReply = Some newPlaceholders →
       ∃ added, placeholders (fetchDynamicPlaceholders moreReply shuffle st)
                = placeholders st ++ added
                ∧ length added = length newPlaceholders `min` 10
                ∧ 0 < length added
                ∧ added ⊆+ newPlaceholders)
  ∧ (fetched moreReply = None ↔
     match moreReply with
     | ReplyText text =>
         ∀ jsonMatch l, matchBracketed (styleText text) = Some jsonMatch →
                        JSON_parse jsonMatch = Some (JArray l) → l = []
     | _ => True
     end).
Proof.
  cbv zeta.
  apply (fetchDynamicPlaceholders_appends moreReply (@rev JValue) (initialState twoPlaceholders)).
  intros l. symmetry. apply Permutation_rev.
Defined.

Example fetchDynamicPlaceholders_reversed :
  placeholders (fetchDynamicPlaceholders moreReply (@rev JValue) (initialState twoPlaceholders))
  = [JString (u "a clock"); JString (u "a calendar");
     JString (u "z"); JString (u "y"); JString (u "x")].
Proof. vm_compute. reflexivity. Qed.

Lemma export_archive_files_witness :
  ∃ currentSession safePrompt,
    nthZ (sessions variedApp) (currentSessionIndex variedApp) = Some currentSession
    ∧ u "session-clock.zip" = u "session-" ++ safePrompt ++ u ".zip"
    ∧ length safePrompt = length (Session.prompt currentSession) `min` 30
    ∧ forallb isSlug safePrompt = true
    ∧ entry (u "session.json") variedArchive = Some (Session.id currentSession)
    ∧ ∀ index artifact,
        Session.artifacts currentSession !! index = Some artifact →
        ∃ styleName,
          Artifact.styleName artifact = Some (JString styleName)
          ∧ let f := safeStyleOf styleName index in
            let parts := wholePage (Artifact.html artifact) in
            forallb isSlug f = true ∧ f ≠ []
            ∧ includes (wrapHtml (Artifact.html artifact) f) DOCTYPE = true
            ∧ ((∀ j later name,
                  index < j → Session.artifacts currentSession !! j = Some later →
                  Artifact.styleName later = Some (JString name) →
                  safeStyleOf name j ≠ f) →
               entry (inFolder f (u "index.html")) variedArchive = Some (indexHtml parts.1.1)
               ∧ entry (inFolder f (u "style.css")) variedArchive = Some parts.1.2
               ∧ entry (inFolder f (u "script.js")) variedArchive = Some parts.2
               ∧ entry (inFolder f (u "standalone.html")) variedArchive
                 = Some (wrapHtml (Artifact.html artifact) f)).
Proof.
  apply (export_archive_files Session.id wholePage variedApp (u "session-clock.zip")
           variedArchive).
  vm_compute. reflexivity.
Defined.

Example variedArchive_paths :
  variedArchive.*1
  = [ u "session.json";
      u "artifacts/primary-pigment-gridwork/index.html";
      u "artifacts/primary-pigment-gridwork/style.css";
      u "artifacts/primary-pigment-gridwork/script.js";
      u "artifacts/primary-pigment-gridwork/standalone.html";
      u "artifacts/tactile-risograph-layering/index.html";
      u "artifacts/tactile-risograph-layering/style.css";
      u "artifacts/tactile-risograph-layering/script.js";
      u "artifacts/tactile-risograph-layering/standalone.html";
      u "artifacts/kinetic-silhouette-balance/index.html";
      u "artifacts/kinetic-silhouette-balance/style.css";
      u "artifacts/kinetic-silhouette-balance/script.js";
      u "artifacts/kinetic-silhouette-balance/standalone.html" ].
Proof. vm_compute. reflexivity. Qed.

Lemma style_names_assigned_witness :
  let responseText := Some (uq "['A','B','C','D']") in
  let sess := newSession (u "s1") (u "clock") 0 in
  ∃ sess', setStyleNames (u "s1") (extractStyles responseText) (sessions clockApp) !! 0
           = Some sess'
    ∧ (Session.id sess ≠ u "s1" → sess' = sess)
    ∧ (Session.id sess = u "s1" →
       Artifact.styleName <$> Session.artifacts sess' = Some <$> extractStyles responseText
       ∧ Artifact.id <$> Session.artifacts sess' = Artifact.id <$> Session.artifacts sess
       ∧ Artifact.html <$> Session.artifacts sess' = Artifact.html <$> Session.artifacts sess
       ∧ Artifact.status <$> Session.artifacts sess'
         = Artifact.status <$> Session.artifacts sess
       ∧ skeleton sess' = skeleton sess).
Proof.
  cbv zeta.
  apply (style_names_assigned (u "s1") (Some (uq "['A','B','C','D']")) (sessions clockApp) 0
           (newSession (u "s1") (u "clock") 0)).
  - reflexivity.
  - reflexivity.
Defined.

Lemma generation_settles_witness :
  let sess := newSession (u "s1") (u "clock") 0 in
  (Forall (λ run, ending run ≠ Throws None) threeRuns
   ∧ ∃ next sess',
       applyEffects (Lands <$> threeRunsTrace) (sessions clockApp) = Some next
       ∧ next !! 0 = Some sess'
       ∧ skeleton sess' = skeleton sess
       ∧ Forall2 (λ art run,
                    outcome run = Some (Artifact.html art, Artifact.status art)
                    ∧ Artifact.status art ≠ streaming
                    ∧ (Artifact.status art = error
                       ↔ (∃ message, ending run = Throws (Some message))
                         ∨ (ending run = Ends
                            ∧ finalizeHtml (streamText (received run)) = [])))
                 (Session.artifacts sess') threeRuns)
  ∨ ((∃ run, run ∈ threeRuns ∧ ending run = Throws None)
     ∧ applyEffects (Lands <$> threeRunsTrace) (sessions clockApp) = None).
Proof.
  cbv zeta.
  apply (generation_settles (u "s1") threeRuns (Lands <$> threeRunsTrace)
           (sessions clockApp) 0 (newSession (u "s1") (u "clock") 0)).
  - reflexivity.
  - vm_compute.
    eapply (Merge_step 0); [reflexivity|]. cbn.
    eapply (Merge_step 1); [reflexivity|]. cbn.
    eapply (Merge_step 2); [reflexivity|]. cbn.
    eapply (Merge_step 1); [reflexivity|]. cbn.
    eapply (Merge_step 0); [reflexivity|]. cbn.
    eapply (Merge_step 2); [reflexivity|]. cbn.
    eapply (Merge_step 0); [reflexivity|]. cbn.
    apply Merge_done. repeat constructor.
  - reflexivity.
  - reflexivity.
  - reflexivity.
Defined.
